(** * Verification of the preloader client and of the aarch64 entry-point patcher

    A shallow embedding of [client.c] (the command-forwarding client) and of
    [arch/arch_aarch64.c] (the entry-point patcher), and the properties of
    the wire codec, the argument marshaller, the send loop, the connection
    sequence, the I/O relay loop, the exit-status reader, the argument
    parser and the patch/restore pair.

    Conventions.  A C byte is an integer in [0, 256); a C string is the list
    of bytes found at its address, read up to (not including) the first NUL.
    Fixed-width integers are integers with the wrap-around written out
    ([to_uint8], [to_uint32], [to_int32], ...).  System calls are answered
    by an explicit environment and every call is recorded in a trace. *)

From Stdlib Require Import ZArith List Lia Bool String Ascii.
From stdpp Require Import base tactics list.
Import ListNotations.
Local Open Scope Z_scope.

(** * Part 1: the model *)

(** ** Fixed-width integers *)

Definition to_uint8 (z : Z) : Z := z mod 2 ^ 8.
Definition to_uint16 (z : Z) : Z := z mod 2 ^ 16.
Definition to_uint32 (z : Z) : Z := z mod 2 ^ 32.
Definition to_size_t (z : Z) : Z := z mod 2 ^ 64.
Definition to_int32 (z : Z) : Z := (z + 2 ^ 31) mod 2 ^ 32 - 2 ^ 31.

Definition INT_MAX : Z := 2 ^ 31 - 1.
Definition INT_MIN : Z := - 2 ^ 31.
Definition LONG_MAX : Z := 2 ^ 63 - 1.
Definition LONG_MIN : Z := - 2 ^ 63.

Definition is_int32 (v : Z) : Prop := INT_MIN <= v <= INT_MAX.
Definition is_byte (b : Z) : Prop := 0 <= b < 256.

(** A byte buffer; [byte_at] is the load of a [uint8_t] at an index. *)
Definition bytes := list Z.
Definition byte_at (buf : bytes) (i : nat) : Z := to_uint8 (nth i buf 0).

(** ** Protocol codec ([int32_to_msg], [msg_to_int32]) *)

(** [int32_to_msg] stores the four bytes of [msg], most significant first;
    each store truncates the shifted value to [uint8_t]. *)
Definition int32_to_msg (msg : Z) : bytes :=
  [ to_uint8 (Z.shiftr msg 24);
    to_uint8 (Z.shiftr msg 16);
    to_uint8 (Z.shiftr msg 8);
    to_uint8 (Z.shiftr msg 0) ].

(** [msg_to_int32] ors the four bytes back together; the result is stored
    in an [int32_t]. *)
Definition msg_to_int32 (msg : bytes) : Z :=
  to_int32
    (Z.lor (Z.lor (Z.lor (Z.shiftl (byte_at msg 3) 0)
                         (Z.shiftl (byte_at msg 2) 8))
                  (Z.shiftl (byte_at msg 1) 16))
           (Z.shiftl (byte_at msg 0) 24)).

(** The unsigned value of four bytes read most significant first. *)
Definition be_value (msg : bytes) : Z :=
  nth 0 msg 0 * 2 ^ 24 + nth 1 msg 0 * 2 ^ 16 + nth 2 msg 0 * 2 ^ 8 + nth 3 msg 0.

(** ** C strings *)

(** A byte string literal, for writing examples. *)
Definition str (s : string) : bytes :=
  map (fun a => Z.of_N (N_of_ascii a)) (list_ascii_of_string s).

(** The string stored at an address: the bytes before the first NUL (or
    before the end of the list, which stands for the terminator). *)
Fixpoint c_str (s : bytes) : bytes :=
  match s with
  | [] => []
  | b :: s' => if b =? 0 then [] else b :: c_str s'
  end.

Definition strlen (s : bytes) : Z := Z.of_nat (length (c_str s)).

(** A string without embedded NUL bytes. *)
Definition nul_free (s : bytes) : Prop := Forall (fun b => b <> 0) s.

(** [strcmp]: zero exactly when the two strings agree up to their
    terminators; otherwise the difference of the first bytes that differ. *)
Fixpoint strcmp (a b : bytes) : Z :=
  match a, b with
  | [], [] => 0
  | [], y :: _ => - y
  | x :: _, [] => x
  | x :: a', y :: b' =>
      if x =? y then (if x =? 0 then 0 else strcmp a' b') else x - y
  end.

(** [isspace] in the C locale. *)
Definition isspace (c : Z) : bool :=
  (c =? 32) || ((9 <=? c) && (c <=? 13)).

Definition isdigit (c : Z) : bool := (48 <=? c) && (c <=? 57).

(** ** The environment: system-call answers and the trace of calls *)

(** The four loopback connections, in the order [main] opens them. *)
Inductive channel := Control | Stdout | Stderr | Stdin.

(** The three parts of the request, in the order [main] sends them. *)
Inductive field := FArgc | FAmtBytes | FCwdArgv.

(** What the program prints on its standard error. *)
Inductive message :=
| MsgUsage (prgname : bytes)
| MsgInvalidPort (arg : bytes)
| MsgPrepare
| MsgSocket
| MsgConnect (c : channel) (port : Z)
| MsgSend (f : field).

(** One record per system call, with the answer the environment gave. *)
Inductive event :=
| EvStderr (m : message)
| EvSocket (ret : Z)
| EvConnect (sock port ret : Z)
| EvSend (sock : Z) (offered : bytes) (ret : Z)
| EvPoll (fds : list Z) (ret : Z)
| EvRead (fd count ret : Z)
| EvWrite (fd count ret : Z)
| EvShutdown (fd : Z)
| EvClose (fd : Z)
| EvRecv (sock count ret : Z).

(** How a computation ends: it returns, the process exits through
    [exit], a blocking call never returns, or the behaviour is undefined
    (a write past the end of an allocation). *)
Inductive outcome (A : Type) :=
| Return (a : A)
| Exit (status : Z)
| Blocked
| Undefined.
Arguments Return {A} a.
Arguments Exit {A} status.
Arguments Blocked {A}.
Arguments Undefined {A}.

(** A computation: its outcome and the calls it made, oldest first. *)
Definition prog (A : Type) : Type := outcome A * list event.

Definition ret {A} (a : A) : prog A := (Return a, []).
Definition emit (e : event) : prog unit := (Return tt, [e]).
Definition exit {A} (status : Z) : prog A := (Exit status, []).
Definition blocked {A} : prog A := (Blocked, []).
Definition undefined {A} : prog A := (Undefined, []).

Definition bind {A B} (m : prog A) (k : A -> prog B) : prog B :=
  match m with
  | (Return a, t) => let '(o, t') := k a in (o, t ++ t')
  | (Exit s, t) => (Exit s, t)
  | (Blocked, t) => (Blocked, t)
  | (Undefined, t) => (Undefined, t)
  end.

Notation "'let*' p ':=' m 'in' k" := (bind m (fun p => k))
  (at level 10, p as pattern, m at level 100, k at level 200,
   format "'[v' 'let*'  p  ':='  m  'in' '/' k ']'").
Notation "m ;;; k" := (bind m (fun _ => k))
  (at level 100, right associativity).

Definition EXIT_FAILURE : Z := 1.

(** The [die] macro: print, then [exit(EXIT_FAILURE)]. *)
Definition die {A} (m : message) : prog A :=
  emit (EvStderr m) ;;; exit EXIT_FAILURE.

(** ** The send loop ([send_all]) *)

(** The bytes [send(conn, p, len)] is offered: [len] bytes from offset [p]. *)
Definition offered (buf : bytes) (p len : Z) : bytes :=
  take (Z.to_nat len) (drop (Z.to_nat p) buf).

(** The [while (len)] loop; [answers] are the values the successive [send]
    calls return.  When the answers run out the pending [send] never
    returns.  [p] is the offset of the cursor in [buf]; [len] is a
    [size_t]. *)
Fixpoint send_loop (conn : Z) (buf : bytes) (p len : Z) (answers : list Z)
  : prog Z :=
  if len =? 0 then ret 0
  else
    match answers with
    | [] => blocked
    | r :: answers' =>
        emit (EvSend conn (offered buf p len) r) ;;;
        if r =? -1 then ret (-1)
        else send_loop conn buf (p + r) (to_size_t (len - r)) answers'
    end.

Definition send_all (conn : Z) (buf : bytes) (len : Z) (answers : list Z)
  : prog Z :=
  if conn <? 0 then ret (-1) else send_loop conn buf 0 len answers.

(** The bytes a trace put on the wire of socket [sock]: of each [send] the
    kernel accepted, the accepted prefix of what was offered. *)
Fixpoint transmitted (sock : Z) (t : list event) : bytes :=
  match t with
  | [] => []
  | EvSend s off r :: t' =>
      (if (s =? sock) && (0 <=? r) then take (Z.to_nat r) off else [])
        ++ transmitted sock t'
  | _ :: t' => transmitted sock t'
  end.

(** The contract of [send]: it returns [-1] or a count of bytes accepted,
    at most what it was offered. *)
Definition send_contract (e : event) : Prop :=
  match e with
  | EvSend _ off r => r = -1 \/ 0 <= r <= Z.of_nat (length off)
  | _ => True
  end.

(** ** The argument marshaller ([prepare_data]) *)

Record run_data := {
  rd_argc : bytes;
  rd_amt_bytes : bytes;
  rd_cwd_argv : bytes
}.

(** [calloc(n, 1)]: [n] zero bytes. *)
Definition calloc (n : Z) : bytes := replicate (Z.to_nat n) 0.

(** [strcpy(buf + p, src)]: the string at [src] and its terminator are
    written at offset [p]; writing past the end of the allocation is
    undefined ([None]). *)
Definition strcpy (buf : bytes) (p : nat) (src : bytes) : option bytes :=
  let s := c_str src ++ [0] in
  if (p + length s <=? length buf)%nat
  then Some (take p buf ++ s ++ drop (p + length s) buf)
  else None.

(** The first loop: [amnt += (uint32_t)strlen(argv[i])]. *)
Definition add_lengths (amnt : Z) (args : list bytes) : Z :=
  fold_left (fun a s => to_uint32 (a + to_uint32 (strlen s))) args amnt.

(** The second loop: [strcpy(p, argv[i]); p += strlen(p) + 1], where the
    length is read back from the buffer. *)
Fixpoint copy_args (buf : bytes) (p : nat) (args : list bytes)
  : option bytes :=
  match args with
  | [] => Some buf
  | a :: args' =>
      match strcpy buf p a with
      | Some buf' =>
          copy_args buf' (p + Z.to_nat (strlen (drop p buf')) + 1)%nat args'
      | None => None
      end
  end.

(** [prepare_data(rd, argc, argv)].  [cwd] is what [getcwd] left in the
    local buffer ([None] when it failed) and [calloc_ok] tells whether the
    allocation succeeds.  The loops visit [argv[0 .. argc-1]].  The result
    is the filled [rd] and the returned value ([-1] or [amnt]); [None]
    stands for undefined behaviour (a copy running past the allocation). *)
Definition prepare_data (cwd : option bytes) (calloc_ok : bool)
    (argc : Z) (argv : list bytes) : option (run_data * Z) :=
  let rd_argc := int32_to_msg (to_int32 argc) in
  match cwd with
  | None => Some ({| rd_argc := rd_argc; rd_amt_bytes := []; rd_cwd_argv := [] |}, -1)
  | Some cwd =>
      let args := take (Z.to_nat argc) argv in
      let amnt := to_uint32 (strlen cwd) in
      let amnt := add_lengths amnt args in
      let amnt := to_uint32 (amnt + (argc + 1)) in
      let rd_amt := int32_to_msg (to_int32 amnt) in
      if negb calloc_ok
      then Some ({| rd_argc := rd_argc; rd_amt_bytes := rd_amt; rd_cwd_argv := [] |}, -1)
      else
        let buf := calloc (to_uint32 (amnt + 1)) in
        match strcpy buf 0 cwd with
        | Some buf =>
            match copy_args buf (Z.to_nat (strlen buf) + 1) args with
            | Some buf =>
                Some ({| rd_argc := rd_argc; rd_amt_bytes := rd_amt;
                         rd_cwd_argv := buf |}, amnt)
            | None => None
            end
        | None => None
        end
  end.

(** The payload as the wire format describes it: each field followed by
    one NUL. *)
Definition nul_terminated (fields : list bytes) : bytes :=
  concat (map (fun f => f ++ [0]) fields).

(** The sum of the [strlen] of the arguments. *)
Definition sum_strlen (args : list bytes) : Z :=
  fold_right (fun s acc => strlen s + acc) 0 args.

(** The length the wire format declares: one NUL per field, the working
    directory included. *)
Definition payload_length (cwd : bytes) (argv : list bytes) : Z :=
  strlen cwd + sum_strlen argv + Z.of_nat (length argv) + 1.

(** Modelled from the spec: the unmarshaller is the server's and is not part
    of the client sources; the payload is split at its NUL delimiters, each
    delimiter closing one field. *)
Fixpoint split_nul_aux (cur : bytes) (payload : bytes) : list bytes :=
  match payload with
  | [] => []
  | b :: rest =>
      if b =? 0 then rev cur :: split_nul_aux [] rest
      else split_nul_aux (b :: cur) rest
  end.

Definition split_nul (payload : bytes) : list bytes := split_nul_aux [] payload.

(** ** Port parsing ([str2int]) *)

Fixpoint skip_space (s : bytes) : bytes :=
  match s with
  | c :: s' => if isspace c then skip_space s' else s
  | [] => []
  end.

(** The decimal digits at the head of [s]: their value on top of [acc] and
    the rest of the string. *)
Fixpoint digits (acc : Z) (s : bytes) : Z * bytes :=
  match s with
  | c :: s' => if isdigit c then digits (acc * 10 + (c - 48)) s' else (acc, s)
  | [] => (acc, [])
  end.

(** [strtol(s, &end, 10)]: the value, the string at [end], and whether
    [errno] was set to [ERANGE].  With no digits nothing is converted and
    [end] is [s]. *)
Definition strtol (s : bytes) : Z * bytes * bool :=
  let s1 := skip_space s in
  let '(neg, s2) :=
    match s1 with
    | 43 :: r => (false, r)
    | 45 :: r => (true, r)
    | _ => (false, s1)
    end in
  match s2 with
  | c :: _ =>
      if isdigit c then
        let '(v, rest) := digits 0 s2 in
        let v := if neg then - v else v in
        if v >? LONG_MAX then (LONG_MAX, rest, true)
        else if v <? LONG_MIN then (LONG_MIN, rest, true)
        else (v, rest, false)
      else (0, s, false)
  | [] => (0, s, false)
  end.

(** [str2int(out, s)]: the returned value and the new [*out]. *)
Definition str2int (out : Z) (s : bytes) : Z * Z :=
  let s0 := nth 0 s 0 in
  if (s0 =? 0) || isspace s0 then (-1, out)
  else
    let '(l, rest, erange) := strtol s in
    if (l >? INT_MAX) || (erange && (l =? LONG_MAX)) then (-1, out)
    else if (l <? INT_MIN) || (erange && (l =? LONG_MIN)) then (-1, out)
    else if negb (nth 0 rest 0 =? 0) then (-1, out)
    else (0, l).

(** ** Argument parsing ([usage], [parse_args]) *)

Definition SV_DEFAULT_PORT : Z := 3636.
Definition PRG_NAME : bytes := str "client".

Definition usage {A} (prgname : bytes) : prog A :=
  emit (EvStderr (MsgUsage prgname)) ;;; exit EXIT_FAILURE.

(** [argv[i]]; an index past the vector reads as the empty string. *)
Definition arg (argv : list bytes) (i : nat) : bytes := nth i argv [].

(** [parse_args(&new_argc, argv, &port)]: the new argument count, the new
    argument vector and the port. *)
Definition parse_args (argc : Z) (argv : list bytes)
  : prog (Z * list bytes * Z) :=
  if argc <? 2 then usage (arg argv 0)
  else
    let port := SV_DEFAULT_PORT in
    if (strcmp (arg argv 0) PRG_NAME =? 0)
       || (strcmp (arg argv 0) (str "./" ++ PRG_NAME) =? 0)
    then
      if strcmp (arg argv 1) (str "-p") =? 0 then
        if argc <? 4 then usage (arg argv 0)
        else
          let '(r, port) := str2int port (arg argv 2) in
          if (r <? 0) || ((port <? 0) || (port >? 65535)) then
            emit (EvStderr (MsgInvalidPort (arg argv 2))) ;;;
            usage (arg argv 0)
          else ret (argc - 3, drop 3 argv, port)
      else if argc <? 2 then usage (arg argv 0)
      else ret (argc - 1, drop 1 argv, port)
    else ret (argc, argv, port).

(** ** Polling ([struct pollfd], [events_error]) *)

Record pollfd := { fd : Z; events : Z; revents : Z }.

(** The values of [<poll.h>] and [<unistd.h>] on Linux. *)
Definition POLLIN : Z := 0x001.
Definition POLLERR : Z := 0x008.
Definition POLLHUP : Z := 0x010.
Definition POLLNVAL : Z := 0x020.
Definition STDIN_FILENO : Z := 0.
Definition STDOUT_FILENO : Z := 1.
Definition STDERR_FILENO : Z := 2.

Definition set_fd (p : pollfd) (v : Z) : pollfd :=
  {| fd := v; events := events p; revents := revents p |}.
Definition set_revents (p : pollfd) (v : Z) : pollfd :=
  {| fd := fd p; events := events p; revents := v |}.

(** A C condition: non-zero is true. *)
Definition truthy (z : Z) : bool := negb (z =? 0).

(** The loop of [events_error]: [n] entries are left to visit and [p] is
    the rest of the array. *)
Fixpoint events_error_loop (p : list pollfd) (n : nat) : Z :=
  match n, p with
  | S n', pf :: p' =>
      let ev := events pf in
      if truthy (Z.land ev POLLHUP) || truthy (Z.land ev POLLERR)
         || truthy (Z.land ev POLLNVAL)
      then 1
      else events_error_loop p' n'
  | _, _ => 0
  end.

Definition events_error (p : list pollfd) (evs : Z) : Z :=
  events_error_loop p (Z.to_nat evs).

(** ** Connecting ([do_connect]) *)

(** [do_connect(port, &sock)]: [socket_ans] and [connect_ans] are what
    [socket] and [connect] return.  The port is a [uint16_t].  The result
    is the returned value and [*sock]. *)
Definition do_connect (port : Z) (socket_ans connect_ans : Z) : prog (Z * Z) :=
  emit (EvSocket socket_ans) ;;;
  if socket_ans <? 0 then die MsgSocket
  else
    emit (EvConnect socket_ans (to_uint16 port) connect_ans) ;;;
    ret (connect_ans, socket_ans).

(** ** Servicing one source ([handle_poll_event]) *)

Definition BUFF_SIZE : Z := 1024.

(** [handle_poll_event(pfd, out_fd, is_sock, &is_eof)]: [amnt] is what
    [read] returns and [wret] what [write] returns if it is called.  The
    result is the returned value, [*is_eof] and [*pfd].  The bytes moved
    are not tracked, only their count. *)
Definition handle_poll_event (pfd : pollfd) (out_fd is_sock : Z)
    (amnt wret : Z) : prog (Z * Z * pollfd) :=
  emit (EvRead (fd pfd) BUFF_SIZE amnt) ;;;
  if amnt <=? 0 then
    let cfd := if truthy is_sock then fd pfd else out_fd in
    emit (EvShutdown cfd) ;;;
    emit (EvClose cfd) ;;;
    ret (-1, if amnt =? 0 then 1 else 0, set_fd pfd (-1))
  else
    emit (EvWrite out_fd amnt wret) ;;;
    if negb (wret =? amnt) then ret (-1, 0, pfd) else ret (0, 0, pfd).

(** ** The relay loop of [main] *)

(** What the environment does during one turn of the loop: the value
    [poll] returns, the [revents] it reports for the three entries, and,
    for each source, what [read] and the forwarding [write] return if the
    source is serviced in this turn. *)
Record round := {
  poll_ret : Z;
  poll_revents : list Z;
  read_ret : list Z;
  write_ret : list Z
}.

(** [poll(fds, 3, -1)]: entries with a negative descriptor are ignored and
    report no event; on failure the array is left alone. *)
Definition poll (fds : list pollfd) (r : round) : prog (Z * list pollfd) :=
  emit (EvPoll (map fd fds) (poll_ret r)) ;;;
  ret (poll_ret r,
       if poll_ret r =? -1 then fds
       else imap (fun i p =>
                    set_revents p (if fd p <? 0 then 0
                                   else nth i (poll_revents r) 0)) fds).

Definition dummy_pollfd : pollfd := {| fd := -1; events := 0; revents := 0 |}.

(** [fds[i]] *)
Definition entry (fds : list pollfd) (i : nat) : pollfd := nth i fds dummy_pollfd.

(** The body of the [while] loop after [poll] has returned: whether the
    loop is left ([true] for [break]) and the array. *)
Definition relay_body (sock_stdin : Z) (fds : list pollfd) (r : round)
  : prog (bool * list pollfd) :=
  if truthy (events_error fds 3) then ret (true, fds)
  else
    let* (brk, fds) :=
      (if truthy (Z.land (revents (entry fds 0)) POLLIN) then
         let* (rc, _, p) :=
           handle_poll_event (entry fds 0) STDOUT_FILENO 1
             (nth 0 (read_ret r) 0) (nth 0 (write_ret r) 0) in
         ret (rc <? 0, <[0%nat := p]> fds)
       else ret (false, fds)) in
    if brk : bool then ret (true, fds)
    else
      let* (brk, fds) :=
        (if truthy (Z.land (revents (entry fds 1)) POLLIN) then
           let* (rc, _, p) :=
             handle_poll_event (entry fds 1) STDERR_FILENO 1
               (nth 1 (read_ret r) 0) (nth 1 (write_ret r) 0) in
           ret (rc <? 0, <[1%nat := p]> fds)
         else ret (false, fds)) in
      if brk : bool then ret (true, fds)
      else
        if truthy (Z.land (revents (entry fds 2)) POLLIN) then
          let* (rc, is_eof, p) :=
            handle_poll_event (entry fds 2) sock_stdin 0
              (nth 2 (read_ret r) 0) (nth 2 (write_ret r) 0) in
          ret ((rc <? 0) && negb (truthy is_eof), <[2%nat := p]> fds)
        else ret (false, fds).

(** [while (poll(fds, 3, -1) != -1) { ... }]: one [round] per turn; when
    the rounds run out [poll] never returns.  The result is the array as
    the loop leaves it. *)
Fixpoint relay_loop (sock_stdin : Z) (fds : list pollfd) (rounds : list round)
  : prog (list pollfd) :=
  match rounds with
  | [] => blocked
  | r :: rounds' =>
      let* (pr, fds) := poll fds r in
      if pr =? -1 then ret fds
      else
        let* (brk, fds) := relay_body sock_stdin fds r in
        if brk : bool then ret fds else relay_loop sock_stdin fds rounds'
  end.

(** The array after [poll] has returned with success. *)
Definition polled (p : pollfd) (rev : Z) : pollfd :=
  set_revents p (if fd p <? 0 then 0 else rev).

(** The events of servicing remote stdout with success. *)
Definition stdout_forwarded (p0 : pollfd) (r : round) : list event :=
  if truthy (Z.land (revents p0) POLLIN)
  then [EvRead (fd p0) BUFF_SIZE (nth 0 (read_ret r) 0);
        EvWrite STDOUT_FILENO (nth 0 (read_ret r) 0) (nth 0 (write_ret r) 0)]
  else [].

(** Rounds used in the examples: what [poll] reports for the three
    entries and what [read] returns for each source; every forwarding
    [write] is complete. *)
Definition turn (revs reads : list Z) : round :=
  {| poll_ret := 1; poll_revents := revs; read_ret := reads; write_ret := reads |}.

(** ** The program ([main]) *)

(** Everything the environment decides during one run. *)
Record env := {
  env_cwd : option bytes;           (* the directory [getcwd] stores, if any *)
  env_calloc : bool;                (* whether [calloc] succeeds *)
  env_socket : channel -> Z;        (* what [socket] returns for a channel *)
  env_connect : channel -> Z;       (* what [connect] returns for a channel *)
  env_send : field -> list Z;       (* what the [send] calls of a part return *)
  env_rounds : list round;          (* the turns of the relay loop *)
  env_recv : Z;                     (* what the final [recv] returns *)
  env_recv_buf : bytes              (* [ret_buff] after the final [recv] *)
}.

(** The four sockets: control, stdout, stderr, stdin. *)
Record sockets := {
  sock : Z;
  sock_stdout : Z;
  sock_stderr : Z;
  sock_stdin : Z
}.

(** [main] up to the relay loop: parse, marshal, connect the control
    socket, send the request, connect the three I/O sockets. *)
Definition establish (e : env) (argv : list bytes) : prog sockets :=
  let argc := Z.of_nat (length argv) in
  let* (new_argc, new_argv, port) := parse_args argc argv in
  match prepare_data (env_cwd e) (env_calloc e) new_argc new_argv with
  | None => undefined
  | Some (rd, amnt) =>
      (if amnt <? 0 then die MsgPrepare else ret tt) ;;;
      let* (r, sock) :=
        do_connect port (env_socket e Control) (env_connect e Control) in
      (if r <? 0 then die (MsgConnect Control port) else ret tt) ;;;
      let* r := send_all sock (rd_argc rd) 4 (env_send e FArgc) in
      (if r <? 0 then die (MsgSend FArgc) else ret tt) ;;;
      let* r := send_all sock (rd_amt_bytes rd) 4 (env_send e FAmtBytes) in
      (if r <? 0 then die (MsgSend FAmtBytes) else ret tt) ;;;
      let* r := send_all sock (rd_cwd_argv rd) amnt (env_send e FCwdArgv) in
      (if r <? 0 then die (MsgSend FCwdArgv) else ret tt) ;;;
      let* (r, sock_stdout) :=
        do_connect (port + 1) (env_socket e Stdout) (env_connect e Stdout) in
      (if r <? 0 then die (MsgConnect Stdout (port + 1)) else ret tt) ;;;
      let* (r, sock_stderr) :=
        do_connect (port + 2) (env_socket e Stderr) (env_connect e Stderr) in
      (if r <? 0 then die (MsgConnect Stderr (port + 2)) else ret tt) ;;;
      let* (r, sock_stdin) :=
        do_connect (port + 3) (env_socket e Stdin) (env_connect e Stdin) in
      (if r <? 0 then die (MsgConnect Stdin (port + 3)) else ret tt) ;;;
      ret {| sock := sock; sock_stdout := sock_stdout;
             sock_stderr := sock_stderr; sock_stdin := sock_stdin |}
  end.

(** The array as [main] fills it before the loop; [revents] is not
    initialised by the program and is written by [poll]. *)
Definition initial_fds (s : sockets) : list pollfd :=
  [ {| fd := sock_stdout s; events := POLLIN; revents := 0 |};
    {| fd := sock_stderr s; events := POLLIN; revents := 0 |};
    {| fd := STDIN_FILENO; events := POLLIN; revents := 0 |} ].

(** [main] after the relay loop: read the status, close what is still
    open, return. *)
Definition read_status (e : env) (s : sockets) (fds : list pollfd) : prog Z :=
  let ret0 := 42 in
  emit (EvRecv (sock s) 4 (env_recv e)) ;;;
  let ret1 := if negb (env_recv e =? 4) then ret0
              else msg_to_int32 (env_recv_buf e) in
  emit (EvClose (sock s)) ;;;
  (if fd (entry fds 0) >=? 0 then emit (EvClose (sock_stdout s)) else ret tt) ;;;
  (if fd (entry fds 1) >=? 0 then emit (EvClose (sock_stderr s)) else ret tt) ;;;
  (if fd (entry fds 2) >=? 0 then emit (EvClose (sock_stdin s)) else ret tt) ;;;
  ret ret1.

(** The position of a channel in the order [main] connects them, which
    is also its offset from the base port. *)
Definition channel_index (c : channel) : Z :=
  match c with Control => 0 | Stdout => 1 | Stderr => 2 | Stdin => 3 end.

(** The request as it goes on the control socket: the argument count, the
    payload length and the payload. *)
Definition request (rd : run_data) (amnt : Z) : bytes :=
  rd_argc rd ++ rd_amt_bytes rd ++ take (Z.to_nat amnt) (rd_cwd_argv rd).

(** Events of the relay: waiting, reading a source, forwarding. *)
Definition is_relay_event (ev : event) : Prop :=
  match ev with
  | EvPoll _ _ | EvRead _ _ _ | EvWrite _ _ _ => True
  | _ => False
  end.

Definition is_connect (ev : event) : Prop :=
  match ev with EvConnect _ _ _ => True | _ => False end.

Definition is_send (ev : event) : Prop :=
  match ev with EvSend _ _ _ => True | _ => False end.

(** The ports of the connection attempts of a trace, oldest first. *)
Fixpoint connect_ports (t : list event) : list Z :=
  match t with
  | [] => []
  | EvConnect _ port _ :: t' => port :: connect_ports t'
  | _ :: t' => connect_ports t'
  end.

(** The integers [0 .. n-1]. *)
Definition upto (n : Z) : list Z := map Z.of_nat (seq 0 (Z.to_nat n)).

(** Sockets used in the examples. *)
Definition example_sockets : sockets :=
  {| sock := 3; sock_stdout := 4; sock_stderr := 5; sock_stdin := 6 |}.

(** The status [main] returns once the loop is over. *)
Definition status_of (e : env) : Z :=
  if env_recv e =? 4 then msg_to_int32 (env_recv_buf e) else 42.

(** [main(argc, argv)] with [argc] the length of [argv]. *)
Definition main (e : env) (argv : list bytes) : prog Z :=
  let* s := establish e argv in
  let* fds := relay_loop (sock_stdin s) (initial_fds s) (env_rounds e) in
  read_status e s fds.


(** The arrays the loop can find at the top of a turn in a run of [main]:
    the initial one, and what a turn that does not leave the loop makes of
    one. *)
Inductive loop_state (s : sockets) : list pollfd -> Prop :=
| loop_start : loop_state s (initial_fds s)
| loop_turn fds r pr fds1 t1 fds2 t2 :
    loop_state s fds ->
    poll fds r = (Return (pr, fds1), t1) ->
    pr <> -1 ->
    relay_body (sock_stdin s) fds1 r = (Return (false, fds2), t2) ->
    loop_state s fds2.

(** An environment used in the examples: every call succeeds, the request
    goes out in partial writes, remote stdout delivers 5 bytes and then
    closes, and the server reports status 7. *)
Definition example_env : env :=
  {| env_cwd := Some (str "/tmp");
     env_calloc := true;
     env_socket := fun c => 3 + channel_index c;
     env_connect := fun _ => 0;
     env_send := fun f => match f with
                          | FArgc => [4]
                          | FAmtBytes => [2; 2]
                          | FCwdArgv => [10; 6]
                          end;
     env_rounds := [turn [POLLIN; 0; 0] [5; 0; 0]; turn [POLLIN; 0; 0] [0; 0; 0]];
     env_recv := 4;
     env_recv_buf := [0; 0; 0; 7] |}.

Definition example_argv : list bytes :=
  [str "client"; str "-p"; str "4000"; str "echo"; str "hello"].

(** The same environment with one answer replaced. *)
Definition with_connect (e : env) (f : channel -> Z) : env :=
  {| env_cwd := env_cwd e; env_calloc := env_calloc e;
     env_socket := env_socket e; env_connect := f;
     env_send := env_send e; env_rounds := env_rounds e;
     env_recv := env_recv e; env_recv_buf := env_recv_buf e |}.

Definition with_recv (e : env) (n : Z) (buf : bytes) : env :=
  {| env_cwd := env_cwd e; env_calloc := env_calloc e;
     env_socket := env_socket e; env_connect := env_connect e;
     env_send := env_send e; env_rounds := env_rounds e;
     env_recv := n; env_recv_buf := buf |}.
(** ** Vocabulary for further properties *)

(** Decimal digits (each between 0 and 9) as characters, and their value. *)
Definition decimal (ds : list Z) : bytes := map (fun d => 48 + d) ds.

Definition decimal_value (ds : list Z) : Z :=
  fold_left (fun a d => a * 10 + d) ds 0.

Definition digit_list (ds : list Z) : Prop := Forall (fun d => 0 <= d <= 9) ds.

(** An optional sign: nothing, ['+'] or ['-']. *)
Inductive sign := NoSign | Plus | Minus.

Definition sign_chars (sg : sign) : bytes :=
  match sg with NoSign => [] | Plus => [43] | Minus => [45] end.

Definition signed (sg : sign) (v : Z) : Z :=
  match sg with Minus => - v | _ => v end.

(** The same environment with other answers from [getcwd] and [calloc],
    from [socket], or to the [send] calls. *)
Definition with_prepare (e : env) (cwd : option bytes) (ok : bool) : env :=
  {| env_cwd := cwd; env_calloc := ok;
     env_socket := env_socket e; env_connect := env_connect e;
     env_send := env_send e; env_rounds := env_rounds e;
     env_recv := env_recv e; env_recv_buf := env_recv_buf e |}.

Definition with_socket (e : env) (f : channel -> Z) : env :=
  {| env_cwd := env_cwd e; env_calloc := env_calloc e;
     env_socket := f; env_connect := env_connect e;
     env_send := env_send e; env_rounds := env_rounds e;
     env_recv := env_recv e; env_recv_buf := env_recv_buf e |}.

Definition with_send (e : env) (f : field -> list Z) : env :=
  {| env_cwd := env_cwd e; env_calloc := env_calloc e;
     env_socket := env_socket e; env_connect := env_connect e;
     env_send := f; env_rounds := env_rounds e;
     env_recv := env_recv e; env_recv_buf := env_recv_buf e |}.

Definition with_rounds (e : env) (rounds : list round) : env :=
  {| env_cwd := env_cwd e; env_calloc := env_calloc e;
     env_socket := env_socket e; env_connect := env_connect e;
     env_send := env_send e; env_rounds := rounds;
     env_recv := env_recv e; env_recv_buf := env_recv_buf e |}.

(** Events of the set-up phase of [main]: messages, sockets, connections
    and the request. *)
Definition is_setup_event (ev : event) : Prop :=
  match ev with
  | EvStderr _ | EvSocket _ | EvConnect _ _ _ | EvSend _ _ _ => True
  | _ => False
  end.

(** The descriptors a trace closes, oldest first. *)
Fixpoint closes (t : list event) : list Z :=
  match t with
  | [] => []
  | EvClose c :: t' => c :: closes t'
  | _ :: t' => closes t'
  end.

(** The I/O sockets [main] closes after the loop, given the array the loop
    left. *)
Definition owed (s : sockets) (fds : list pollfd) : list Z :=
  (if fd (entry fds 0) >=? 0 then [sock_stdout s] else [])
    ++ (if fd (entry fds 1) >=? 0 then [sock_stderr s] else [])
    ++ (if fd (entry fds 2) >=? 0 then [sock_stdin s] else []).

(** The four sockets of a run, in the order they are created. *)
Definition env_sockets (e : env) : list Z :=
  map (env_socket e) [Control; Stdout; Stderr; Stdin].

(** The three forwarding paths of the relay: the descriptor read, the
    descriptor written, and the socket of the pair. *)
Definition paths (s : sockets) : list (Z * Z * Z) :=
  [ (sock_stdout s, STDOUT_FILENO, sock_stdout s);
    (sock_stderr s, STDERR_FILENO, sock_stderr s);
    (STDIN_FILENO, sock_stdin s, sock_stdin s) ].

(** A descriptor of the array: the one [main] stored, or -1 once
    [handle_poll_event] has retired the entry. *)
Definition stored_or_retired (v stored : Z) : Prop := v = stored \/ v = -1.

(** An array of three entries whose descriptors are the ones [main]
    stored, or -1. *)
Definition tracked (s : sockets) (fds : list pollfd) : Prop :=
  Forall2 stored_or_retired (map fd fds)
          [sock_stdout s; sock_stderr s; STDIN_FILENO].

(** The shape of a trace of the relay: a sequence of waits, of transfers
    (a read of a positive count and the write of that count along one
    path) and of retirements (a read of zero or less and the shutdown and
    close of the socket of that path). *)
Inductive relay_trace (s : sockets) : list event -> Prop :=
| relay_done : relay_trace s []
| relay_wait fds r t :
    Forall2 stored_or_retired fds [sock_stdout s; sock_stderr s; STDIN_FILENO] ->
    relay_trace s t ->
    relay_trace s (EvPoll fds r :: t)
| relay_transfer src dst c n w t :
    In (src, dst, c) (paths s) -> 0 < n ->
    relay_trace s t ->
    relay_trace s (EvRead src BUFF_SIZE n :: EvWrite dst n w :: t)
| relay_retire src dst c n t :
    In (src, dst, c) (paths s) -> n <= 0 ->
    relay_trace s t ->
    relay_trace s (EvRead src BUFF_SIZE n :: EvShutdown c :: EvClose c :: t).

(** An entry whose requested [events] carry one of the three condition
    bits. *)
Definition POLL_CONDITIONS : Z := Z.lor POLLHUP (Z.lor POLLERR POLLNVAL).

Definition flagged (p : pollfd) : Prop := Z.land (events p) POLL_CONDITIONS <> 0.

(** Messages on standard error. *)
Definition is_message (ev : event) : Prop :=
  match ev with EvStderr _ => True | _ => False end.
(** * The aarch64 entry-point patcher ([arch/arch_aarch64.c]) *)

Module Aarch64.

(** [sizeof patch]: two instructions and an 8-byte address literal. *)
Definition PATCH_SIZE : nat := 16.

(** The initial contents of the static [patch] array:
    [ldr x1, 8], [blr x1], then the literal to be filled in. *)
Definition patch_init : bytes :=
  [ 0x41; 0x00; 0x00; 0x58;
    0x20; 0x00; 0x3f; 0xd6;
    0x00; 0x00; 0x00; 0x00; 0x00; 0x00; 0x00; 0x00 ].

(** The three file-scope objects and the addressable memory the patcher
    writes through [start].  The static arrays are objects of their own:
    they do not overlap the region at [start] (as [memcpy] requires). *)
Record state := {
  arch_addr_start : Z;
  patch : bytes;
  bck_start : bytes;
  mem : Z -> Z
}.

Definition initial (m : Z -> Z) : state :=
  {| arch_addr_start := 0; patch := patch_init;
     bck_start := replicate PATCH_SIZE 0; mem := m |}.

(** [memcpy(dst_array, (void * )addr, n)]: read [n] bytes of memory. *)
Definition memcpy_from (m : Z -> Z) (addr : Z) (n : nat) : bytes :=
  map (fun i => m (addr + Z.of_nat i)) (seq 0 n).

(** [memcpy((void * )addr, src_array, n)]: write [n] bytes of memory. *)
Definition memcpy_to (m : Z -> Z) (addr : Z) (src : bytes) (n : nat) : Z -> Z :=
  fun a =>
    if (addr <=? a) && (a <? addr + Z.of_nat n)
    then nth (Z.to_nat (a - addr)) src 0
    else m a.

(** [u_addr.val[i]]: byte [i] of the 64-bit address in the byte order of
    the target (little-endian). *)
Definition u_addr_val (addr : Z) (i : nat) : Z :=
  to_uint8 (Z.shiftr addr (8 * Z.of_nat i)).

(** The loop [for (i = 0; i < 8; i++) patch[8 + i] = u_addr.val[i]]. *)
Definition fill_literal (p : bytes) (addr : Z) : bytes :=
  fold_left (fun acc i => <[(8 + i)%nat := u_addr_val addr i]> acc) (seq 0 8) p.

(** [arch_patch_start(start)]; [hook] is the address of
    [arch_pre_daemon_main].  Returns the new state and the result [0]. *)
Definition arch_patch_start (hook : Z) (s : state) (start : Z) : state * Z :=
  let bck := memcpy_from (mem s) start PATCH_SIZE in
  let p := fill_literal (patch s) hook in
  ({| arch_addr_start := start;
      patch := p;
      bck_start := bck;
      mem := memcpy_to (mem s) start p PATCH_SIZE |}, 0).

(** [arch_restore_start()]: returns the new state and
    [sizeof bck_start - 8]. *)
Definition arch_restore_start (s : state) : state * Z :=
  ({| arch_addr_start := arch_addr_start s;
      patch := patch s;
      bck_start := bck_start s;
      mem := memcpy_to (mem s) (arch_addr_start s) (bck_start s) PATCH_SIZE |},
   Z.of_nat PATCH_SIZE - 8).

End Aarch64.
(** ** Vocabulary for the patcher *)

(** The value of an 8-byte literal as the processor loads it: least
    significant byte first. *)
Definition le_value (bs : bytes) : Z :=
  fold_right (fun b acc => b + 256 * acc) 0 bs.

(** The two instructions of the trampoline. *)
Definition trampoline_code : bytes :=
  [0x41; 0x00; 0x00; 0x58; 0x20; 0x00; 0x3f; 0xd6].

(** The states the patcher can be in: the initial one, and what any
    sequence of calls makes of it. *)
Inductive reachable : Aarch64.state -> Prop :=
| reach_initial m : reachable (Aarch64.initial m)
| reach_patch hook s start :
    reachable s -> reachable (fst (Aarch64.arch_patch_start hook s start))
| reach_restore s :
    reachable s -> reachable (fst (Aarch64.arch_restore_start s)).

(** Addresses outside the 16 bytes at [start]. *)
Definition outside (start a : Z) : Prop :=
  a < start \/ start + Z.of_nat Aarch64.PATCH_SIZE <= a.
(** * Part 2: properties *)

(** ** The codec *)

Lemma to_uint8_range z : is_byte (to_uint8 z).
Proof. unfold is_byte, to_uint8. apply Z.mod_pos_bound. lia. Qed.

Lemma to_uint8_small z : is_byte z -> to_uint8 z = z.
Proof. unfold is_byte, to_uint8. intros H. apply Z.mod_small. lia. Qed.

Lemma to_int32_small v : is_int32 v -> to_int32 v = v.
Proof.
  unfold is_int32, INT_MIN, INT_MAX, to_int32. intros H.
  rewrite Z.mod_small by lia. lia.
Qed.

Lemma to_int32_mod v : to_int32 (v mod 2 ^ 32) = to_int32 v.
Proof.
  unfold to_int32. rewrite Z.add_mod_idemp_l by lia. reflexivity.
Qed.

Lemma to_int32_range v : is_int32 (to_int32 v).
Proof.
  unfold is_int32, INT_MIN, INT_MAX, to_int32.
  pose proof (Z.mod_pos_bound (v + 2 ^ 31) (2 ^ 32)). lia.
Qed.

(** Bytes occupying disjoint bit ranges: the or of the shifted bytes is the
    positional sum. *)
Lemma lor_shiftl_bytes b0 b1 b2 b3 :
  is_byte b0 -> is_byte b1 -> is_byte b2 -> is_byte b3 ->
  Z.lor (Z.lor (Z.lor (Z.shiftl b3 0) (Z.shiftl b2 8)) (Z.shiftl b1 16))
        (Z.shiftl b0 24)
  = b0 * 2 ^ 24 + b1 * 2 ^ 16 + b2 * 2 ^ 8 + b3.
Proof.
  unfold is_byte. intros H0 H1 H2 H3.
  rewrite Z.shiftl_0_r, !Z.shiftl_mul_pow2 by lia.
  assert (Hland : forall a b k, 0 <= k -> 0 <= a < 2 ^ k ->
                    Z.land a (b * 2 ^ k) = 0).
  { intros a b k Hk Ha.
    apply Z.bits_inj'; intros n Hn. rewrite Z.land_spec, Z.bits_0.
    destruct (Z.lt_ge_cases n k) as [Hlt|Hge].
    - rewrite Z.mul_pow2_bits_low by lia. apply andb_false_r.
    - replace a with (a mod 2 ^ k) by (apply Z.mod_small; lia).
      rewrite Z.mod_pow2_bits_high by lia. reflexivity. }
  assert (Hdisj : forall a b k, 0 <= k -> 0 <= a < 2 ^ k ->
                    Z.lor a (b * 2 ^ k) = b * 2 ^ k + a).
  { intros a b k Hk Ha.
    rewrite <- Z.lxor_lor by (apply Hland; lia).
    rewrite <- Z.add_nocarry_lxor by (apply Hland; lia). lia. }
  rewrite (Hdisj b3 b2 8) by lia.
  rewrite (Hdisj (b2 * 2 ^ 8 + b3) b1 16) by lia.
  rewrite (Hdisj (b1 * 2 ^ 16 + (b2 * 2 ^ 8 + b3)) b0 24) by lia.
  lia.
Qed.

Lemma msg_to_int32_be_value b0 b1 b2 b3 :
  is_byte b0 -> is_byte b1 -> is_byte b2 -> is_byte b3 ->
  msg_to_int32 [b0; b1; b2; b3] = to_int32 (be_value [b0; b1; b2; b3]).
Proof.
  intros H0 H1 H2 H3. unfold msg_to_int32, byte_at, be_value. cbn [nth].
  rewrite !to_uint8_small by assumption.
  rewrite lor_shiftl_bytes by assumption. reflexivity.
Qed.

(** The four stored bytes are the base-256 digits of [msg mod 2^32]. *)
Lemma int32_to_msg_be_value msg :
  be_value (int32_to_msg msg) = msg mod 2 ^ 32.
Proof.
  unfold be_value, int32_to_msg, to_uint8. cbn [nth].
  rewrite Z.shiftr_0_r, !Z.shiftr_div_pow2 by lia.
  change (2 ^ 32) with (2 ^ 8 * (2 ^ 8 * (2 ^ 8 * 2 ^ 8))).
  rewrite !Z.rem_mul_r by lia.
  change (2 ^ 24) with (2 ^ 8 * 2 ^ 8 * 2 ^ 8).
  change (2 ^ 16) with (2 ^ 8 * 2 ^ 8).
  rewrite <- !Z.div_div by lia.
  lia.
Qed.

Lemma int32_to_msg_bytes msg : Forall is_byte (int32_to_msg msg).
Proof. unfold int32_to_msg. repeat constructor; apply to_uint8_range. Qed.

Lemma int32_to_msg_length msg : length (int32_to_msg msg) = 4%nat.
Proof. reflexivity. Qed.

(** C5: encoding is a total function that produces exactly four bytes, most
    significant first, and for every [int32] value [v] (from [INT32_MIN] to
    [INT32_MAX], so in particular [INT32_MIN], [INT32_MAX], [0] and [-1])
    decoding the encoding of [v] gives [v] back. *)
Theorem codec_roundtrip (v : Z) :
  INT_MIN <= v <= INT_MAX ->
  length (int32_to_msg v) = 4%nat /\
  Forall is_byte (int32_to_msg v) /\
  be_value (int32_to_msg v) = v mod 2 ^ 32 /\
  msg_to_int32 (int32_to_msg v) = v.
Proof.
  intros Hv. split; [reflexivity|]. split; [apply int32_to_msg_bytes|].
  split; [apply int32_to_msg_be_value|].
  pose proof (int32_to_msg_be_value v) as Hbe.
  unfold int32_to_msg in *.
  rewrite msg_to_int32_be_value by apply to_uint8_range.
  rewrite Hbe, to_int32_mod. apply to_int32_small. exact Hv.
Qed.

Lemma codec_roundtrip_witness :
  (INT_MIN <= INT_MIN <= INT_MAX) /\
  msg_to_int32 (int32_to_msg INT_MIN) = INT_MIN.
Proof.
  assert (H : INT_MIN <= INT_MIN <= INT_MAX) by (unfold INT_MIN, INT_MAX; lia).
  split; [exact H|]. apply (codec_roundtrip INT_MIN H).
Defined.

(** ** C strings *)

Lemma c_str_nul_free s : nul_free (c_str s).
Proof.
  induction s as [|b s IH]; cbn [c_str]; [constructor|].
  destruct (Z.eqb_spec b 0); [constructor|]. constructor; assumption.
Qed.

Lemma c_str_id s : nul_free s -> c_str s = s.
Proof.
  induction 1 as [|b s Hb _ IH]; cbn [c_str]; [reflexivity|].
  destruct (Z.eqb_spec b 0); [contradiction|]. rewrite IH. reflexivity.
Qed.

Lemma c_str_idem s : c_str (c_str s) = c_str s.
Proof. apply c_str_id, c_str_nul_free. Qed.

(** Reading a string back from a buffer: the terminator stops the scan. *)
Lemma c_str_app_nul s rest : c_str (c_str s ++ 0 :: rest) = c_str s.
Proof.
  induction s as [|b s IH]; cbn [c_str app]; [reflexivity|].
  destruct (Z.eqb_spec b 0) as [->|Hb]; [reflexivity|].
  cbn [c_str app]. destruct (Z.eqb_spec b 0); [contradiction|].
  rewrite IH. reflexivity.
Qed.

Lemma strlen_nul_free s : nul_free s -> strlen s = Z.of_nat (length s).
Proof. intros H. unfold strlen. rewrite c_str_id by assumption. reflexivity. Qed.

(** [strcmp] is zero exactly when the two strings are byte-for-byte equal. *)
Lemma strcmp_zero_iff a b : strcmp a b = 0 <-> c_str a = c_str b.
Proof.
  revert b. induction a as [|x a IH]; intros [|y b]; cbn [strcmp c_str].
  - tauto.
  - destruct (Z.eqb_spec y 0); split; intros H; try lia; try reflexivity;
      discriminate.
  - destruct (Z.eqb_spec x 0); split; intros H; try lia; try reflexivity;
      discriminate.
  - destruct (Z.eqb_spec x y) as [->|Hxy].
    + destruct (Z.eqb_spec y 0); [tauto|].
      rewrite IH. split; [intros ->; reflexivity|intros H; congruence].
    + destruct (Z.eqb_spec x 0) as [->|Hx], (Z.eqb_spec y 0) as [->|Hy];
        split; intros H; try lia; try discriminate; congruence.
Qed.

Lemma strcmp_literal a (lit : bytes) :
  nul_free lit -> (strcmp a lit =? 0) = false <-> c_str a <> lit.
Proof.
  intros Hlit. rewrite Z.eqb_neq, strcmp_zero_iff, (c_str_id lit) by assumption.
  reflexivity.
Qed.

Lemma nul_free_str_client : nul_free (str "client").
Proof. repeat constructor; discriminate. Qed.

Lemma nul_free_str_dot_client : nul_free (str "./" ++ PRG_NAME).
Proof. repeat constructor; discriminate. Qed.

(** ** Argument parsing *)

(** Under the canonical name the [-p] option is consumed together with its
    value; the port is the validated value. *)
Example parse_args_canonical_port :
  parse_args 5 [str "./client"; str "-p"; str "4000"; str "echo"; str "hello"]
  = (Return (2, [str "echo"; str "hello"], 4000), []).
Proof. reflexivity. Qed.

Example parse_args_bad_port :
  parse_args 5 [str "client"; str "-p"; str "70000"; str "echo"; str "hi"]
  = (Exit EXIT_FAILURE,
     [EvStderr (MsgInvalidPort (str "70000")); EvStderr (MsgUsage (str "client"))]).
Proof. reflexivity. Qed.

(** C10, as the code has it.  When the invocation name is neither
    ["client"] nor ["./client"] and at least one argument follows it,
    nothing is consumed: the port is the default 3636 and the whole
    argument vector, invocation name first and any ["-p"] included, is
    handed on unchanged, without any diagnostic.  When no argument follows
    the invocation name, whatever that name is, nothing is handed on: the
    usage text is printed and the process exits with a failure status. *)
Theorem parse_args_other_name (argc : Z) (argv : list bytes) :
  (2 <= argc ->
   c_str (arg argv 0) <> str "client" ->
   c_str (arg argv 0) <> str "./client" ->
   parse_args argc argv = (Return (argc, argv, 3636), [])) /\
  (argc < 2 ->
   parse_args argc argv
   = (Exit EXIT_FAILURE, [EvStderr (MsgUsage (arg argv 0))])).
Proof.
  split.
  - intros Hargc Hn1 Hn2. unfold parse_args.
    destruct (Z.ltb_spec argc 2); [lia|].
    apply (strcmp_literal _ _ nul_free_str_client) in Hn1.
    apply (strcmp_literal _ _ nul_free_str_dot_client) in Hn2.
    unfold PRG_NAME in *. rewrite Hn1, Hn2. reflexivity.
  - intros Hargc. unfold parse_args, usage.
    destruct (Z.ltb_spec argc 2); [reflexivity|lia].
Qed.

Lemma parse_args_other_name_witness :
  let argv := [str "/usr/bin/client"; str "-p"; str "4000"; str "echo"] in
  parse_args 4 argv = (Return (4, argv, 3636), []) /\
  parse_args 1 [str "client"]
  = (Exit EXIT_FAILURE, [EvStderr (MsgUsage (str "client"))]).
Proof.
  intros argv. split.
  - apply (proj1 (parse_args_other_name 4 argv)).
    + lia.
    + discriminate.
    + discriminate.
  - apply (proj2 (parse_args_other_name 1 [str "client"])). lia.
Defined.

(** C10 as stated fails when nothing follows the invocation name: the
    vector is not handed on, the usage text is printed and the process
    exits with a failure status. *)
Lemma parse_args_other_name_counterexample :
  let argv := [str "/usr/bin/client"] in
  c_str (arg argv 0) <> str "client" /\
  c_str (arg argv 0) <> str "./client" /\
  parse_args (Z.of_nat (length argv)) argv
    = (Exit EXIT_FAILURE, [EvStderr (MsgUsage (str "/usr/bin/client"))]) /\
  parse_args (Z.of_nat (length argv)) argv
    <> (Return (Z.of_nat (length argv), argv, SV_DEFAULT_PORT), []).
Proof.
  cbv zeta. split; [discriminate|]. split; [discriminate|].
  split; [reflexivity|discriminate].
Qed.
(** ** The send loop *)

Lemma bind_emit {A} (e : event) (k : prog A) :
  (emit e ;;; k) = (fst k, e :: snd k).
Proof. unfold bind, emit. destruct k as [o t]. reflexivity. Qed.

Lemma offered_length buf p len :
  0 <= p -> 0 <= len -> p + len <= Z.of_nat (length buf) ->
  Z.of_nat (length (offered buf p len)) = len.
Proof.
  intros Hp Hlen Hfit. unfold offered.
  rewrite length_take, length_drop. lia.
Qed.

(** Accepting [r] bytes of the offer leaves the rest of the offer. *)
Lemma offered_split buf p len r :
  0 <= p -> 0 <= r <= len ->
  offered buf p len = take (Z.to_nat r) (offered buf p len) ++ offered buf (p + r) (len - r).
Proof.
  intros Hp Hr. unfold offered.
  rewrite take_take, Nat.min_l by lia.
  replace (Z.to_nat (p + r)) with (Z.to_nat p + Z.to_nat r)%nat by lia.
  rewrite <- drop_drop, take_take_drop.
  f_equal. lia.
Qed.

Lemma transmitted_app sock t1 t2 :
  transmitted sock (t1 ++ t2) = transmitted sock t1 ++ transmitted sock t2.
Proof.
  induction t1 as [|e t1 IH]; [reflexivity|].
  destruct e; cbn [transmitted app]; rewrite IH; try reflexivity.
  apply app_assoc.
Qed.

(** What a run of the loop can be: either every offered byte went out and
    it returns 0, or a [send] failed and it returns -1, or a [send] never
    returned. *)
Lemma send_loop_spec answers : forall conn buf p len,
  0 <= p -> 0 <= len -> p + len <= Z.of_nat (length buf) -> len < 2 ^ 64 ->
  Forall send_contract (snd (send_loop conn buf p len answers)) ->
  (fst (send_loop conn buf p len answers) = Return 0 /\
   transmitted conn (snd (send_loop conn buf p len answers)) = offered buf p len) \/
  (fst (send_loop conn buf p len answers) = Return (-1) /\
   exists t off, snd (send_loop conn buf p len answers) = t ++ [EvSend conn off (-1)]) \/
  fst (send_loop conn buf p len answers) = Blocked.
Proof.
  induction answers as [|r answers IH]; intros conn buf p len Hp Hlen Hfit Hsz Hc;
    cbn [send_loop] in *.
  - destruct (Z.eqb_spec len 0) as [->|Hne]; [|right; right; reflexivity].
    left. split; [reflexivity|]. unfold offered. cbn [Z.to_nat]. simpl.
    rewrite take_0. reflexivity.
  - destruct (Z.eqb_spec len 0) as [->|Hne].
    { left. split; [reflexivity|]. unfold offered. simpl. rewrite take_0. reflexivity. }
    rewrite bind_emit in *. cbn [fst snd] in *.
    apply Forall_cons in Hc as [Hr Hc]. cbn [send_contract] in Hr.
    rewrite offered_length in Hr by lia.
    destruct (Z.eqb_spec r (-1)) as [->|Hr1].
    { right; left. split; [reflexivity|]. exists [], (offered buf p len). reflexivity. }
    destruct Hr as [Hr|Hr]; [contradiction|].
    assert (Hlen' : to_size_t (len - r) = len - r)
      by (unfold to_size_t; apply Z.mod_small; lia).
    rewrite Hlen' in *.
    destruct (IH conn buf (p + r) (len - r)) as [[Ho Ht]|[[Ho (t & off & Ht)]|Ho]];
      try lia; try assumption.
    + left. split; [assumption|]. cbn [transmitted].
      rewrite Z.eqb_refl. destruct (Z.leb_spec 0 r); [|lia]. cbn [andb].
      rewrite Ht. symmetry. apply offered_split; lia.
    + right; left. split; [assumption|].
      exists (EvSend conn (offered buf p len) r :: t), off. rewrite Ht. reflexivity.
    + right; right. assumption.
Qed.

(** Progress: when every [send] accepts at least one byte, [len] answers
    are enough for the loop to finish with success. *)
Lemma send_loop_progress answers : forall conn buf p len,
  0 <= len < 2 ^ 64 ->
  Forall (fun r => 0 < r) answers ->
  Forall send_contract (snd (send_loop conn buf p len answers)) ->
  0 <= p -> p + len <= Z.of_nat (length buf) ->
  len <= Z.of_nat (length answers) ->
  fst (send_loop conn buf p len answers) = Return 0.
Proof.
  induction answers as [|r answers IH]; intros conn buf p len Hlen Hpos Hc Hp Hfit Hn;
    cbn [send_loop] in *.
  - cbn [length] in Hn. replace len with 0 by lia. reflexivity.
  - destruct (Z.eqb_spec len 0) as [->|Hne]; [reflexivity|].
    rewrite bind_emit in *. cbn [fst snd] in *.
    apply Forall_cons in Hpos as [Hr0 Hpos].
    apply Forall_cons in Hc as [Hr Hc]. cbn [send_contract] in Hr.
    rewrite offered_length in Hr by lia.
    destruct (Z.eqb_spec r (-1)); [lia|].
    assert (Hlen' : to_size_t (len - r) = len - r)
      by (unfold to_size_t; apply Z.mod_small; lia).
    rewrite Hlen' in *.
    apply IH; try assumption; try lia. cbn [length] in Hn. lia.
Qed.

(** C8: under the contract of [send], for every buffer and length
    [send_all] ends in one of three ways: it returns 0 and the bytes put on
    the wire are exactly the [len] bytes of the buffer (however the kernel
    split them into partial writes); or it returns -1; or a [send] never
    returns.  It never returns success after sending only a part.  And
    partial writes are retried: if every [send] accepts at least one
    byte, it does return 0. *)
Theorem send_all_all_or_nothing (conn : Z) (buf : bytes) (len : Z) (answers : list Z) :
  0 <= len <= Z.of_nat (length buf) ->
  len < 2 ^ 64 ->
  Forall send_contract (snd (send_all conn buf len answers)) ->
  ((fst (send_all conn buf len answers) = Return 0 /\
    transmitted conn (snd (send_all conn buf len answers)) = take (Z.to_nat len) buf) \/
   fst (send_all conn buf len answers) = Return (-1) \/
   fst (send_all conn buf len answers) = Blocked) /\
  (0 <= conn -> Forall (fun r => 0 < r) answers -> len <= Z.of_nat (length answers) ->
   fst (send_all conn buf len answers) = Return 0).
Proof.
  intros Hlen Hsz Hc. unfold send_all in *.
  destruct (Z.ltb_spec conn 0) as [Hneg|Hconn].
  - split; [right; left; reflexivity|lia].
  - split.
    + destruct (send_loop_spec answers conn buf 0 len) as [[Ho Ht]|[[Ho _]|Ho]];
        try lia; try assumption.
      * left. split; [assumption|]. rewrite Ht. unfold offered.
        cbn [Z.to_nat]. rewrite drop_0. reflexivity.
      * right; left. assumption.
      * right; right. assumption.
    + intros _ Hpos Hn. apply send_loop_progress; try assumption; lia.
Qed.

Lemma send_all_all_or_nothing_witness :
  let buf := str "hello" in
  let run := send_all 3 buf 5 [2; 3] in
  fst run = Return 0 /\ transmitted 3 (snd run) = buf.
Proof.
  cbv zeta.
  assert (Hlen : 0 <= 5 <= Z.of_nat (length (str "hello"))) by (simpl; lia).
  assert (Hsz : 5 < 2 ^ 64) by lia.
  assert (Hc : Forall send_contract (snd (send_all 3 (str "hello") 5 [2; 3])))
    by (repeat constructor; simpl; lia).
  pose proof (send_all_all_or_nothing 3 (str "hello") 5 [2; 3] Hlen Hsz Hc) as [H _].
  destruct H as [H|[H|H]]; [exact H|discriminate H|discriminate H].
Defined.
(** ** The argument marshaller *)

Lemma strlen_nonneg s : 0 <= strlen s.
Proof. unfold strlen. lia. Qed.

Lemma sum_strlen_nonneg args : 0 <= sum_strlen args.
Proof.
  induction args as [|a args IH]; cbn [sum_strlen fold_right]; [lia|].
  fold (sum_strlen args). pose proof (strlen_nonneg a). lia.
Qed.

Lemma nul_terminated_cons f fs :
  nul_terminated (f :: fs) = f ++ [0] ++ nul_terminated fs.
Proof. unfold nul_terminated. cbn [map concat]. rewrite <- app_assoc. reflexivity. Qed.

Lemma nul_terminated_length args :
  Z.of_nat (length (nul_terminated (map c_str args)))
  = sum_strlen args + Z.of_nat (length args).
Proof.
  induction args as [|a args IH]; [reflexivity|].
  cbn [map]. rewrite nul_terminated_cons, !length_app.
  cbn [sum_strlen fold_right length]. fold (sum_strlen args).
  unfold strlen. lia.
Qed.

Lemma to_uint32_small z : 0 <= z < 2 ^ 32 -> to_uint32 z = z.
Proof. intros H. unfold to_uint32. apply Z.mod_small. exact H. Qed.

Lemma add_lengths_no_wrap args : forall amnt,
  0 <= amnt -> amnt + sum_strlen args < 2 ^ 32 ->
  add_lengths amnt args = amnt + sum_strlen args.
Proof.
  unfold add_lengths.
  induction args as [|a args IH]; intros amnt Hge Hlt;
    cbn [fold_left sum_strlen fold_right] in *; [lia|].
  fold (sum_strlen args) in *.
  pose proof (strlen_nonneg a). pose proof (sum_strlen_nonneg args).
  rewrite (to_uint32_small (strlen a)) by lia.
  rewrite (to_uint32_small (amnt + strlen a)) by lia.
  rewrite IH by lia. lia.
Qed.

(** Copying a string to the end of what has been written so far, into a
    tail that is long enough. *)
Lemma strcpy_at_end w z a :
  (length (c_str a) + 1 <= length z)%nat ->
  strcpy (w ++ z) (length w) a
  = Some ((w ++ c_str a ++ [0]) ++ drop (length (c_str a) + 1) z).
Proof.
  intros Hfit. unfold strcpy. cbv zeta.
  rewrite !length_app. cbn [length].
  destruct (Nat.leb_spec (length w + (length (c_str a) + 1)) (length w + length z));
    [|lia].
  rewrite take_app_length, drop_app_add. rewrite <- !app_assoc. reflexivity.
Qed.

Lemma copy_args_at_end args : forall w z,
  (length (nul_terminated (map c_str args)) <= length z)%nat ->
  copy_args (w ++ z) (length w) args
  = Some ((w ++ nul_terminated (map c_str args))
            ++ drop (length (nul_terminated (map c_str args))) z).
Proof.
  induction args as [|a args IH]; intros w z Hfit.
  - cbn [copy_args map]. unfold nul_terminated. cbn [map concat length].
    rewrite drop_0, app_nil_r. reflexivity.
  - cbn [map] in *. rewrite nul_terminated_cons in *.
    rewrite !length_app in Hfit. cbn [length] in Hfit.
    cbn [copy_args]. rewrite strcpy_at_end by lia.
    rewrite <- (app_assoc w), drop_app_length.
    rewrite <- app_assoc. cbn [app]. unfold strlen at 1.
    rewrite c_str_app_nul, Nat2Z.id.
    replace (length w + length (c_str a) + 1)%nat
      with (length (w ++ c_str a ++ [0]))
      by (rewrite !length_app; cbn [length]; lia).
    replace (w ++ c_str a ++ 0 :: drop (length (c_str a) + 1) z)
      with ((w ++ c_str a ++ [0]) ++ drop (length (c_str a) + 1) z)
      by (rewrite <- !app_assoc; reflexivity).
    rewrite IH by (rewrite length_drop; lia).
    rewrite drop_drop, <- !app_assoc. cbn [app].
    replace (length (c_str a ++ 0 :: nul_terminated (map c_str args)))
      with (length (c_str a) + 1 + length (nul_terminated (map c_str args)))%nat
      by (rewrite length_app; cbn [length]; lia).
    reflexivity.
Qed.

(** The marshaller on well-sized input: what it stores and returns. *)
Lemma prepare_data_ok (cwd : bytes) (argv : list bytes) :
  payload_length cwd argv + 1 < 2 ^ 32 ->
  prepare_data (Some cwd) true (Z.of_nat (length argv)) argv
  = Some ({| rd_argc := int32_to_msg (to_int32 (Z.of_nat (length argv)));
             rd_amt_bytes := int32_to_msg (to_int32 (payload_length cwd argv));
             rd_cwd_argv := nul_terminated (map c_str (cwd :: argv)) ++ [0] |},
          payload_length cwd argv).
Proof.
  intros Hfit. unfold payload_length in *.
  pose proof (strlen_nonneg cwd) as Hcwd.
  pose proof (sum_strlen_nonneg argv) as Hsum.
  unfold prepare_data. cbv zeta. rewrite Nat2Z.id, firstn_all.
  rewrite (to_uint32_small (strlen cwd)) by lia.
  rewrite add_lengths_no_wrap by lia.
  rewrite (to_uint32_small (strlen cwd + sum_strlen argv + _)) by lia.
  set (total := strlen cwd + sum_strlen argv + (Z.of_nat (length argv) + 1)).
  replace (strlen cwd + sum_strlen argv + Z.of_nat (length argv) + 1) with total
    by (unfold total; lia).
  cbn [negb]. rewrite (to_uint32_small (total + 1)) by (unfold total; lia).
  unfold calloc.
  pose proof (nul_terminated_length argv) as Hlen.
  assert (Hcopy : strcpy (replicate (Z.to_nat (total + 1)) 0) 0 cwd
                  = Some (([] ++ c_str cwd ++ [0])
                            ++ drop (length (c_str cwd) + 1)
                                 (replicate (Z.to_nat (total + 1)) 0))).
  { apply (strcpy_at_end [] (replicate (Z.to_nat (total + 1)) 0) cwd).
    rewrite length_replicate. unfold total, strlen in *. lia. }
  rewrite Hcopy. cbn [app].
  rewrite <- app_assoc. cbn [app]. unfold strlen at 1.
  rewrite c_str_app_nul, Nat2Z.id.
  set (tail := drop (length (c_str cwd) + 1) (replicate (Z.to_nat (total + 1)) 0)).
  assert (Htail : tail = replicate (Z.to_nat (total + 1) - (length (c_str cwd) + 1)) 0)
    by apply drop_replicate.
  replace (c_str cwd ++ 0 :: tail) with ((c_str cwd ++ [0]) ++ tail)
    by (rewrite <- app_assoc; reflexivity).
  replace (length (c_str cwd) + 1)%nat with (length (c_str cwd ++ [0]))
    by (rewrite length_app; reflexivity).
  rewrite copy_args_at_end
    by (rewrite Htail, length_replicate; unfold total, strlen in *; lia).
  rewrite Htail, drop_replicate.
  replace (Z.to_nat (total + 1) - (length (c_str cwd) + 1)
           - length (nul_terminated (map c_str argv)))%nat
    with 1%nat by (unfold total, strlen in *; lia).
  cbn [map]. rewrite nul_terminated_cons. cbn [replicate].
  rewrite <- !app_assoc. reflexivity.
Qed.

Lemma to_int32_mod_uint32 z : to_int32 z mod 2 ^ 32 = z mod 2 ^ 32.
Proof.
  unfold to_int32. rewrite Zminus_mod_idemp_l. f_equal. lia.
Qed.

Lemma be_value_int32_to_msg z :
  0 <= z < 2 ^ 32 -> be_value (int32_to_msg (to_int32 z)) = z.
Proof.
  intros Hz. rewrite int32_to_msg_be_value, to_int32_mod_uint32.
  apply Z.mod_small. exact Hz.
Qed.

Lemma map_c_str_id args : Forall nul_free args -> map c_str args = args.
Proof.
  induction 1 as [|a args Ha _ IH]; cbn [map]; [reflexivity|].
  rewrite c_str_id, IH by assumption. reflexivity.
Qed.

Lemma sum_strlen_concat args :
  Forall nul_free args -> sum_strlen args = Z.of_nat (length (concat args)).
Proof.
  induction 1 as [|a args Ha _ IH]; cbn [sum_strlen fold_right concat];
    [reflexivity|].
  fold (sum_strlen args). rewrite IH, length_app, strlen_nul_free by assumption.
  lia.
Qed.

Lemma payload_length_nul_free cwd argv :
  nul_free cwd -> Forall nul_free argv ->
  payload_length cwd argv
  = Z.of_nat (length cwd) + Z.of_nat (length (concat argv))
    + Z.of_nat (length argv) + 1.
Proof.
  intros Hcwd Hargv. unfold payload_length.
  rewrite strlen_nul_free, sum_strlen_concat by assumption. reflexivity.
Qed.

Lemma payload_length_payload cwd argv :
  Z.of_nat (length (nul_terminated (map c_str (cwd :: argv))))
  = payload_length cwd argv.
Proof.
  rewrite nul_terminated_length. unfold payload_length.
  cbn [sum_strlen fold_right length]. fold (sum_strlen argv). lia.
Qed.

(** The payload that goes on the wire: the first [amnt] bytes of the
    buffer. *)
Lemma prepare_data_payload cwd argv :
  take (Z.to_nat (payload_length cwd argv))
       (nul_terminated (map c_str (cwd :: argv)) ++ [0])
  = nul_terminated (map c_str (cwd :: argv)).
Proof.
  rewrite <- payload_length_payload, Nat2Z.id. apply take_app_length.
Qed.

(** C6: for every working directory and argument list without embedded NUL
    bytes whose marshalled size fits the 32-bit length field, the payload
    is exactly cwd, NUL, arg_0, NUL, ..., arg_{n-1}, NUL, with nothing in
    between, and the declared length (the returned value and the four
    big-endian bytes of [amt_bytes]) is
    len(cwd) + the sum of len(arg_i) + n + 1; the argument count is sent as
    n.  In the scenario [client -p 4000 echo hello] run in [/tmp], the
    argument count is 2, the payload is ["/tmp\0echo\0hello\0"] and the
    payload length is 16. *)
Theorem marshal_payload :
  (forall (cwd : bytes) (argv : list bytes),
     nul_free cwd -> Forall nul_free argv ->
     let n := Z.of_nat (length argv) in
     let total := Z.of_nat (length cwd) + Z.of_nat (length (concat argv)) + n + 1 in
     total + 1 < 2 ^ 32 ->
     exists rd,
       prepare_data (Some cwd) true n argv = Some (rd, total) /\
       take (Z.to_nat total) (rd_cwd_argv rd) = cwd ++ [0] ++ nul_terminated argv /\
       be_value (rd_amt_bytes rd) = total /\
       be_value (rd_argc rd) = n) /\
  (let argv := [str "client"; str "-p"; str "4000"; str "echo"; str "hello"] in
   parse_args (Z.of_nat (length argv)) argv
     = (Return (2, [str "echo"; str "hello"], 4000), []) /\
   prepare_data (Some (str "/tmp")) true 2 [str "echo"; str "hello"]
     = Some ({| rd_argc := [0; 0; 0; 2];
                rd_amt_bytes := [0; 0; 0; 16];
                rd_cwd_argv :=
                  (str "/tmp" ++ [0] ++ str "echo" ++ [0] ++ str "hello" ++ [0])
                    ++ [0] |}, 16)).
Proof.
  split; [|split; reflexivity].
  intros cwd argv Hcwd Hargv n total Hfit. subst n total.
  rewrite <- payload_length_nul_free in * by assumption.
  pose proof (sum_strlen_nonneg argv) as Hsum.
  pose proof (strlen_nonneg cwd) as Hlen.
  eexists. split; [apply prepare_data_ok; exact Hfit|].
  cbn [rd_cwd_argv rd_amt_bytes rd_argc].
  split; [|split].
  - rewrite prepare_data_payload. cbn [map].
    rewrite nul_terminated_cons, c_str_id, map_c_str_id by assumption.
    reflexivity.
  - apply be_value_int32_to_msg. unfold payload_length in *. lia.
  - apply be_value_int32_to_msg. unfold payload_length in *. lia.
Qed.

Lemma marshal_payload_witness :
  exists rd,
    prepare_data (Some (str "/")) true 1 [str "ls"] = Some (rd, 5) /\
    take 5 (rd_cwd_argv rd) = str "/" ++ [0] ++ str "ls" ++ [0].
Proof.
  assert (Hcwd : nul_free (str "/")) by (repeat constructor; discriminate).
  assert (Hargv : Forall nul_free [str "ls"]) by (repeat constructor; discriminate).
  assert (Hfit : 1 + 2 + 1 + 1 + 1 < 2 ^ 32) by lia.
  destruct (proj1 marshal_payload (str "/") [str "ls"] Hcwd Hargv Hfit)
    as (rd & Hrd & Hpay & _).
  exists rd. split; [exact Hrd|exact Hpay].
Defined.

(** Splitting at the NUL delimiters undoes the concatenation of
    NUL-terminated fields. *)
Lemma split_nul_aux_field f : forall cur rest,
  nul_free f ->
  split_nul_aux cur (f ++ 0 :: rest) = (rev cur ++ f) :: split_nul_aux [] rest.
Proof.
  induction f as [|b f IH]; intros cur rest Hf; cbn [app split_nul_aux].
  - rewrite app_nil_r. reflexivity.
  - apply Forall_cons in Hf as [Hb Hf].
    destruct (Z.eqb_spec b 0); [contradiction|].
    rewrite IH by assumption. cbn [rev]. rewrite <- app_assoc. reflexivity.
Qed.

Lemma split_nul_nul_terminated fields :
  Forall nul_free fields -> split_nul (nul_terminated fields) = fields.
Proof.
  unfold split_nul.
  induction 1 as [|f fields Hf _ IH]; [reflexivity|].
  rewrite nul_terminated_cons. cbn [app].
  rewrite split_nul_aux_field by assumption. rewrite IH. reflexivity.
Qed.

(** C7: for every working directory and argument list without embedded NUL
    bytes (whose marshalled size fits the 32-bit length field), splitting
    the marshalled payload at its NUL delimiters gives back the working
    directory followed by the arguments, in order. *)
Theorem marshal_roundtrip (cwd : bytes) (argv : list bytes) :
  nul_free cwd -> Forall nul_free argv ->
  payload_length cwd argv + 1 < 2 ^ 32 ->
  exists rd amnt,
    prepare_data (Some cwd) true (Z.of_nat (length argv)) argv = Some (rd, amnt) /\
    split_nul (take (Z.to_nat amnt) (rd_cwd_argv rd)) = cwd :: argv.
Proof.
  intros Hcwd Hargv Hfit.
  eexists. eexists. split; [apply prepare_data_ok; exact Hfit|].
  cbn [rd_cwd_argv]. rewrite prepare_data_payload.
  rewrite map_c_str_id by (constructor; assumption).
  apply split_nul_nul_terminated. constructor; assumption.
Qed.

Lemma marshal_roundtrip_witness :
  exists rd amnt,
    prepare_data (Some (str "/tmp")) true 2 [str "echo"; str "hello"]
      = Some (rd, amnt) /\
    split_nul (take (Z.to_nat amnt) (rd_cwd_argv rd))
      = [str "/tmp"; str "echo"; str "hello"].
Proof.
  apply (marshal_roundtrip (str "/tmp") [str "echo"; str "hello"]).
  - repeat constructor; discriminate.
  - repeat constructor; discriminate.
  - vm_compute. reflexivity.
Defined.
(** ** The relay loop *)

(** [events_error] looks at the [events] member, which [main] sets to
    [POLLIN] and nothing changes afterwards; what [poll] reports in
    [revents] does not reach it. *)
Lemma events_error_loop_pollin n : forall fds,
  Forall (fun p => events p = POLLIN) fds -> events_error_loop fds n = 0.
Proof.
  induction n as [|n IH]; intros fds Hfds; [destruct fds; reflexivity|].
  destruct Hfds as [|p fds Hp Hfds]; [reflexivity|].
  cbn [events_error_loop]. rewrite Hp. cbn. apply IH. assumption.
Qed.

Lemma events_error_pollin fds evs :
  Forall (fun p => events p = POLLIN) fds -> events_error fds evs = 0.
Proof. apply events_error_loop_pollin. Qed.

Lemma events_error_revents_blind p0 p1 p2 r0 r1 r2 :
  events_error [set_revents p0 r0; set_revents p1 r1; set_revents p2 r2] 3
  = events_error [p0; p1; p2] 3.
Proof. reflexivity. Qed.

Lemma poll_three p0 p1 p2 r :
  poll_ret r <> -1 ->
  poll [p0; p1; p2] r
  = (Return (poll_ret r,
             [polled p0 (nth 0 (poll_revents r) 0);
              polled p1 (nth 1 (poll_revents r) 0);
              polled p2 (nth 2 (poll_revents r) 0)]),
     [EvPoll [fd p0; fd p1; fd p2] (poll_ret r)]).
Proof.
  intros Hret. unfold poll. rewrite bind_emit. cbn [fst snd ret map].
  destruct (Z.eqb_spec (poll_ret r) (-1)); [contradiction|]. reflexivity.
Qed.

(** One turn in which a remote source reads end-of-file or fails: the
    socket is shut down and closed, its entry is set to -1, and the loop
    is left; the rounds still to come play no part. *)
Lemma remote_eof_turn (sock_stdin : Z) (p0 p1 p2 : pollfd) (r : round)
    (rounds : list round) :
  events p0 = POLLIN -> events p1 = POLLIN -> events p2 = POLLIN ->
  poll_ret r <> -1 ->
  let q0 := polled p0 (nth 0 (poll_revents r) 0) in
  let q1 := polled p1 (nth 1 (poll_revents r) 0) in
  let q2 := polled p2 (nth 2 (poll_revents r) 0) in
  (Z.land (revents q0) POLLIN <> 0 ->
   nth 0 (read_ret r) 0 <= 0 ->
   relay_loop sock_stdin [p0; p1; p2] (r :: rounds)
   = (Return [set_fd q0 (-1); q1; q2],
      [EvPoll [fd p0; fd p1; fd p2] (poll_ret r);
       EvRead (fd p0) BUFF_SIZE (nth 0 (read_ret r) 0);
       EvShutdown (fd p0); EvClose (fd p0)])) /\
  ((Z.land (revents q0) POLLIN = 0 \/
    (0 < nth 0 (read_ret r) 0 /\ nth 0 (write_ret r) 0 = nth 0 (read_ret r) 0)) ->
   Z.land (revents q1) POLLIN <> 0 ->
   nth 1 (read_ret r) 0 <= 0 ->
   relay_loop sock_stdin [p0; p1; p2] (r :: rounds)
   = (Return [q0; set_fd q1 (-1); q2],
      [EvPoll [fd p0; fd p1; fd p2] (poll_ret r)]
        ++ stdout_forwarded q0 r
        ++ [EvRead (fd p1) BUFF_SIZE (nth 1 (read_ret r) 0);
            EvShutdown (fd p1); EvClose (fd p1)])).
Proof.
  intros He0 He1 He2 Hret q0 q1 q2.
  assert (Herr : events_error [q0; q1; q2] 3 = 0).
  { apply events_error_pollin. repeat constructor; assumption. }
  split.
  - intros Hin Heof. cbn [relay_loop]. rewrite poll_three by assumption.
    fold q0 q1 q2. cbn [bind app].
    destruct (Z.eqb_spec (poll_ret r) (-1)); [contradiction|].
    unfold relay_body. rewrite Herr. cbn [truthy Z.eqb negb entry nth].
    unfold truthy at 1.
    destruct (Z.eqb_spec (Z.land (revents q0) POLLIN) 0); [contradiction|].
    cbn [negb]. unfold handle_poll_event. rewrite bind_emit.
    destruct (Z.leb_spec (nth 0 (read_ret r) 0) 0); [|lia].
    rewrite !bind_emit. reflexivity.
  - intros Hout Hin Heof. cbn [relay_loop]. rewrite poll_three by assumption.
    fold q0 q1 q2. cbn [bind app].
    destruct (Z.eqb_spec (poll_ret r) (-1)); [contradiction|].
    unfold relay_body, stdout_forwarded. rewrite Herr.
    cbn [truthy Z.eqb negb entry nth].
    unfold truthy at 1 5.
    destruct (Z.eqb_spec (Z.land (revents q0) POLLIN) 0) as [Hz|Hnz]; cbn [negb].
    + cbn [bind ret app list_insert entry nth]. unfold truthy at 1.
      destruct (Z.eqb_spec (Z.land (revents q1) POLLIN) 0); [contradiction|].
      cbn [negb]. unfold handle_poll_event. rewrite bind_emit.
      destruct (Z.leb_spec (nth 1 (read_ret r) 0) 0); [|lia].
      rewrite !bind_emit. reflexivity.
    + destruct Hout as [Hz|[Hpos Hw]]; [contradiction|].
      unfold handle_poll_event at 1. rewrite bind_emit.
      destruct (Z.leb_spec (nth 0 (read_ret r) 0) 0); [lia|].
      rewrite bind_emit, Hw, Z.eqb_refl.
      cbn [negb ret fst snd bind Z.ltb Z.compare app].
      cbn [list_insert insert entry nth]. unfold truthy at 1.
      destruct (Z.eqb_spec (Z.land (revents q1) POLLIN) 0); [contradiction|].
      cbn [negb]. unfold handle_poll_event. rewrite bind_emit.
      destruct (Z.leb_spec (nth 1 (read_ret r) 0) 0); [|lia].
      rewrite !bind_emit. reflexivity.
Qed.

(** C1 as stated fails: remote stdout reaches EOF in the first turn while
    remote stderr still has 7 bytes to deliver in the second.  The loop ends
    in the first turn; stderr is never read. *)
Lemma remote_eof_ends_relay_counterexample :
  let fds := initial_fds example_sockets in
  let rounds := [turn [POLLIN; 0; 0] [0; 0; 0]; turn [0; POLLIN; 0] [0; 7; 0]] in
  fst (relay_loop 6 fds rounds)
    = Return [ {| fd := -1; events := POLLIN; revents := POLLIN |};
               {| fd := 5; events := POLLIN; revents := 0 |};
               {| fd := 0; events := POLLIN; revents := 0 |} ] /\
  snd (relay_loop 6 fds rounds)
    = [EvPoll [4; 5; 0] 1; EvRead 4 1024 0; EvShutdown 4; EvClose 4] /\
  ~ In (EvRead 5 1024 7) (snd (relay_loop 6 fds rounds)).
Proof.
  cbv zeta. split; [reflexivity|]. split; [reflexivity|].
  cbn. intros [H|[H|[H|[H|[]]]]]; discriminate H.
Qed.

(** By contrast, end of input on local stdin closes the remote-stdin socket
    and the loop goes on with the remaining sources. *)
Example stdin_eof_continues :
  relay_loop 6 (initial_fds example_sockets)
    [turn [0; 0; POLLIN] [0; 0; 0]; turn [0; POLLIN; POLLIN] [0; 7; 9]]
  = (Blocked,
     [EvPoll [4; 5; 0] 1; EvRead 0 1024 0; EvShutdown 6; EvClose 6;
      EvPoll [4; 5; -1] 1; EvRead 5 1024 7; EvWrite 2 7 7]).
Proof. reflexivity. Qed.

(** C2 fails on the code: [events_error] tests the requested [events],
    never the reported [revents].  Here [poll] reports a hangup on local
    stdin in the first turn and an error and an invalid descriptor on the
    sockets in the second; the loop does not end, it waits again and, in
    the third turn, services remote stdout. *)
Theorem hangup_does_not_end_relay :
  let fds := initial_fds example_sockets in
  let rounds := [turn [0; 0; POLLHUP] [0; 0; 0];
                 turn [POLLERR; POLLNVAL; 0] [0; 0; 0];
                 turn [POLLIN; 0; 0] [5; 0; 0]] in
  events_error [polled (entry fds 0) 0; polled (entry fds 1) 0;
                polled (entry fds 2) POLLHUP] 3 = 0 /\
  relay_loop 6 fds rounds
  = (Blocked,
     [EvPoll [4; 5; 0] 1; EvPoll [4; 5; 0] 1; EvPoll [4; 5; 0] 1;
      EvRead 4 1024 5; EvWrite 1 5 5]).
Proof. cbv zeta. split; reflexivity. Qed.

(** The same for every run: whatever [poll] reports, [events_error] on the
    array of [main] answers 0. *)
Lemma events_error_after_poll (s : sockets) (r0 r1 r2 : Z) :
  events_error [polled (entry (initial_fds s) 0) r0;
                polled (entry (initial_fds s) 1) r1;
                polled (entry (initial_fds s) 2) r2] 3 = 0.
Proof. apply events_error_pollin. repeat constructor. Qed.

(** *** The array along a run *)

Lemma handle_poll_event_entry pfd out_fd is_sock amnt wret :
  exists rc eof p t,
    handle_poll_event pfd out_fd is_sock amnt wret = (Return (rc, eof, p), t) /\
    events p = events pfd.
Proof.
  unfold handle_poll_event. rewrite bind_emit.
  destruct (amnt <=? 0).
  - rewrite !bind_emit. cbn. do 4 eexists. split; reflexivity.
  - rewrite bind_emit. destruct (negb (wret =? amnt)); cbn;
      do 4 eexists; split; reflexivity.
Qed.

(** A turn changes neither the number of entries nor their [events]. *)
Lemma imap_keeps_events (l : list pollfd) : forall f : nat -> pollfd -> pollfd,
  (forall i p, events (f i p) = events p) ->
  map events (imap f l) = map events l.
Proof.
  induction l as [|p l IH]; intros f Hf; [reflexivity|].
  cbn [imap map]. rewrite Hf. f_equal. apply IH. intros i q. apply Hf.
Qed.

Lemma poll_keeps_events fds r pr fds1 t :
  poll fds r = (Return (pr, fds1), t) -> map events fds1 = map events fds.
Proof.
  unfold poll. rewrite bind_emit. cbn [fst snd ret]. intros H.
  injection H as _ <- _.
  destruct (poll_ret r =? -1); [reflexivity|].
  apply imap_keeps_events. reflexivity.
Qed.

Lemma relay_body_keeps_events sock_stdin p0 p1 p2 r brk fds2 t :
  relay_body sock_stdin [p0; p1; p2] r = (Return (brk, fds2), t) ->
  map events fds2 = map events [p0; p1; p2].
Proof.
  unfold relay_body, handle_poll_event. intros H.
  repeat match type of H with
         | context [if ?b then _ else _] => destruct b; cbn [bind ret emit fst snd app entry nth list_insert insert] in H
         end;
    unfold ret in H; inversion H; reflexivity.
Qed.

(** In every run of [main] the array at the top of a turn has its three
    entries, each still asking for [POLLIN]. *)
Lemma loop_state_events (s : sockets) (fds : list pollfd) :
  loop_state s fds ->
  exists p0 p1 p2,
    fds = [p0; p1; p2] /\
    events p0 = POLLIN /\ events p1 = POLLIN /\ events p2 = POLLIN.
Proof.
  induction 1 as [|fds r pr fds1 t1 fds2 t2 _ IH Hpoll Hpr Hbody].
  - do 3 eexists. repeat split; reflexivity.
  - destruct IH as (p0 & p1 & p2 & -> & He0 & He1 & He2).
    pose proof (poll_keeps_events _ _ _ _ _ Hpoll) as Hev1.
    destruct fds1 as [|q0 [|q1 [|q2 [|q3 fds1]]]]; try discriminate Hev1.
    pose proof (relay_body_keeps_events _ _ _ _ _ _ _ _ Hbody) as Hev2.
    destruct fds2 as [|u0 [|u1 [|u2 [|u3 fds2]]]]; try discriminate Hev2.
    cbn [map] in Hev1, Hev2.
    injection Hev1 as H0 H1 H2. injection Hev2 as K0 K1 K2.
    exists u0, u1, u2. repeat split; congruence.
Qed.

(** So, in every run, whatever [poll] reports, [events_error] answers 0. *)
Lemma events_error_blind (s : sockets) (fds : list pollfd) (r : round) pr fds1 t :
  loop_state s fds ->
  poll fds r = (Return (pr, fds1), t) ->
  events_error fds1 3 = 0.
Proof.
  intros Hst Hpoll.
  destruct (loop_state_events s fds Hst) as (p0 & p1 & p2 & -> & He0 & He1 & He2).
  apply poll_keeps_events in Hpoll. apply events_error_pollin.
  destruct fds1 as [|q0 [|q1 [|q2 [|q3 fds1]]]]; try discriminate Hpoll.
  cbn [map] in Hpoll. injection Hpoll as H0 H1 H2.
  repeat constructor; congruence.
Qed.

(** C1, as the code has it: a zero-byte read (EOF) or a read error on a
    remote source (the remote-stdout or remote-stderr socket) shuts that
    socket down, closes it and sets its entry to -1, and the relay loop ends
    in that same turn: the sources after it are not serviced and [poll] is
    not called again, whatever the rounds still to come.  In particular,
    once remote stdout closes, stderr and local stdin are serviced no
    more. *)
Theorem remote_eof_ends_relay (s : sockets) (fds : list pollfd) (r : round)
    (rounds : list round) :
  loop_state s fds ->
  poll_ret r <> -1 ->
  exists p0 p1 p2,
    fds = [p0; p1; p2] /\
    let q0 := polled p0 (nth 0 (poll_revents r) 0) in
    let q1 := polled p1 (nth 1 (poll_revents r) 0) in
    let q2 := polled p2 (nth 2 (poll_revents r) 0) in
    (Z.land (revents q0) POLLIN <> 0 ->
     nth 0 (read_ret r) 0 <= 0 ->
     relay_loop (sock_stdin s) fds (r :: rounds)
     = (Return [set_fd q0 (-1); q1; q2],
        [EvPoll [fd p0; fd p1; fd p2] (poll_ret r);
         EvRead (fd p0) BUFF_SIZE (nth 0 (read_ret r) 0);
         EvShutdown (fd p0); EvClose (fd p0)])) /\
    ((Z.land (revents q0) POLLIN = 0 \/
      (0 < nth 0 (read_ret r) 0 /\ nth 0 (write_ret r) 0 = nth 0 (read_ret r) 0)) ->
     Z.land (revents q1) POLLIN <> 0 ->
     nth 1 (read_ret r) 0 <= 0 ->
     relay_loop (sock_stdin s) fds (r :: rounds)
     = (Return [q0; set_fd q1 (-1); q2],
        [EvPoll [fd p0; fd p1; fd p2] (poll_ret r)]
          ++ stdout_forwarded q0 r
          ++ [EvRead (fd p1) BUFF_SIZE (nth 1 (read_ret r) 0);
              EvShutdown (fd p1); EvClose (fd p1)])).
Proof.
  intros Hst Hret.
  destruct (loop_state_events s fds Hst) as (p0 & p1 & p2 & -> & He0 & He1 & He2).
  exists p0, p1, p2. split; [reflexivity|].
  apply remote_eof_turn; assumption.
Qed.

Lemma remote_eof_ends_relay_witness :
  let fds := initial_fds example_sockets in
  let eof_out := turn [POLLIN; POLLIN; POLLIN] [0; 7; 7] in
  let err_err := turn [0; POLLIN; POLLIN] [0; -1; 7] in
  relay_loop 6 fds [eof_out; turn [0; POLLIN; 0] [0; 7; 0]]
  = (Return [ {| fd := -1; events := POLLIN; revents := POLLIN |};
              {| fd := 5; events := POLLIN; revents := POLLIN |};
              {| fd := 0; events := POLLIN; revents := POLLIN |} ],
     [EvPoll [4; 5; 0] 1; EvRead 4 1024 0; EvShutdown 4; EvClose 4]) /\
  relay_loop 6 fds [err_err; turn [0; 0; POLLIN] [0; 0; 7]]
  = (Return [ {| fd := 4; events := POLLIN; revents := 0 |};
              {| fd := -1; events := POLLIN; revents := POLLIN |};
              {| fd := 0; events := POLLIN; revents := POLLIN |} ],
     [EvPoll [4; 5; 0] 1; EvRead 5 1024 (-1); EvShutdown 5; EvClose 5]).
Proof.
  cbv zeta.
  assert (Hst : loop_state example_sockets (initial_fds example_sockets))
    by apply loop_start.
  split.
  - destruct (remote_eof_ends_relay example_sockets (initial_fds example_sockets)
                (turn [POLLIN; POLLIN; POLLIN] [0; 7; 7])
                [turn [0; POLLIN; 0] [0; 7; 0]] Hst)
      as (p0 & p1 & p2 & Hfds & Hout & _); [discriminate|].
    injection Hfds as <- <- <-.
    apply Hout; [discriminate|simpl; lia].
  - destruct (remote_eof_ends_relay example_sockets (initial_fds example_sockets)
                (turn [0; POLLIN; POLLIN] [0; -1; 7])
                [turn [0; 0; POLLIN] [0; 0; 7]] Hst)
      as (p0 & p1 & p2 & Hfds & _ & Herr); [discriminate|].
    injection Hfds as <- <- <-.
    apply Herr; [left; reflexivity|discriminate|simpl; lia].
Defined.
(** ** The program *)

Lemma bind_return_inv {A B} (m : prog A) (k : A -> prog B) (b : B) t :
  bind m k = (Return b, t) ->
  exists a t1 t2, m = (Return a, t1) /\ k a = (Return b, t2) /\ t = t1 ++ t2.
Proof.
  unfold bind. destruct m as [[a| | |] t1]; try discriminate.
  destruct (k a) as [o t2] eqn:Hk. intros H. injection H as -> <-.
  exists a, t1, t2. repeat split; assumption.
Qed.

Lemma read_status_returns e s fds :
  exists t, read_status e s fds
            = (Return (status_of e), EvRecv (sock s) 4 (env_recv e) :: t).
Proof.
  unfold read_status, status_of. cbv zeta. rewrite !bind_emit.
  destruct (fd (entry fds 0) >=? 0), (fd (entry fds 1) >=? 0),
    (fd (entry fds 2) >=? 0), (env_recv e =? 4);
    cbn; eexists; reflexivity.
Qed.

(** C4: once the relay loop has exited, [main] reads the status and
    returns: when [recv] delivers exactly 4 bytes the exit status is their
    big-endian [int32] decoding ([msg_to_int32], the two's-complement
    reading of the base-256 number they spell); when it delivers anything
    else (fewer bytes, end of stream, an error) the exit status is 42.  And
    [main] returns no other value. *)
Theorem exit_status (e : env) (argv : list bytes) :
  (forall s t1 fds t2,
     establish e argv = (Return s, t1) ->
     relay_loop (sock_stdin s) (initial_fds s) (env_rounds e) = (Return fds, t2) ->
     exists t3,
       main e argv
       = (Return (if env_recv e =? 4 then msg_to_int32 (env_recv_buf e) else 42),
          t1 ++ t2 ++ EvRecv (sock s) 4 (env_recv e) :: t3)) /\
  (forall code t,
     main e argv = (Return code, t) ->
     code = if env_recv e =? 4 then msg_to_int32 (env_recv_buf e) else 42) /\
  (forall b0 b1 b2 b3,
     env_recv_buf e = [b0; b1; b2; b3] ->
     is_byte b0 -> is_byte b1 -> is_byte b2 -> is_byte b3 ->
     msg_to_int32 (env_recv_buf e)
     = to_int32 (b0 * 2 ^ 24 + b1 * 2 ^ 16 + b2 * 2 ^ 8 + b3)).
Proof.
  split; [|split].
  - intros s t1 fds t2 Hest Hrelay.
    destruct (read_status_returns e s fds) as [t3 Hst].
    exists t3. unfold main. rewrite Hest. cbn [bind]. rewrite Hrelay.
    cbn [bind]. rewrite Hst. reflexivity.
  - intros code t Hmain. unfold main in Hmain.
    apply bind_return_inv in Hmain as (s & t1 & t' & _ & Hrest & _).
    apply bind_return_inv in Hrest as (fds & t2 & t3 & _ & Hst & _).
    destruct (read_status_returns e s fds) as [t3' Hst'].
    rewrite Hst' in Hst. injection Hst as <- _. reflexivity.
  - intros b0 b1 b2 b3 -> H0 H1 H2 H3.
    apply msg_to_int32_be_value; assumption.
Qed.

Lemma exit_status_witness :
  fst (main example_env example_argv) = Return 7 /\
  fst (main (with_recv example_env 2 [0; 7]) example_argv) = Return 42.
Proof.
  split.
  - pose proof (proj1 (exit_status example_env example_argv)
                  example_sockets
                  (snd (establish example_env example_argv))
                  [ {| fd := -1; events := POLLIN; revents := POLLIN |};
                    {| fd := 5; events := POLLIN; revents := 0 |};
                    {| fd := 0; events := POLLIN; revents := 0 |} ]
                  (snd (relay_loop 6 (initial_fds example_sockets)
                          (env_rounds example_env)))
                  eq_refl eq_refl) as [t3 H].
    rewrite H. reflexivity.
  - pose proof (proj1 (exit_status (with_recv example_env 2 [0; 7]) example_argv)
                  example_sockets
                  (snd (establish example_env example_argv))
                  [ {| fd := -1; events := POLLIN; revents := POLLIN |};
                    {| fd := 5; events := POLLIN; revents := 0 |};
                    {| fd := 0; events := POLLIN; revents := 0 |} ]
                  (snd (relay_loop 6 (initial_fds example_sockets)
                          (env_rounds example_env)))
                  eq_refl eq_refl) as [t3 H].
    rewrite H. reflexivity.
Defined.
(** ** Connection failures *)

Lemma parse_args_cases argc argv :
  (exists r, parse_args argc argv = (Return r, [])) \/
  (exists t, parse_args argc argv = (Exit EXIT_FAILURE, t) /\
             Forall (fun ev => ~ is_connect ev /\ ~ is_send ev) t).
Proof.
  unfold parse_args, usage.
  destruct (argc <? 2).
  { right. eexists. split; [reflexivity|]. repeat constructor; cbn; tauto. }
  destruct ((strcmp (arg argv 0) PRG_NAME =? 0)
            || (strcmp (arg argv 0) (str "./" ++ PRG_NAME) =? 0));
    [|left; eexists; reflexivity].
  destruct (strcmp (arg argv 1) (str "-p") =? 0).
  - destruct (argc <? 4).
    { right. eexists. split; [reflexivity|]. repeat constructor; cbn; tauto. }
    destruct (str2int SV_DEFAULT_PORT (arg argv 2)) as [r port].
    destruct ((r <? 0) || ((port <? 0) || (port >? 65535))).
    + right. eexists. split; [reflexivity|]. repeat constructor; cbn; tauto.
    + left. eexists. reflexivity.
  - left. eexists. reflexivity.
Qed.

Lemma send_loop_events answers : forall conn buf p len,
  Forall is_send (snd (send_loop conn buf p len answers)).
Proof.
  induction answers as [|r answers IH]; intros conn buf p len; cbn [send_loop].
  - destruct (len =? 0); constructor.
  - destruct (len =? 0); [constructor|]. rewrite bind_emit. cbn [snd].
    constructor; [exact I|].
    destruct (r =? -1); [constructor|]. apply IH.
Qed.

Lemma send_all_events conn buf len answers :
  Forall is_send (snd (send_all conn buf len answers)).
Proof.
  unfold send_all. destruct (conn <? 0); [constructor|]. apply send_loop_events.
Qed.

(** What [send_all] returns and, on success, what it put on the wire. *)
Lemma send_all_result conn buf len answers :
  0 <= len <= Z.of_nat (length buf) -> len < 2 ^ 64 ->
  Forall send_contract (snd (send_all conn buf len answers)) ->
  (fst (send_all conn buf len answers) = Return 0 /\
   transmitted conn (snd (send_all conn buf len answers)) = take (Z.to_nat len) buf) \/
  fst (send_all conn buf len answers) = Return (-1) \/
  fst (send_all conn buf len answers) = Blocked.
Proof.
  intros Hlen Hsz Hc. unfold send_all in *.
  destruct (Z.ltb_spec conn 0) as [Hneg|Hconn]; [right; left; reflexivity|].
  destruct (send_loop_spec answers conn buf 0 len) as [[Ho Ht]|[[Ho _]|Ho]];
    try lia; try assumption.
  - left. split; [assumption|]. rewrite Ht. unfold offered.
    cbn [Z.to_nat]. rewrite drop_0. reflexivity.
  - right; left. assumption.
  - right; right. assumption.
Qed.

Lemma handle_poll_event_events pfd out_fd is_sock amnt wret :
  Forall (fun ev => ~ is_connect ev)
         (snd (handle_poll_event pfd out_fd is_sock amnt wret)).
Proof.
  unfold handle_poll_event. rewrite bind_emit. cbn [snd].
  constructor; [cbn; tauto|].
  destruct (amnt <=? 0).
  - rewrite !bind_emit. cbn [snd ret]. repeat constructor; cbn; tauto.
  - rewrite bind_emit. cbn [snd].
    constructor; [cbn; tauto|]. destruct (negb (wret =? amnt)); constructor.
Qed.

Lemma bind_events {A B} (P : event -> Prop) (m : prog A) (k : A -> prog B) :
  Forall P (snd m) -> (forall a, Forall P (snd (k a))) -> Forall P (snd (bind m k)).
Proof.
  intros Hm Hk. unfold bind. destruct m as [[a| | |] t]; cbn [snd] in *;
    try assumption.
  specialize (Hk a). destruct (k a) as [o t']. cbn [snd] in *.
  apply Forall_app. split; assumption.
Qed.

Lemma relay_body_events sock_stdin fds r :
  Forall (fun ev => ~ is_connect ev) (snd (relay_body sock_stdin fds r)).
Proof.
  unfold relay_body.
  destruct (truthy (events_error fds 3)); [constructor|].
  apply bind_events.
  { destruct (truthy _); [|constructor].
    apply bind_events; [apply handle_poll_event_events|].
    intros [[rc eof] p]. constructor. }
  intros [brk fds1]. destruct brk; [constructor|].
  apply bind_events.
  { destruct (truthy _); [|constructor].
    apply bind_events; [apply handle_poll_event_events|].
    intros [[rc eof] p]. constructor. }
  intros [brk fds2]. destruct brk; [constructor|].
  destruct (truthy _); [|constructor].
  apply bind_events; [apply handle_poll_event_events|].
  intros [[rc eof] p]. constructor.
Qed.

Lemma relay_loop_events rounds : forall sock_stdin fds,
  Forall (fun ev => ~ is_connect ev) (snd (relay_loop sock_stdin fds rounds)).
Proof.
  induction rounds as [|r rounds IH]; intros sock_stdin fds; cbn [relay_loop];
    [constructor|].
  apply bind_events.
  { unfold poll. rewrite bind_emit. cbn [snd ret]. repeat constructor. cbn; tauto. }
  intros [pr fds1]. destruct (pr =? -1); [constructor|].
  apply bind_events; [apply relay_body_events|].
  intros [brk fds2]. destruct brk; [constructor|apply IH].
Qed.

Lemma read_status_events e s fds :
  Forall (fun ev => ~ is_connect ev) (snd (read_status e s fds)).
Proof.
  unfold read_status. cbv zeta. rewrite !bind_emit. cbn [snd].
  repeat (constructor; [cbn; tauto|]).
  repeat (apply bind_events;
          [match goal with |- context [if ?b then _ else _] => destruct b end;
           repeat constructor; cbn; tauto|intros _]).
  constructor.
Qed.

Lemma strcpy_length buf p src buf' :
  strcpy buf p src = Some buf' -> length buf' = length buf.
Proof.
  unfold strcpy. cbv zeta.
  destruct (Nat.leb_spec (p + length (c_str src ++ [0])) (length buf)) as [Hle|];
    [|discriminate].
  intros H. injection H as <-.
  rewrite !length_app, length_take, length_drop in *. lia.
Qed.

Lemma copy_args_length args : forall buf p buf',
  copy_args buf p args = Some buf' -> length buf' = length buf.
Proof.
  induction args as [|a args IH]; intros buf p buf'; cbn [copy_args].
  - intros H. injection H as <-. reflexivity.
  - destruct (strcpy buf p a) as [buf1|] eqn:Hcpy; [|discriminate].
    intros H. apply IH in H. apply strcpy_length in Hcpy. lia.
Qed.

(** The sizes of what the marshaller produced. *)
Lemma prepare_data_sizes cwd calloc_ok argc argv rd amnt :
  prepare_data cwd calloc_ok argc argv = Some (rd, amnt) ->
  length (rd_argc rd) = 4%nat /\
  (amnt = -1 \/
   (0 <= amnt < 2 ^ 32 /\ length (rd_amt_bytes rd) = 4%nat /\
    amnt <= Z.of_nat (length (rd_cwd_argv rd)))).
Proof.
  unfold prepare_data. cbv zeta.
  destruct cwd as [cwd|].
  2: { intros H. injection H as <- <-. split; [reflexivity|left; reflexivity]. }
  destruct calloc_ok; cbn [negb].
  2: { intros H. injection H as <- <-. split; [reflexivity|left; reflexivity]. }
  match goal with
  | |- context [calloc (to_uint32 (?a + 1))] => set (total := a)
  end.
  destruct (strcpy (calloc (to_uint32 (total + 1))) 0 cwd) as [buf1|] eqn:Hcpy;
    [|discriminate].
  destruct (copy_args buf1 _ _) as [buf2|] eqn:Hargs; [|discriminate].
  intros H. injection H as <- <-. cbn [rd_argc rd_amt_bytes rd_cwd_argv].
  split; [reflexivity|]. right.
  assert (Htot : 0 <= total < 2 ^ 32) by (apply Z.mod_pos_bound; lia).
  split; [assumption|]. split; [reflexivity|].
  apply copy_args_length in Hargs. pose proof Hcpy as Hlen.
  apply strcpy_length in Hlen.
  unfold calloc in Hlen. rewrite length_replicate in Hlen.
  unfold strcpy in Hcpy. cbv zeta in Hcpy.
  destruct (Nat.leb_spec (0 + length (c_str cwd ++ [0]))
              (length (calloc (to_uint32 (total + 1))))) as [Hle|];
    [|discriminate].
  unfold calloc in Hle. rewrite length_replicate, length_app in Hle.
  cbn [length] in Hle.
  assert (Hsz : to_uint32 (total + 1) = total + 1).
  { unfold to_uint32 in *.
    destruct (Z.eq_dec (total + 1) (2 ^ 32)) as [Heq|Hne].
    - rewrite Heq, Z.mod_same in Hle by lia. cbn in Hle. lia.
    - apply Z.mod_small. lia. }
  rewrite Hsz in Hlen. lia.
Qed.

Lemma in_forall_not {P : event -> Prop} (t : list event) ev :
  Forall (fun ev => ~ P ev) t -> In ev t -> P ev -> False.
Proof. intros H Hin HP. rewrite List.Forall_forall in H. exact (H ev Hin HP). Qed.

Lemma in_sends_not_connect t s port r :
  Forall is_send t -> In (EvConnect s port r) t -> False.
Proof.
  intros H Hin. rewrite List.Forall_forall in H. exact (H _ Hin).
Qed.

Lemma sends_not_relay t : Forall is_send t -> Forall (fun ev => ~ is_relay_event ev) t.
Proof. apply List.Forall_impl. intros [] H; cbn in *; tauto. Qed.

Lemma connect_ports_sends t : Forall is_send t -> connect_ports t = [].
Proof.
  induction 1 as [|ev t Hev _ IH]; [reflexivity|].
  destruct ev; cbn in *; tauto.
Qed.

Lemma connect_ports_app t1 t2 :
  connect_ports (t1 ++ t2) = connect_ports t1 ++ connect_ports t2.
Proof.
  induction t1 as [|ev t1 IH]; [reflexivity|].
  destruct ev; cbn [connect_ports app]; rewrite IH; reflexivity.
Qed.

Lemma transmitted_other_socket conn buf len answers q :
  q <> conn -> transmitted q (snd (send_all conn buf len answers)) = [].
Proof.
  intros Hq. unfold send_all. destruct (conn <? 0); [reflexivity|].
  generalize 0 at 1. revert len.
  induction answers as [|r answers IH]; intros len p; cbn [send_loop].
  - destruct (len =? 0); reflexivity.
  - destruct (len =? 0); [reflexivity|]. rewrite bind_emit. cbn [snd transmitted].
    destruct (Z.eqb_spec conn q); [congruence|]. cbn [andb app].
    destruct (r =? -1); [reflexivity|]. apply IH.
Qed.

(** How a sequence ends: in its first part, or in what follows it. *)
Lemma bind_inv {A B} (m : prog A) (k : A -> prog B) (o : outcome B) t :
  bind m k = (o, t) ->
  (exists a t1 t2, m = (Return a, t1) /\ k a = (o, t2) /\ t = t1 ++ t2) \/
  (exists st, m = (Exit st, t) /\ o = Exit st) \/
  (m = (Blocked, t) /\ o = Blocked) \/
  (m = (Undefined, t) /\ o = Undefined).
Proof.
  unfold bind. destruct m as [[a| st | |] t1].
  - destruct (k a) as [o2 t2] eqn:Hk. intros H. injection H as <- <-.
    left. exists a, t1, t2. repeat split; assumption.
  - intros H. injection H as <- <-. right; left. exists st. split; reflexivity.
  - intros H. injection H as <- <-. right; right; left. split; reflexivity.
  - intros H. injection H as <- <-. right; right; right. split; reflexivity.
Qed.

Lemma die_if_cases (b : bool) (msg : message) :
  (b = true /\ (if b then die msg else ret tt) = (Exit EXIT_FAILURE, [EvStderr msg])) \/
  (b = false /\ (if b then die msg else ret tt) = (Return tt, [])).
Proof. destruct b; [left|right]; split; reflexivity. Qed.

Lemma do_connect_cases port sa ca :
  (sa < 0 /\ do_connect port sa ca
             = (Exit EXIT_FAILURE, [EvSocket sa; EvStderr MsgSocket])) \/
  (0 <= sa /\ do_connect port sa ca
              = (Return (ca, sa), [EvSocket sa; EvConnect sa (to_uint16 port) ca])).
Proof.
  unfold do_connect. destruct (Z.ltb_spec sa 0); [left|right];
    (split; [assumption|reflexivity]).
Qed.

Lemma bind_ret_nil {A B} (a : A) (k : A -> prog B) : bind (Return a, []) k = k a.
Proof. unfold bind. destruct (k a). reflexivity. Qed.

Lemma bind_return_eq {A B} (a : A) t1 (k : A -> prog B) (o : outcome B) t :
  bind (Return a, t1) k = (o, t) -> exists t2, k a = (o, t2) /\ t = t1 ++ t2.
Proof.
  unfold bind. destruct (k a) as [o2 t2]. intros H. injection H as <- <-.
  exists t2. split; reflexivity.
Qed.

(** The stages of [establish], one tactic per kind of stage.  Each leaves
    the case where the run ends at the stage and the case where it goes
    on. *)
Ltac guard_stage Hrun Hb :=
  match type of Hrun with
  | bind (if ?r <? 0 then die ?msg else ret tt) _ = _ =>
      destruct (Z.ltb_spec r 0) as [Hb|Hb];
      [ cbn [bind die emit exit app] in Hrun; injection Hrun as <- <-
      | apply bind_return_eq in Hrun as (? & Hrun & ->); cbn [app] in * ]
  end.

Ltac connect_stage Hrun Hs :=
  match type of Hrun with
  | bind (do_connect ?p ?sa ?ca) _ = _ =>
      let Hm := fresh "Hm" in
      destruct (do_connect_cases p sa ca) as [[Hs Hm]|[Hs Hm]];
      rewrite Hm in Hrun; clear Hm;
      [ cbn [bind] in Hrun; injection Hrun as <- <-
      | apply bind_return_eq in Hrun as (? & Hrun & ->); cbv beta iota in Hrun ]
  end.

Ltac send_stage Hrun rv ts Hev Hres Hoth :=
  match type of Hrun with
  | bind (send_all ?c ?b ?l ?a) _ = _ =>
      pose proof (send_all_events c b l a) as Hev;
      pose proof (send_all_result c b l a) as Hres;
      pose proof (transmitted_other_socket c b l a) as Hoth;
      let Hm := fresh "Hm" in
      destruct (send_all c b l a) as [? ?]; cbn [fst snd] in Hev, Hres, Hoth;
      apply bind_inv in Hrun
        as [(rv & ts & ? & Hm & Hrun & ->)
           |[(? & Hm & ->)|[(Hm & ->)|(Hm & ->)]]];
      injection Hm as -> ->
  end.

(** Which connection [Hin] speaks of: the ones that succeeded are ruled
    out, the failed one is identified. *)
Ltac which_connect Hin :=
  repeat match goal with
         | H : In _ (_ ++ _) |- _ => apply in_app_or in H
         | H : In _ (_ :: _) |- _ => destruct H as [H|H]
         | H : In _ [] |- _ => destruct H
         | H : _ \/ _ |- _ => destruct H as [H|H]
         | H : EvSocket _ = EvConnect _ _ _ |- _ => discriminate H
         | H : EvStderr _ = EvConnect _ _ _ |- _ => discriminate H
         | H : In (EvConnect _ _ _) ?t, H' : Forall is_send ?t |- _ =>
             exfalso; exact (in_sends_not_connect _ _ _ _ H' H)
         | H : EvConnect _ _ _ = EvConnect _ _ _ |- _ => injection H as <- <- <-
         end;
  try lia.

(** No failed connection in a trace whose connections all succeeded. *)
Ltac absurd_connect Hin := exfalso; which_connect Hin.

(** The part of the contract that concerns one segment of the trace. *)
Ltac contract_of Hc :=
  rewrite ?Forall_cons, ?Forall_app in Hc; tauto.

(** A [send_all] that passed its guard returned 0 and sent its buffer. *)
Ltac sent_all Hres Hcx Hguard :=
  destruct Hres as [[_ Hres]|[Hres|Hres]];
  [ lia | lia | exact Hcx | | injection Hres as ->; lia | discriminate Hres ].

Ltac no_relay :=
  cbn [app]; rewrite ?Forall_cons, ?Forall_app, ?Forall_cons;
  repeat split; try (cbn; tauto); try (apply sends_not_relay; assumption);
  try constructor.

Lemma take_all_bytes (n : nat) (l : bytes) : length l = n -> take n l = l.
Proof. intros H. apply take_ge. lia. Qed.

(** The run died on the connection of an I/O channel, after [ts1], [ts2]
    and [ts3] carried the three parts of the request. *)
Ltac io_leaf Hprep Hev1 Hev2 Hev3 Hres1 Hres2 Hres3 :=
  cbn [channel_index];
  split; [reflexivity|];
  split; [cbn [app]; rewrite <- ?app_assoc; reflexivity|];
  split; [reflexivity|]; split; [reflexivity|];
  split;
  [ cbn [connect_ports app]; rewrite !connect_ports_app;
    rewrite (connect_ports_sends _ Hev1), (connect_ports_sends _ Hev2),
      (connect_ports_sends _ Hev3);
    cbn [map connect_ports app]; rewrite Z.add_0_r; reflexivity |];
  split; [no_relay|];
  eexists _, _, _, _; split; [reflexivity|]; split; [exact Hprep|];
  cbn [transmitted app]; rewrite !transmitted_app, Hres1, Hres2, Hres3;
  cbn [transmitted]; rewrite app_nil_r; unfold request;
  rewrite !take_all_bytes by assumption; reflexivity.

Lemma establish_connect_failure (e : env) (argv : list bytes) (s port r : Z) :
  Forall send_contract (snd (establish e argv)) ->
  In (EvConnect s port r) (snd (establish e argv)) ->
  r < 0 ->
  exists c base pre,
    fst (establish e argv) = Exit EXIT_FAILURE /\
    snd (establish e argv)
      = pre ++ [EvConnect s port r; EvStderr (MsgConnect c (base + channel_index c))] /\
    s = env_socket e c /\
    port = to_uint16 (base + channel_index c) /\
    connect_ports pre = map (fun k => to_uint16 (base + k)) (upto (channel_index c)) /\
    Forall (fun ev => ~ is_relay_event ev) pre /\
    match c with
    | Control => forall q, transmitted q pre = []
    | _ =>
        exists new_argc new_argv rd amnt,
          fst (parse_args (Z.of_nat (length argv)) argv)
            = Return (new_argc, new_argv, base) /\
          prepare_data (env_cwd e) (env_calloc e) new_argc new_argv = Some (rd, amnt) /\
          transmitted (env_socket e Control) pre = request rd amnt
    end.
Proof.
  intros Hc Hin Hr.
  destruct (establish e argv) as [o t] eqn:Hrun. cbn [fst snd] in *.
  unfold establish in Hrun.
  destruct (parse_args_cases (Z.of_nat (length argv)) argv)
    as [[[[na nv] base] Hp]|(tp & Hp & Htp)]; rewrite Hp in *.
  2: { cbn [bind] in Hrun. injection Hrun as <- <-. exfalso.
       rewrite List.Forall_forall in Htp. exact (proj1 (Htp _ Hin) I). }
  apply bind_return_eq in Hrun as (t' & Hrun & ->). cbn [app] in *.
  destruct (prepare_data (env_cwd e) (env_calloc e) na nv) as [[rd amnt]|] eqn:Hprep.
  2: { injection Hrun as <- <-. destruct Hin. }
  destruct (prepare_data_sizes _ _ _ _ _ _ Hprep) as [Hargc Hsizes].
  guard_stage Hrun Hamnt; [absurd_connect Hin|].
  destruct Hsizes as [->|(Hrange & Hamt & Hbuf)]; [lia|].
  connect_stage Hrun Hs0; [absurd_connect Hin|].
  guard_stage Hrun Hc0.
  { (* the control connection fails: nothing has been sent *)
    which_connect Hin.
    exists Control, base, [EvSocket (env_socket e Control)].
    cbn [channel_index]. rewrite Z.add_0_r.
    repeat split; try reflexivity. no_relay. }
  send_stage Hrun r1 ts1 Hev1 Hres1 Hoth1; try solve [absurd_connect Hin].
  assert (Hc1 : Forall send_contract ts1) by contract_of Hc.
  guard_stage Hrun Hr1; [absurd_connect Hin|].
  sent_all Hres1 Hc1 Hr1.
  send_stage Hrun r2 ts2 Hev2 Hres2 Hoth2; try solve [absurd_connect Hin].
  assert (Hc2 : Forall send_contract ts2) by contract_of Hc.
  guard_stage Hrun Hr2; [absurd_connect Hin|].
  sent_all Hres2 Hc2 Hr2.
  send_stage Hrun r3 ts3 Hev3 Hres3 Hoth3; try solve [absurd_connect Hin].
  assert (Hc3 : Forall send_contract ts3) by contract_of Hc.
  guard_stage Hrun Hr3; [absurd_connect Hin|].
  sent_all Hres3 Hc3 Hr3.
  connect_stage Hrun Hs1; [absurd_connect Hin|].
  guard_stage Hrun Hc1'.
  { (* the stdout connection fails: the request has gone out *)
    which_connect Hin.
    exists Stdout, base,
      (EvSocket (env_socket e Control)
         :: EvConnect (env_socket e Control) (to_uint16 base) (env_connect e Control)
         :: ts1 ++ ts2 ++ ts3 ++ [EvSocket (env_socket e Stdout)]).
    change (upto (channel_index Stdout)) with [0].
    io_leaf Hprep Hev1 Hev2 Hev3 Hres1 Hres2 Hres3. }
  connect_stage Hrun Hs2; [absurd_connect Hin|].
  guard_stage Hrun Hc2'.
  { (* the stderr connection fails *)
    which_connect Hin.
    exists Stderr, base,
      (EvSocket (env_socket e Control)
         :: EvConnect (env_socket e Control) (to_uint16 base) (env_connect e Control)
         :: ts1 ++ ts2 ++ ts3
         ++ [EvSocket (env_socket e Stdout);
             EvConnect (env_socket e Stdout) (to_uint16 (base + 1)) (env_connect e Stdout);
             EvSocket (env_socket e Stderr)]).
    change (upto (channel_index Stderr)) with [0; 1].
    io_leaf Hprep Hev1 Hev2 Hev3 Hres1 Hres2 Hres3. }
  connect_stage Hrun Hs3; [absurd_connect Hin|].
  guard_stage Hrun Hc3'.
  { (* the stdin connection fails *)
    which_connect Hin.
    exists Stdin, base,
      (EvSocket (env_socket e Control)
         :: EvConnect (env_socket e Control) (to_uint16 base) (env_connect e Control)
         :: ts1 ++ ts2 ++ ts3
         ++ [EvSocket (env_socket e Stdout);
             EvConnect (env_socket e Stdout) (to_uint16 (base + 1)) (env_connect e Stdout);
             EvSocket (env_socket e Stderr);
             EvConnect (env_socket e Stderr) (to_uint16 (base + 2)) (env_connect e Stderr);
             EvSocket (env_socket e Stdin)]).
    change (upto (channel_index Stdin)) with [0; 1; 2].
    io_leaf Hprep Hev1 Hev2 Hev3 Hres1 Hres2 Hres3. }
  (* every connection succeeded *)
  injection Hrun as <- <-. absurd_connect Hin.
Qed.

(** C3, as the code has it: the four connections are attempted in the fixed
    order control, stdout, stderr, stdin, on the base port and its three
    successors (as [uint16_t]), and a connect failure is immediately fatal:
    the failed [connect] is followed only by the diagnostic and the process
    exits with a failure status, before any relaying has begun.  When it is
    the control connection that fails, nothing has been sent on any
    connection; when it is one of the three I/O connections, the whole
    request (argument count, payload length, payload) has already been sent
    on the control connection. *)
Theorem connect_failure_fatal (e : env) (argv : list bytes) (s port r : Z) :
  Forall send_contract (snd (main e argv)) ->
  In (EvConnect s port r) (snd (main e argv)) ->
  r < 0 ->
  exists c base pre,
    fst (main e argv) = Exit EXIT_FAILURE /\
    snd (main e argv)
      = pre ++ [EvConnect s port r; EvStderr (MsgConnect c (base + channel_index c))] /\
    s = env_socket e c /\
    port = to_uint16 (base + channel_index c) /\
    connect_ports pre = map (fun k => to_uint16 (base + k)) (upto (channel_index c)) /\
    Forall (fun ev => ~ is_relay_event ev) pre /\
    match c with
    | Control => forall q, transmitted q pre = []
    | _ =>
        exists new_argc new_argv rd amnt,
          fst (parse_args (Z.of_nat (length argv)) argv)
            = Return (new_argc, new_argv, base) /\
          prepare_data (env_cwd e) (env_calloc e) new_argc new_argv = Some (rd, amnt) /\
          transmitted (env_socket e Control) pre = request rd amnt
    end.
Proof.
  intros Hc Hin Hr.
  pose proof (establish_connect_failure e argv s port r) as Hest.
  unfold main in *.
  destruct (establish e argv) as [[socks| st | |] t1] eqn:Hrun;
    cbn [bind fst snd] in *;
    try (destruct (Hest Hc Hin Hr) as (c & base & pre & Hfst & Hrest);
         exists c, base, pre; split; [|exact Hrest];
         first [injection Hfst as ->; reflexivity|discriminate Hfst]).
  exfalso.
  assert (Htail : Forall (fun ev => ~ is_connect ev)
                    (snd (bind (relay_loop (sock_stdin socks) (initial_fds socks)
                                  (env_rounds e))
                               (fun fds => read_status e socks fds)))).
  { apply bind_events; [apply relay_loop_events|].
    intros fds. apply read_status_events. }
  destruct (bind (relay_loop (sock_stdin socks) (initial_fds socks) (env_rounds e))
                 (fun fds => read_status e socks fds)) as [o2 t2].
  cbn [fst snd] in *.
  apply Forall_app in Hc as [Hc1 _].
  apply in_app_or in Hin as [Hin|Hin].
  - destruct (Hest Hc1 Hin Hr) as (_ & _ & _ & Hfst & _). discriminate Hfst.
  - exact (in_forall_not _ _ Htail Hin I).
Qed.

Lemma connect_failure_fatal_witness :
  let e := with_connect example_env (fun c => match c with Stderr => -1 | _ => 0 end) in
  fst (main e example_argv) = Exit EXIT_FAILURE /\
  exists pre,
    snd (main e example_argv)
      = pre ++ [EvConnect 5 4002 (-1); EvStderr (MsgConnect Stderr 4002)] /\
    connect_ports pre = [4000; 4001].
Proof.
  intros e.
  assert (Hc : Forall send_contract (snd (main e example_argv)))
    by (repeat constructor; simpl; lia).
  assert (Hin : In (EvConnect 5 4002 (-1)) (snd (main e example_argv)))
    by (simpl; tauto).
  assert (Hr : -1 < 0) by lia.
  destruct (connect_failure_fatal e example_argv 5 4002 (-1) Hc Hin Hr)
    as (c & base & pre & Hfst & Hsnd & _).
  split; [exact Hfst|].
  exists (removelast (removelast (snd (main e example_argv)))).
  split; reflexivity.
Defined.

(** C3 as stated fails: the stdout connection is refused after the request
    has been sent.  The process does exit with a failure status, but the
    24 bytes of the request are already on the control connection. *)
Lemma connect_failure_fatal_counterexample :
  let e := with_connect example_env (fun c => match c with Stdout => -1 | _ => 0 end) in
  let run := main e example_argv in
  fst run = Exit EXIT_FAILURE /\
  snd run
    = [EvSocket 3; EvConnect 3 4000 0;
       EvSend 3 [0; 0; 0; 2] 4;
       EvSend 3 [0; 0; 0; 16] 2; EvSend 3 [0; 16] 2;
       EvSend 3 (str "/tmp" ++ [0] ++ str "echo" ++ [0] ++ str "hello" ++ [0]) 10;
       EvSend 3 (str "hello" ++ [0]) 6;
       EvSocket 4; EvConnect 4 4001 (-1);
       EvStderr (MsgConnect Stdout 4001)] /\
  transmitted 3 (snd run)
    = [0; 0; 0; 2] ++ [0; 0; 0; 16]
        ++ str "/tmp" ++ [0] ++ str "echo" ++ [0] ++ str "hello" ++ [0] /\
  transmitted 3 (snd run) <> [].
Proof.
  cbv zeta. split; [reflexivity|]. split; [reflexivity|].
  split; [reflexivity|discriminate].
Qed.
(** * The entry-point patcher: patch then restore *)

Section PatchRestore.
Import Aarch64.

Lemma memcpy_from_nth m addr n i :
  (i < n)%nat -> nth i (memcpy_from m addr n) 0 = m (addr + Z.of_nat i).
Proof.
  intros Hi. unfold memcpy_from.
  rewrite (nth_indep _ 0 ((fun i => m (addr + Z.of_nat i)) 0%nat))
    by (rewrite length_map, length_seq; exact Hi).
  rewrite (map_nth (fun i => m (addr + Z.of_nat i))), seq_nth by exact Hi.
  reflexivity.
Qed.

Lemma memcpy_from_length m addr n : length (memcpy_from m addr n) = n.
Proof. unfold memcpy_from. rewrite length_map, length_seq. reflexivity. Qed.

(** Writing back what was read from the same place changes nothing,
    whatever was written there in between. *)
Lemma memcpy_to_restore m addr n src a :
  memcpy_to (memcpy_to m addr src n) addr (memcpy_from m addr n) n a = m a.
Proof.
  unfold memcpy_to.
  destruct ((addr <=? a) && (a <? addr + Z.of_nat n)) eqn:Hin; [|reflexivity].
  apply andb_true_iff in Hin as [Hlo Hhi].
  apply Z.leb_le in Hlo. apply Z.ltb_lt in Hhi.
  rewrite memcpy_from_nth by lia. f_equal. lia.
Qed.

Lemma fill_literal_length p addr : length (fill_literal p addr) = length p.
Proof.
  unfold fill_literal. generalize (seq 0 8). intros l. revert p.
  induction l as [|i l IH]; intros p; cbn [fold_left]; [reflexivity|].
  rewrite IH. apply length_insert.
Qed.

(** The patched region: the two instructions followed by the address of the
    hook, least significant byte first. *)
Lemma arch_patch_start_region hook m start :
  memcpy_from (mem (fst (arch_patch_start hook (initial m) start))) start PATCH_SIZE
  = [0x41; 0x00; 0x00; 0x58; 0x20; 0x00; 0x3f; 0xd6]
      ++ map (u_addr_val hook) (seq 0 8).
Proof.
  unfold arch_patch_start, initial, memcpy_from, memcpy_to, PATCH_SIZE.
  cbn [fst mem patch seq map app].
  repeat match goal with
         | |- context [(?a <=? ?b) && (?b <? ?c)] =>
             replace ((a <=? b) && (b <? c)) with true
               by (symmetry; apply andb_true_iff; split;
                   [apply Z.leb_le|apply Z.ltb_lt]; lia)
         end.
  repeat match goal with
         | |- context [Z.to_nat (start + ?k - start)] =>
             replace (start + k - start) with k by lia
         end.
  reflexivity.
Qed.

(** C9: for every initial contents of memory (so of the 16-byte region at
    [start]), every state of the patcher and every hook address, applying
    the patch and then immediately restoring it leaves the region at
    [start], and every other byte of memory, as it was; the trampoline is
    16 bytes long and restoring returns its size less the 8-byte literal. *)
Theorem patch_restore_roundtrip (hook : Z) (s : state) (start : Z) :
  let patched := fst (arch_patch_start hook s start) in
  let restored := fst (arch_restore_start patched) in
  memcpy_from (mem restored) start PATCH_SIZE = memcpy_from (mem s) start PATCH_SIZE /\
  (forall a, mem restored a = mem s a) /\
  length (memcpy_from (mem s) start PATCH_SIZE) = 16%nat /\
  snd (arch_patch_start hook s start) = 0 /\
  snd (arch_restore_start patched) = 8.
Proof.
  cbn zeta.
  assert (Hmem : forall a,
    mem (fst (arch_restore_start (fst (arch_patch_start hook s start)))) a = mem s a).
  { intros a. unfold arch_restore_start, arch_patch_start.
    cbn [fst mem arch_addr_start bck_start]. apply memcpy_to_restore. }
  split; [|split; [exact Hmem|]].
  - unfold memcpy_from. apply map_ext. intros i. apply Hmem.
  - split; [apply memcpy_from_length|]. split; reflexivity.
Qed.

End PatchRestore.
(** * Part 3: further properties of the code *)

(** ** The codec, the other way round *)

(** The encoder looks at the low 32 bits of its argument only. *)
Lemma int32_to_msg_wrap v q : int32_to_msg (v + q * 2 ^ 32) = int32_to_msg v.
Proof.
  unfold int32_to_msg, to_uint8.
  rewrite !Z.shiftr_div_pow2 by lia.
  replace (v + q * 2 ^ 32) with (v + (q * 2 ^ 8) * 2 ^ 24) at 1 by lia.
  replace (v + q * 2 ^ 32) with (v + (q * 2 ^ 16) * 2 ^ 16) at 1 by lia.
  replace (v + q * 2 ^ 32) with (v + (q * 2 ^ 24) * 2 ^ 8) at 1 by lia.
  replace (v + q * 2 ^ 32) with (v + (q * 2 ^ 32) * 2 ^ 0) at 1 by lia.
  rewrite !Z.div_add by lia.
  replace (v / 2 ^ 24 + q * 2 ^ 8) with (v / 2 ^ 24 + q * 2 ^ 8) by reflexivity.
  replace (q * 2 ^ 16) with ((q * 2 ^ 8) * 2 ^ 8) by lia.
  replace (q * 2 ^ 24) with ((q * 2 ^ 16) * 2 ^ 8) by lia.
  replace (q * 2 ^ 32) with ((q * 2 ^ 24) * 2 ^ 8) by lia.
  rewrite !Z_mod_plus_full. reflexivity.
Qed.

Lemma to_int32_wrap z : exists q, to_int32 z = z + q * 2 ^ 32.
Proof.
  exists (- ((z + 2 ^ 31) / 2 ^ 32)). unfold to_int32.
  pose proof (Z.div_mod (z + 2 ^ 31) (2 ^ 32)). lia.
Qed.

(** The bytes of a base-256 number of four digits. *)
Lemma int32_to_msg_digits b0 b1 b2 b3 :
  is_byte b0 -> is_byte b1 -> is_byte b2 -> is_byte b3 ->
  int32_to_msg (b0 * 2 ^ 24 + b1 * 2 ^ 16 + b2 * 2 ^ 8 + b3) = [b0; b1; b2; b3].
Proof.
  unfold is_byte. intros H0 H1 H2 H3.
  unfold int32_to_msg, to_uint8. rewrite !Z.shiftr_div_pow2 by lia.
  set (B := b0 * 2 ^ 24 + b1 * 2 ^ 16 + b2 * 2 ^ 8 + b3).
  assert (E24 : B / 2 ^ 24 = b0)
    by (symmetry; apply (Z.div_unique B _ b0 (b1 * 2 ^ 16 + b2 * 2 ^ 8 + b3));
        unfold B; lia).
  assert (E16 : B / 2 ^ 16 = b0 * 2 ^ 8 + b1)
    by (symmetry; apply (Z.div_unique B _ _ (b2 * 2 ^ 8 + b3)); unfold B; lia).
  assert (E8 : B / 2 ^ 8 = (b0 * 2 ^ 8 + b1) * 2 ^ 8 + b2)
    by (symmetry; apply (Z.div_unique B _ _ b3); unfold B; lia).
  assert (E0 : B / 2 ^ 0 = ((b0 * 2 ^ 8 + b1) * 2 ^ 8 + b2) * 2 ^ 8 + b3)
    by (rewrite Z.pow_0_r, Z.div_1_r; unfold B; lia).
  rewrite E24, E16, E8, E0.
  rewrite (Z.add_comm _ b1), (Z.add_comm _ b2), (Z.add_comm _ b3).
  rewrite !Z_mod_plus_full, !Z.mod_small by lia. reflexivity.
Qed.

(** X1: encoding what was decoded gives the four bytes back: for every
    buffer of four bytes, [int32_to_msg (msg_to_int32 buf)] is [buf]. *)
Theorem codec_encode_decode (b0 b1 b2 b3 : Z) :
  is_byte b0 -> is_byte b1 -> is_byte b2 -> is_byte b3 ->
  int32_to_msg (msg_to_int32 [b0; b1; b2; b3]) = [b0; b1; b2; b3].
Proof.
  intros H0 H1 H2 H3.
  rewrite msg_to_int32_be_value by assumption.
  destruct (to_int32_wrap (be_value [b0; b1; b2; b3])) as [q ->].
  rewrite int32_to_msg_wrap. unfold be_value. cbn [nth].
  apply int32_to_msg_digits; assumption.
Qed.

Lemma codec_encode_decode_witness :
  int32_to_msg (msg_to_int32 [255; 0; 128; 7]) = [255; 0; 128; 7].
Proof.
  apply codec_encode_decode; unfold is_byte; lia.
Defined.

(** X2: the encoder serves unsigned 32-bit values as well: for every [z]
    below 2^32 (as the payload length, a [uint32_t] passed through the
    [int32_t] parameter) the bytes stored are the base-256 digits of [z],
    most significant first, also when [z] is 2^31 or more. *)
Theorem int32_to_msg_unsigned (z : Z) :
  0 <= z < 2 ^ 32 ->
  int32_to_msg (to_int32 z)
  = [z / 2 ^ 24; (z / 2 ^ 16) mod 2 ^ 8; (z / 2 ^ 8) mod 2 ^ 8; z mod 2 ^ 8].
Proof.
  intros Hz. destruct (to_int32_wrap z) as [q ->]. rewrite int32_to_msg_wrap.
  unfold int32_to_msg, to_uint8. rewrite !Z.shiftr_div_pow2 by lia.
  rewrite Z.pow_0_r, Z.div_1_r.
  rewrite (Z.mod_small (z / 2 ^ 24)); [reflexivity|].
  split; [apply Z.div_pos; lia|].
  apply Z.div_lt_upper_bound; lia.
Qed.

Lemma int32_to_msg_unsigned_witness :
  int32_to_msg (to_int32 (2 ^ 32 - 2)) = [255; 255; 255; 254].
Proof.
  assert (H : 0 <= 2 ^ 32 - 2 < 2 ^ 32) by lia.
  rewrite (int32_to_msg_unsigned (2 ^ 32 - 2) H). reflexivity.
Defined.
(** ** Port parsing *)

Lemma digits_fold : forall s acc,
  exists ds rest,
    digits acc s = (fold_left (fun a d => a * 10 + d) ds acc, rest) /\
    s = decimal ds ++ rest /\ digit_list ds /\ isdigit (nth 0 rest 0) = false.
Proof.
  induction s as [|c s IH]; intros acc.
  - exists [], []. repeat split; constructor.
  - cbn [digits]. destruct (isdigit c) eqn:Hc.
    + destruct (IH (acc * 10 + (c - 48))) as (ds & rest & Hd & -> & Hds & Hrest).
      exists ((c - 48) :: ds), rest. cbn [fold_left decimal map app].
      split; [exact Hd|]. split; [f_equal; lia|].
      split; [|exact Hrest].
      constructor; [|exact Hds].
      unfold isdigit in Hc. apply andb_true_iff in Hc as [H1 H2].
      apply Z.leb_le in H1, H2. lia.
    + exists [], (c :: s). repeat split; try constructor. exact Hc.
Qed.

Lemma digits_decimal ds : forall acc rest,
  digit_list ds -> isdigit (nth 0 rest 0) = false ->
  digits acc (decimal ds ++ rest)
  = (fold_left (fun a d => a * 10 + d) ds acc, rest).
Proof.
  induction ds as [|d ds IH]; intros acc rest Hds Hrest.
  - cbn [decimal map app fold_left]. destruct rest as [|c rest]; [reflexivity|].
    cbn [digits nth] in *. rewrite Hrest. reflexivity.
  - apply Forall_cons in Hds as [Hd Hds]. cbn [decimal map app digits fold_left].
    replace (isdigit (48 + d)) with true
      by (symmetry; unfold isdigit; apply andb_true_iff; split; apply Z.leb_le; lia).
    replace (48 + d - 48) with d by lia. apply IH; assumption.
Qed.

Lemma fold_digits_nonneg ds : forall acc,
  digit_list ds -> 0 <= acc -> 0 <= fold_left (fun a d => a * 10 + d) ds acc.
Proof.
  induction ds as [|d ds IH]; intros acc Hds Hacc; cbn [fold_left]; [assumption|].
  apply Forall_cons in Hds as [Hd Hds]. apply IH; [assumption|lia].
Qed.

(** A character that is no sign leaves the string as it is. *)
Lemma no_sign_split (c : Z) (r : bytes) :
  c <> 43 -> c <> 45 ->
  match c :: r with
  | 43 :: r' => (false, r')
  | 45 :: r' => (true, r')
  | _ => (false, c :: r)
  end = (false, c :: r).
Proof.
  intros H43 H45.
  destruct c as [|p|p]; try reflexivity.
  do 6 (destruct p as [p|p|]; try reflexivity); congruence.
Qed.

Lemma skip_space_head (s : bytes) :
  isspace (nth 0 s 0) = false -> skip_space s = s.
Proof. destruct s as [|c s]; cbn [skip_space nth]; [reflexivity|]. intros ->. reflexivity. Qed.

Lemma digit_not_space d : 0 <= d <= 9 -> isspace (48 + d) = false.
Proof.
  intros Hd. unfold isspace. apply orb_false_iff. split.
  - apply Z.eqb_neq. lia.
  - apply andb_false_iff. right. apply Z.leb_gt. lia.
Qed.

(** [strtol] on an optional sign followed by at least one digit. *)
Lemma strtol_decimal (sg : sign) (d : Z) (ds : list Z) (rest : bytes) :
  digit_list (d :: ds) -> isdigit (nth 0 rest 0) = false ->
  strtol (sign_chars sg ++ decimal (d :: ds) ++ rest)
  = let v := signed sg (decimal_value (d :: ds)) in
    if v >? LONG_MAX then (LONG_MAX, rest, true)
    else if v <? LONG_MIN then (LONG_MIN, rest, true)
    else (v, rest, false).
Proof.
  intros Hds Hrest. pose proof Hds as Hds'.
  apply Forall_cons in Hds' as [Hd _].
  assert (Hdig : isdigit (48 + d) = true)
    by (unfold isdigit; apply andb_true_iff; split; apply Z.leb_le; lia).
  assert (Hbody : forall s,
    (let '(neg, s2) := (match sg with Minus => true | _ => false end,
                        decimal (d :: ds) ++ rest) in
     match s2 with
     | c :: _ =>
         if isdigit c then
           let '(v, rest0) := digits 0 s2 in
           let v0 := if neg then - v else v in
           if v0 >? LONG_MAX then (LONG_MAX, rest0, true)
           else if v0 <? LONG_MIN then (LONG_MIN, rest0, true)
           else (v0, rest0, false)
         else (0, s, false)
     | [] => (0, s, false)
     end)
    = let v := signed sg (decimal_value (d :: ds)) in
      if v >? LONG_MAX then (LONG_MAX, rest, true)
      else if v <? LONG_MIN then (LONG_MIN, rest, true)
      else (v, rest, false)).
  { intros s. cbv beta iota zeta.
    rewrite (digits_decimal (d :: ds) 0 rest Hds Hrest).
    change (fold_left (fun a d0 => a * 10 + d0) (d :: ds) 0)
      with (decimal_value (d :: ds)).
    cbn [decimal map app]. rewrite Hdig.
    destruct sg; reflexivity. }
  unfold strtol. destruct sg; cbn [sign_chars app].
  - rewrite skip_space_head
      by (cbn [decimal map app nth]; apply digit_not_space; exact Hd).
    cbn [decimal map app].
    rewrite no_sign_split by lia. apply (Hbody _).
  - cbn [skip_space isspace Z.eqb Z.leb Z.compare Pos.compare Pos.compare_cont
           orb andb]. apply (Hbody _).
  - cbn [skip_space isspace Z.eqb Z.leb Z.compare Pos.compare Pos.compare_cont
           orb andb]. apply (Hbody _).
Qed.

(** X3: [str2int] accepts an optional sign followed by one or more decimal
    digits and then the end of the string, when the number fits an [int]:
    it returns 0 and stores the number. *)
Theorem str2int_accepts (out : Z) (sg : sign) (ds : list Z) (rest : bytes) :
  ds <> [] -> digit_list ds -> nth 0 rest 0 = 0 ->
  INT_MIN <= signed sg (decimal_value ds) <= INT_MAX ->
  str2int out (sign_chars sg ++ decimal ds ++ rest)
  = (0, signed sg (decimal_value ds)).
Proof.
  intros Hne Hds Hrest Hrange. destruct ds as [|d ds]; [contradiction|].
  pose proof Hds as Hds'. apply Forall_cons in Hds' as [Hd _].
  unfold str2int.
  assert (Hhead : (nth 0 (sign_chars sg ++ decimal (d :: ds) ++ rest) 0 =? 0)
                  || isspace (nth 0 (sign_chars sg ++ decimal (d :: ds) ++ rest) 0)
                  = false).
  { destruct sg; cbn [sign_chars app decimal map nth]; try reflexivity.
    rewrite digit_not_space by exact Hd.
    replace (48 + d =? 0) with false by (symmetry; apply Z.eqb_neq; lia).
    reflexivity. }
  cbv zeta. rewrite Hhead.
  rewrite strtol_decimal by (try assumption; rewrite Hrest; reflexivity).
  cbv zeta. unfold INT_MIN, INT_MAX, LONG_MAX, LONG_MIN in *.
  set (v := signed sg (decimal_value (d :: ds))) in *.
  destruct (Z.gtb_spec v (2 ^ 63 - 1)); [lia|].
  destruct (Z.ltb_spec v (- 2 ^ 63)); [lia|].
  destruct (Z.gtb_spec v (2 ^ 31 - 1)); [lia|].
  destruct (Z.ltb_spec v (- 2 ^ 31)); [lia|].
  cbn [andb orb]. rewrite Hrest. reflexivity.
Qed.

Lemma str2int_accepts_witness :
  str2int 3636 (str "4000") = (0, 4000) /\
  str2int 3636 (str "-12") = (0, -12).
Proof.
  split.
  - apply (str2int_accepts 3636 NoSign [4; 0; 0; 0] []).
    + discriminate.
    + repeat constructor; lia.
    + reflexivity.
    + vm_compute. split; discriminate.
  - apply (str2int_accepts 3636 Minus [1; 2] []).
    + discriminate.
    + repeat constructor; lia.
    + reflexivity.
    + vm_compute. split; discriminate.
Defined.

(** [strtol] where no digit follows the optional sign: nothing is
    converted and [end] is the start of the string. *)
Lemma strtol_no_digits (sg : sign) (body : bytes) :
  isdigit (nth 0 body 0) = false ->
  (sg = NoSign ->
   nth 0 body 0 <> 43 /\ nth 0 body 0 <> 45 /\ isspace (nth 0 body 0) = false) ->
  strtol (sign_chars sg ++ body) = (0, sign_chars sg ++ body, false).
Proof.
  intros Hdig Hns. unfold strtol. destruct sg; cbn [sign_chars app].
  - destruct (Hns eq_refl) as (H43 & H45 & Hsp).
    rewrite skip_space_head by exact Hsp.
    destruct body as [|c body]; [reflexivity|]. cbn [nth] in *.
    rewrite no_sign_split by assumption. rewrite Hdig. reflexivity.
  - cbn [skip_space]. change (isspace 43) with false. cbv iota.
    destruct body as [|c body]; [reflexivity|]. cbn [nth] in Hdig.
    rewrite Hdig. reflexivity.
  - cbn [skip_space]. change (isspace 45) with false. cbv iota.
    destruct body as [|c body]; [reflexivity|]. cbn [nth] in Hdig.
    rewrite Hdig. reflexivity.
Qed.

Lemma sign_body (c : Z) (s : bytes) :
  exists sg body,
    c :: s = sign_chars sg ++ body /\
    (sg = NoSign -> nth 0 body 0 <> 43 /\ nth 0 body 0 <> 45 /\ nth 0 body 0 = c).
Proof.
  destruct (Z.eq_dec c 43) as [->|H43]; [exists Plus, s; split; [reflexivity|discriminate]|].
  destruct (Z.eq_dec c 45) as [->|H45]; [exists Minus, s; split; [reflexivity|discriminate]|].
  exists NoSign, (c :: s). split; [reflexivity|]. intros _. cbn [nth]. tauto.
Qed.

(** X4: whatever the string, [str2int] either returns 0, in which case the
    string is an optional sign, one or more decimal digits and the end of
    the string, and the number stored is their value, within the range of
    [int]; or it returns -1 and leaves [*out] as it was.  So an empty
    string, leading white space, a lone sign, trailing characters and
    out-of-range numbers are all refused. *)
Theorem str2int_classified (out : Z) (s : bytes) :
  (exists sg ds rest,
     s = sign_chars sg ++ decimal ds ++ rest /\
     ds <> [] /\ digit_list ds /\ nth 0 rest 0 = 0 /\
     INT_MIN <= signed sg (decimal_value ds) <= INT_MAX /\
     str2int out s = (0, signed sg (decimal_value ds))) \/
  str2int out s = (-1, out).
Proof.
  destruct s as [|c s]; [right; reflexivity|].
  destruct ((c =? 0) || isspace c) eqn:Hhead.
  { right. unfold str2int. cbn [nth]. rewrite Hhead. reflexivity. }
  apply orb_false_iff in Hhead as [Hc0 Hsp]. apply Z.eqb_neq in Hc0.
  destruct (sign_body c s) as (sg & body & Hs & Hns).
  destruct (digits_fold body 0) as (ds & rest & _ & Hbody & Hds & Hrest).
  assert (Hfirst : (nth 0 (c :: s) 0 =? 0) || isspace (nth 0 (c :: s) 0) = false).
  { cbn [nth]. rewrite Hsp. apply Z.eqb_neq in Hc0. rewrite Hc0. reflexivity. }
  destruct ds as [|d ds].
  - (* no digit: nothing is converted *)
    right. cbn [decimal map app] in Hbody. subst rest.
    unfold str2int. cbv zeta. rewrite Hfirst, Hs.
    rewrite strtol_no_digits.
    + rewrite <- Hs. cbn [nth]. apply Z.eqb_neq in Hc0. rewrite Hc0. reflexivity.
    + exact Hrest.
    + intros Hsg. destruct (Hns Hsg) as (H43 & H45 & Hnth).
      split; [exact H43|]. split; [exact H45|]. rewrite Hnth. exact Hsp.
  - unfold str2int. cbv zeta. rewrite Hfirst, Hs, Hbody.
    rewrite strtol_decimal by assumption. cbv zeta.
    set (v := signed sg (decimal_value (d :: ds))).
    unfold INT_MIN, INT_MAX, LONG_MAX, LONG_MIN.
    destruct (Z.gtb_spec v (2 ^ 63 - 1)); [right; reflexivity|].
    destruct (Z.ltb_spec v (- 2 ^ 63)); [right; reflexivity|].
    destruct (Z.gtb_spec v (2 ^ 31 - 1)); [right; reflexivity|].
    destruct (Z.ltb_spec v (- 2 ^ 31)); [right; reflexivity|].
    cbn [andb orb].
    destruct (Z.eqb_spec (nth 0 rest 0) 0) as [Hend|Hend]; [|right; reflexivity].
    left. exists sg, (d :: ds), rest. cbn [negb].
    repeat split; try assumption; try discriminate; fold v; lia.
Qed.
(** ** Argument parsing, the other cases *)

Lemma strcmp_eq_literal a (lit : bytes) :
  nul_free lit -> (strcmp a lit =? 0) = true <-> c_str a = lit.
Proof.
  intros Hlit. rewrite Z.eqb_eq, strcmp_zero_iff, (c_str_id lit) by assumption.
  reflexivity.
Qed.

Lemma nul_free_str_p : nul_free (str "-p").
Proof. repeat constructor; discriminate. Qed.

Lemma canonical_name argv :
  c_str (arg argv 0) = str "client" \/ c_str (arg argv 0) = str "./client" ->
  (strcmp (arg argv 0) PRG_NAME =? 0)
  || (strcmp (arg argv 0) (str "./" ++ PRG_NAME) =? 0) = true.
Proof.
  intros [H|H]; apply orb_true_iff; [left|right].
  - apply (strcmp_eq_literal _ _ nul_free_str_client). exact H.
  - apply (strcmp_eq_literal _ _ nul_free_str_dot_client). exact H.
Qed.

(** X5: whenever [parse_args] returns (instead of printing the usage and
    exiting), it has printed nothing, at least one argument is left, the
    new count is the length of the new vector, and the result is one of
    three, decided by the invocation name and the first argument: under
    another name than ["client"] or ["./client"], nothing is dropped and
    the port is 3636; under one of these names without ["-p"], the name
    alone is dropped and the port is 3636; under one of these names with
    ["-p"], the three leading entries are dropped and the port is the
    value [str2int] stored for the third entry, which it accepted and
    which lies between 0 and 65535. *)
Theorem parse_args_result (argv : list bytes) (na : Z) (nv : list bytes)
    (port : Z) (t : list event) :
  parse_args (Z.of_nat (length argv)) argv = (Return (na, nv, port), t) ->
  t = [] /\
  1 <= na /\
  na = Z.of_nat (length nv) /\
  0 <= port <= 65535 /\
  exists k : nat,
    nv = drop k argv /\
    na = Z.of_nat (length argv) - Z.of_nat k /\
    ((k = 0%nat /\ port = 3636 /\
      c_str (arg argv 0) <> str "client" /\
      c_str (arg argv 0) <> str "./client") \/
     (k = 1%nat /\ port = 3636 /\
      (c_str (arg argv 0) = str "client" \/ c_str (arg argv 0) = str "./client") /\
      c_str (arg argv 1) <> str "-p") \/
     (k = 3%nat /\ port = snd (str2int 3636 (arg argv 2)) /\
      (c_str (arg argv 0) = str "client" \/ c_str (arg argv 0) = str "./client") /\
      c_str (arg argv 1) = str "-p" /\
      0 <= fst (str2int 3636 (arg argv 2)))).
Proof.
  unfold parse_args, usage.
  destruct (Z.ltb_spec (Z.of_nat (length argv)) 2) as [|Hargc]; [discriminate|].
  destruct ((strcmp (arg argv 0) PRG_NAME =? 0)
            || (strcmp (arg argv 0) (str "./" ++ PRG_NAME) =? 0)) eqn:Hname.
  - assert (Hcanon : c_str (arg argv 0) = str "client"
                     \/ c_str (arg argv 0) = str "./client").
    { apply orb_true_iff in Hname as [H|H]; [left|right].
      - apply (strcmp_eq_literal _ _ nul_free_str_client). exact H.
      - apply (strcmp_eq_literal _ _ nul_free_str_dot_client). exact H. }
    destruct (strcmp (arg argv 1) (str "-p") =? 0) eqn:Hp.
    + apply (strcmp_eq_literal _ _ nul_free_str_p) in Hp.
      destruct (Z.ltb_spec (Z.of_nat (length argv)) 4) as [|Hargc4]; [discriminate|].
      change SV_DEFAULT_PORT with 3636.
      destruct (str2int 3636 (arg argv 2)) as [r p] eqn:Hs.
      destruct ((r <? 0) || ((p <? 0) || (p >? 65535))) eqn:Hbad; [discriminate|].
      intros H. injection H as <- <- <- <-.
      apply orb_false_iff in Hbad as [Hr Hbad].
      apply orb_false_iff in Hbad as [Hlo Hhi].
      apply Z.ltb_ge in Hr, Hlo. rewrite Z.gtb_ltb in Hhi. apply Z.ltb_ge in Hhi.
      rewrite length_drop.
      split; [reflexivity|]. split; [lia|]. split; [lia|]. split; [lia|].
      exists 3%nat. split; [reflexivity|]. split; [lia|].
      right; right. cbn [fst snd]. repeat split; assumption.
    + apply (strcmp_literal _ _ nul_free_str_p) in Hp.
      intros H. injection H as <- <- <- <-.
      rewrite length_drop. unfold SV_DEFAULT_PORT.
      split; [reflexivity|]. split; [lia|]. split; [lia|]. split; [lia|].
      exists 1%nat. split; [reflexivity|]. split; [lia|].
      right; left. repeat split; assumption.
  - apply orb_false_iff in Hname as [Hn1 Hn2].
    apply (strcmp_literal _ _ nul_free_str_client) in Hn1.
    apply (strcmp_literal _ _ nul_free_str_dot_client) in Hn2.
    intros H. injection H as <- <- <- <-.
    unfold SV_DEFAULT_PORT.
    split; [reflexivity|]. split; [lia|]. split; [lia|]. split; [lia|].
    exists 0%nat. split; [reflexivity|]. split; [lia|].
    left. repeat split; assumption.
Qed.

Lemma parse_args_result_witness :
  let argv := [str "./client"; str "-p"; str "65535"; str "ls"] in
  parse_args (Z.of_nat (length argv)) argv = (Return (1, [str "ls"], 65535), []) /\
  exists k : nat,
    [str "ls"] = drop k argv /\ 1 = Z.of_nat (length argv) - Z.of_nat k.
Proof.
  intros argv.
  assert (H : parse_args (Z.of_nat (length argv)) argv
              = (Return (1, [str "ls"], 65535), [])) by reflexivity.
  destruct (parse_args_result argv 1 [str "ls"] 65535 [] H)
    as (_ & _ & _ & _ & k & Hnv & Hna & _).
  split; [exact H|]. exists k. split; [exact Hnv|exact Hna].
Defined.

(** X6: under the canonical name (["client"] or ["./client"]), with at
    least one argument: when the first argument is not ["-p"], only the
    invocation name is dropped and the port is the default 3636; when it
    is ["-p"], at least two more arguments follow and the value parses to
    a port between 0 and 65535, the three leading entries are dropped and
    that port is used; when it is ["-p"] and fewer than four entries are
    given, or the value does not parse, or is out of range, the process
    exits with a failure status. *)
Theorem parse_args_canonical (argc : Z) (argv : list bytes) :
  2 <= argc ->
  c_str (arg argv 0) = str "client" \/ c_str (arg argv 0) = str "./client" ->
  (c_str (arg argv 1) <> str "-p" ->
   parse_args argc argv = (Return (argc - 1, drop 1 argv, 3636), [])) /\
  (c_str (arg argv 1) = str "-p" ->
   (4 <= argc /\
    0 <= fst (str2int 3636 (arg argv 2)) /\
    0 <= snd (str2int 3636 (arg argv 2)) <= 65535 /\
    parse_args argc argv
    = (Return (argc - 3, drop 3 argv, snd (str2int 3636 (arg argv 2))), [])) \/
   ((argc < 4 \/ fst (str2int 3636 (arg argv 2)) < 0 \/
     snd (str2int 3636 (arg argv 2)) < 0 \/
     65535 < snd (str2int 3636 (arg argv 2))) /\
    fst (parse_args argc argv) = Exit EXIT_FAILURE)).
Proof.
  intros Hargc Hname. apply canonical_name in Hname.
  unfold parse_args, usage. unfold PRG_NAME in *.
  destruct (Z.ltb_spec argc 2); [lia|]. rewrite Hname.
  split.
  - intros Hp. apply (strcmp_literal _ _ nul_free_str_p) in Hp.
    rewrite Hp. reflexivity.
  - intros Hp. apply (strcmp_eq_literal _ _ nul_free_str_p) in Hp.
    rewrite Hp.
    destruct (Z.ltb_spec argc 4) as [Hlt|Hge].
    { right. split; [left; exact Hlt|reflexivity]. }
    change SV_DEFAULT_PORT with 3636.
    destruct (str2int 3636 (arg argv 2)) as [r p]. cbn [fst snd].
    destruct (Z.ltb_spec r 0) as [Hr|Hr]; cbn [orb].
    { right. split; [right; left; exact Hr|reflexivity]. }
    destruct (Z.ltb_spec p 0) as [Hlo|Hlo]; cbn [orb].
    { right. split; [right; right; left; exact Hlo|reflexivity]. }
    destruct (Z.gtb_spec p 65535) as [Hhi|Hhi].
    { right. split; [right; right; right; exact Hhi|reflexivity]. }
    left. split; [exact Hge|]. split; [exact Hr|]. split; [lia|reflexivity].
Qed.

Lemma parse_args_canonical_witness :
  let argv := [str "client"; str "-p"; str "8080"; str "make"; str "-j4"] in
  parse_args 5 argv = (Return (2, [str "make"; str "-j4"], 8080), []) /\
  parse_args 3 [str "./client"; str "ls"; str "-p"]
  = (Return (2, [str "ls"; str "-p"], 3636), []).
Proof.
  intros argv. split.
  - assert (Hargc : 2 <= 5) by lia.
    assert (Hname : c_str (arg argv 0) = str "client"
                    \/ c_str (arg argv 0) = str "./client") by (left; reflexivity).
    destruct (proj2 (parse_args_canonical 5 argv Hargc Hname) eq_refl)
      as [(_ & _ & _ & H)|(_ & H)]; [exact H|discriminate H].
  - assert (Hargc : 2 <= 3) by lia.
    apply (parse_args_canonical 3 [str "./client"; str "ls"; str "-p"] Hargc).
    + right. reflexivity.
    + discriminate.
Defined.

Lemma parse_args_exit_trace argc argv st t :
  parse_args argc argv = (Exit st, t) ->
  st = EXIT_FAILURE /\
  (t = [EvStderr (MsgUsage (arg argv 0))] \/
   t = [EvStderr (MsgInvalidPort (arg argv 2)); EvStderr (MsgUsage (arg argv 0))]).
Proof.
  unfold parse_args, usage.
  destruct (argc <? 2).
  { intros H. injection H as <- <-. split; [reflexivity|left; reflexivity]. }
  destruct ((strcmp (arg argv 0) PRG_NAME =? 0)
            || (strcmp (arg argv 0) (str "./" ++ PRG_NAME) =? 0)); [|discriminate].
  destruct (strcmp (arg argv 1) (str "-p") =? 0); [|discriminate].
  destruct (argc <? 4).
  { intros H. injection H as <- <-. split; [reflexivity|left; reflexivity]. }
  destruct (str2int SV_DEFAULT_PORT (arg argv 2)) as [r p].
  destruct ((r <? 0) || ((p <? 0) || (p >? 65535))); [|discriminate].
  intros H. injection H as <- <-. split; [reflexivity|right; reflexivity].
Qed.

(** X7: a usage error comes before every system call: when [parse_args]
    refuses the command line, [main] exits with a failure status whatever
    the environment, having printed the usage text (after the
    invalid-port message, for a bad port) and done nothing else: no
    socket is created, nothing is connected or sent. *)
Theorem usage_error_before_any_call (e : env) (argv : list bytes) (st : Z)
    (t : list event) :
  parse_args (Z.of_nat (length argv)) argv = (Exit st, t) ->
  main e argv = (Exit EXIT_FAILURE, t) /\
  (t = [EvStderr (MsgUsage (arg argv 0))] \/
   t = [EvStderr (MsgInvalidPort (arg argv 2)); EvStderr (MsgUsage (arg argv 0))]).
Proof.
  intros Hp. destruct (parse_args_exit_trace _ _ _ _ Hp) as [-> Ht].
  split; [|exact Ht].
  unfold main, establish. rewrite Hp. reflexivity.
Qed.

Lemma usage_error_before_any_call_witness :
  main example_env [str "client"; str "-p"; str "70000"; str "echo"; str "hi"]
  = (Exit EXIT_FAILURE,
     [EvStderr (MsgInvalidPort (str "70000")); EvStderr (MsgUsage (str "client"))]).
Proof.
  apply (usage_error_before_any_call example_env
           [str "client"; str "-p"; str "70000"; str "echo"; str "hi"]
           EXIT_FAILURE).
  reflexivity.
Defined.

(** X8: a failure of [getcwd] or of [calloc] is fatal before any socket is
    created: with a command line that [parse_args] accepts, [main] prints
    its message and exits with a failure status, and that is all it
    does. *)
Theorem prepare_failure_fatal (e : env) (argv : list bytes) (na : Z)
    (nv : list bytes) (port : Z) :
  parse_args (Z.of_nat (length argv)) argv = (Return (na, nv, port), []) ->
  env_cwd e = None \/ env_calloc e = false ->
  main e argv = (Exit EXIT_FAILURE, [EvStderr MsgPrepare]).
Proof.
  intros Hp Hfail. unfold main, establish. rewrite Hp. cbn [bind].
  unfold prepare_data.
  destruct (env_cwd e) as [cwd|] eqn:Hcwd.
  - destruct Hfail as [Hfail|Hfail]; [discriminate|]. rewrite Hfail. reflexivity.
  - reflexivity.
Qed.

Lemma prepare_failure_fatal_witness :
  main (with_prepare example_env None true) example_argv
    = (Exit EXIT_FAILURE, [EvStderr MsgPrepare]) /\
  main (with_prepare example_env (Some (str "/tmp")) false) example_argv
    = (Exit EXIT_FAILURE, [EvStderr MsgPrepare]).
Proof.
  split.
  - apply (prepare_failure_fatal (with_prepare example_env None true) example_argv
             2 [str "echo"; str "hello"] 4000); [reflexivity|left; reflexivity].
  - apply (prepare_failure_fatal
             (with_prepare example_env (Some (str "/tmp")) false) example_argv
             2 [str "echo"; str "hello"] 4000); [reflexivity|right; reflexivity].
Defined.

(** ** The marshaller's buffer *)

(** X9: whenever [prepare_data] returns a length (rather than -1), also
    when the strings hold embedded NUL bytes or the 32-bit sum has wrapped,
    the buffer it allocated and filled is exactly one byte longer than the
    length it returns and declares, so the bytes [main] hands to
    [send_all] all lie inside the allocation; the two header fields are
    four bytes each and the second spells the returned length. *)
Theorem prepare_data_buffer (cwd : option bytes) (calloc_ok : bool) (argc : Z)
    (argv : list bytes) (rd : run_data) (amnt : Z) :
  prepare_data cwd calloc_ok argc argv = Some (rd, amnt) ->
  0 <= amnt ->
  Z.of_nat (length (rd_cwd_argv rd)) = amnt + 1 /\
  amnt + 1 < 2 ^ 32 /\
  length (rd_argc rd) = 4%nat /\
  length (rd_amt_bytes rd) = 4%nat /\
  be_value (rd_amt_bytes rd) = amnt.
Proof.
  unfold prepare_data. cbv zeta.
  destruct cwd as [cwd|]; [|intros H; injection H as <- <-; lia].
  destruct calloc_ok; cbn [negb]; [|intros H; injection H as <- <-; lia].
  match goal with
  | |- context [calloc (to_uint32 (?a + 1))] => set (total := a)
  end.
  destruct (strcpy (calloc (to_uint32 (total + 1))) 0 cwd) as [buf1|] eqn:Hcpy;
    [|discriminate].
  destruct (copy_args buf1 _ _) as [buf2|] eqn:Hargs; [|discriminate].
  intros H _. injection H as <- <-. cbn [rd_argc rd_amt_bytes rd_cwd_argv].
  assert (Htot : 0 <= total < 2 ^ 32) by (apply Z.mod_pos_bound; lia).
  apply copy_args_length in Hargs. pose proof Hcpy as Hlen.
  apply strcpy_length in Hlen.
  unfold calloc in Hlen. rewrite length_replicate in Hlen.
  unfold strcpy in Hcpy. cbv zeta in Hcpy.
  destruct (Nat.leb_spec (0 + length (c_str cwd ++ [0]))
              (length (calloc (to_uint32 (total + 1))))) as [Hle|];
    [|discriminate].
  unfold calloc in Hle. rewrite length_replicate, length_app in Hle.
  cbn [length] in Hle.
  assert (Hne : total + 1 <> 2 ^ 32).
  { intros Heq. unfold to_uint32 in Hle.
    rewrite Heq, Z.mod_same in Hle by lia. cbn in Hle. lia. }
  assert (Hsz : to_uint32 (total + 1) = total + 1)
    by (apply to_uint32_small; lia).
  rewrite Hsz in Hlen.
  split; [lia|]. split; [lia|]. split; [reflexivity|]. split; [reflexivity|].
  apply be_value_int32_to_msg. lia.
Qed.

Lemma prepare_data_buffer_witness :
  exists rd,
    prepare_data (Some (str "/")) true 2 [0 :: str "x"; str "a" ++ 0 :: str "b"]
      = Some (rd, 5) /\
    Z.of_nat (length (rd_cwd_argv rd)) = 6.
Proof.
  assert (H : prepare_data (Some (str "/")) true 2 [0 :: str "x"; str "a" ++ 0 :: str "b"]
              = Some ({| rd_argc := [0; 0; 0; 2]; rd_amt_bytes := [0; 0; 0; 5];
                         rd_cwd_argv := str "/" ++ [0; 0] ++ str "a" ++ [0; 0] |}, 5))
    by reflexivity.
  eexists. split; [exact H|].
  assert (H5 : 0 <= 5) by lia.
  exact (proj1 (prepare_data_buffer _ _ _ _ _ _ H H5)).
Defined.

(** ** The send loop, whatever its outcome *)

Lemma send_loop_prefix answers : forall conn buf p len,
  0 <= p -> 0 <= len -> p + len <= Z.of_nat (length buf) -> len < 2 ^ 64 ->
  Forall send_contract (snd (send_loop conn buf p len answers)) ->
  exists k, 0 <= k <= len /\
    transmitted conn (snd (send_loop conn buf p len answers)) = offered buf p k /\
    (fst (send_loop conn buf p len answers) = Return 0 -> k = len).
Proof.
  induction answers as [|r answers IH]; intros conn buf p len Hp Hlen Hfit Hsz Hc;
    cbn [send_loop] in *.
  - exists 0. split; [lia|]. split.
    + destruct (len =? 0); unfold offered; cbn [snd ret blocked transmitted Z.to_nat];
        rewrite take_0; reflexivity.
    + destruct (Z.eqb_spec len 0); [lia|discriminate].
  - destruct (Z.eqb_spec len 0) as [->|Hne].
    { exists 0. split; [lia|]. split; [|reflexivity].
      unfold offered. cbn. rewrite take_0. reflexivity. }
    rewrite bind_emit in *. cbn [fst snd] in *.
    apply Forall_cons in Hc as [Hr Hc]. cbn [send_contract] in Hr.
    rewrite offered_length in Hr by lia.
    destruct (Z.eqb_spec r (-1)) as [->|Hr1].
    { exists 0. split; [lia|]. split; [|discriminate].
      cbn. unfold offered. cbn [Z.to_nat]. rewrite take_0, andb_false_r. reflexivity. }
    destruct Hr as [Hr|Hr]; [contradiction|].
    assert (Hlen' : to_size_t (len - r) = len - r)
      by (unfold to_size_t; apply Z.mod_small; lia).
    rewrite Hlen' in *.
    destruct (IH conn buf (p + r) (len - r)) as (k & Hk & Ht & Hall);
      try lia; try assumption.
    exists (r + k). split; [lia|]. split.
    + cbn [transmitted]. rewrite Z.eqb_refl.
      destruct (Z.leb_spec 0 r); [|lia]. cbn [andb]. rewrite Ht.
      rewrite (offered_split buf p (r + k) r) by lia.
      replace (r + k - r) with k by lia. f_equal.
      unfold offered. rewrite !take_take. f_equal. lia.
    + intros Ho. specialize (Hall Ho). lia.
Qed.

(** X10: whatever way [send_all] ends (success, failure, or a [send] that
    never returns), the bytes it has put on the wire are a prefix of the
    buffer: nothing is sent twice, skipped or reordered; and on success the
    prefix is the whole of the [len] bytes. *)
Theorem send_all_prefix (conn : Z) (buf : bytes) (len : Z) (answers : list Z) :
  0 <= len <= Z.of_nat (length buf) ->
  len < 2 ^ 64 ->
  Forall send_contract (snd (send_all conn buf len answers)) ->
  exists k, 0 <= k <= len /\
    transmitted conn (snd (send_all conn buf len answers)) = take (Z.to_nat k) buf /\
    (fst (send_all conn buf len answers) = Return 0 -> k = len).
Proof.
  intros Hlen Hsz Hc. unfold send_all in *.
  destruct (Z.ltb_spec conn 0).
  - exists 0. split; [lia|]. split; [reflexivity|discriminate].
  - destruct (send_loop_prefix answers conn buf 0 len) as (k & Hk & Ht & Hall);
      try lia; try assumption.
    exists k. split; [exact Hk|]. split; [|exact Hall].
    rewrite Ht. unfold offered. cbn [Z.to_nat]. rewrite drop_0. reflexivity.
Qed.

Lemma send_all_prefix_witness :
  exists k, 0 <= k <= 5 /\
    transmitted 3 (snd (send_all 3 (str "hello") 5 [2; 1; -1]))
      = take (Z.to_nat k) (str "hello").
Proof.
  assert (Hlen : 0 <= 5 <= Z.of_nat (length (str "hello"))) by (simpl; lia).
  assert (Hsz : 5 < 2 ^ 64) by lia.
  assert (Hc : Forall send_contract (snd (send_all 3 (str "hello") 5 [2; 1; -1])))
    by (repeat constructor; simpl; lia).
  destruct (send_all_prefix 3 (str "hello") 5 [2; 1; -1] Hlen Hsz Hc)
    as (k & Hk & Ht & _).
  exists k. split; [exact Hk|exact Ht].
Defined.
(** ** The set-up phase of [main] *)

(** What comes after the set-up phase (the relay loop and the reading of
    the status) makes calls of six kinds only. *)
Section TailEvents.
Variable P : event -> Prop.
Hypothesis Ppoll : forall f r, P (EvPoll f r).
Hypothesis Pread : forall f c r, P (EvRead f c r).
Hypothesis Pwrite : forall f c r, P (EvWrite f c r).
Hypothesis Pshutdown : forall f, P (EvShutdown f).
Hypothesis Pclose : forall f, P (EvClose f).
Hypothesis Precv : forall f c r, P (EvRecv f c r).

Lemma handle_poll_event_all pfd out_fd is_sock amnt wret :
  Forall P (snd (handle_poll_event pfd out_fd is_sock amnt wret)).
Proof.
  unfold handle_poll_event. rewrite bind_emit. cbn [snd].
  constructor; [apply Pread|].
  destruct (amnt <=? 0).
  - rewrite !bind_emit. cbn [snd ret]. repeat constructor; auto.
  - rewrite bind_emit. cbn [snd].
    constructor; [apply Pwrite|]. destruct (negb (wret =? amnt)); constructor.
Qed.

Lemma relay_body_all sock_stdin fds r :
  Forall P (snd (relay_body sock_stdin fds r)).
Proof.
  unfold relay_body.
  destruct (truthy (events_error fds 3)); [constructor|].
  apply bind_events.
  { destruct (truthy _); [|constructor].
    apply bind_events; [apply handle_poll_event_all|].
    intros [[rc eof] p]. constructor. }
  intros [brk fds1]. destruct brk; [constructor|].
  apply bind_events.
  { destruct (truthy _); [|constructor].
    apply bind_events; [apply handle_poll_event_all|].
    intros [[rc eof] p]. constructor. }
  intros [brk fds2]. destruct brk; [constructor|].
  destruct (truthy _); [|constructor].
  apply bind_events; [apply handle_poll_event_all|].
  intros [[rc eof] p]. constructor.
Qed.

Lemma relay_loop_all rounds : forall sock_stdin fds,
  Forall P (snd (relay_loop sock_stdin fds rounds)).
Proof.
  induction rounds as [|r rounds IH]; intros sock_stdin fds; cbn [relay_loop];
    [constructor|].
  apply bind_events.
  { unfold poll. rewrite bind_emit. cbn [snd ret]. repeat constructor. apply Ppoll. }
  intros [pr fds1]. destruct (pr =? -1); [constructor|].
  apply bind_events; [apply relay_body_all|].
  intros [brk fds2]. destruct brk; [constructor|apply IH].
Qed.

Lemma read_status_all e s fds : Forall P (snd (read_status e s fds)).
Proof.
  unfold read_status. cbv zeta. rewrite !bind_emit. cbn [snd].
  constructor; [apply Precv|]. constructor; [apply Pclose|].
  repeat (apply bind_events;
          [match goal with |- context [if ?b then _ else _] => destruct b end;
           repeat constructor; apply Pclose|intros _]).
  constructor.
Qed.

Lemma main_tail_all e s :
  Forall P (snd (bind (relay_loop (sock_stdin s) (initial_fds s) (env_rounds e))
                      (fun fds => read_status e s fds))).
Proof.
  apply bind_events; [apply relay_loop_all|]. intros fds. apply read_status_all.
Qed.
End TailEvents.

Lemma main_tail_no_setup e s :
  Forall (fun ev => ~ is_setup_event ev)
         (snd (bind (relay_loop (sock_stdin s) (initial_fds s) (env_rounds e))
                    (fun fds => read_status e s fds))).
Proof. apply main_tail_all; cbn; tauto. Qed.

Lemma no_setup_connect_ports t :
  Forall (fun ev => ~ is_setup_event ev) t -> connect_ports t = [].
Proof.
  induction 1 as [|ev t Hev _ IH]; [reflexivity|].
  destruct ev; cbn in *; tauto.
Qed.

Lemma no_setup_transmitted q t :
  Forall (fun ev => ~ is_setup_event ev) t -> transmitted q t = [].
Proof.
  induction 1 as [|ev t Hev _ IH]; [reflexivity|].
  destruct ev; cbn in *; tauto.
Qed.

(** How [main] ends, from how its set-up phase ends. *)
Lemma main_of_establish e argv :
  (exists s t1 o2 t2,
     establish e argv = (Return s, t1) /\
     main e argv = (o2, t1 ++ t2) /\
     Forall (fun ev => ~ is_setup_event ev) t2) \/
  (exists t1,
     (establish e argv = (Exit EXIT_FAILURE, t1) /\ main e argv = (Exit EXIT_FAILURE, t1)) \/
     (establish e argv = (Blocked, t1) /\ main e argv = (Blocked, t1)) \/
     (establish e argv = (Undefined, t1) /\ main e argv = (Undefined, t1)) \/
     (exists st, st <> EXIT_FAILURE /\ establish e argv = (Exit st, t1))).
Proof.
  unfold main.
  destruct (establish e argv) as [[s| st | |] t1] eqn:Hest; cbn [bind].
  - left. pose proof (main_tail_no_setup e s) as Htail.
    destruct (bind _ _) as [o2 t2]. cbn [snd] in Htail.
    exists s, t1, o2, t2. repeat split; assumption.
  - right. exists t1. destruct (Z.eq_dec st EXIT_FAILURE) as [->|Hst].
    + left. split; reflexivity.
    + right; right; right. exists st. split; [exact Hst|reflexivity].
  - right. exists t1. right; left. split; reflexivity.
  - right. exists t1. right; right; left. split; reflexivity.
Qed.

Lemma main_trace_of_establish e argv :
  exists t2, snd (main e argv) = snd (establish e argv) ++ t2 /\
             Forall (fun ev => ~ is_setup_event ev) t2.
Proof.
  destruct (main_of_establish e argv)
    as [(s & t1 & o2 & t2 & -> & -> & Ht2)
       |(t1 & [(-> & ->)|[(-> & ->)|[(-> & ->)|(st & Hst & Hest)]]])];
    cbn [snd].
  - exists t2. split; [reflexivity|exact Ht2].
  - exists []. split; [symmetry; apply app_nil_r|constructor].
  - exists []. split; [symmetry; apply app_nil_r|constructor].
  - exists []. split; [symmetry; apply app_nil_r|constructor].
  - unfold main. rewrite Hest. cbn [bind snd].
    exists []. split; [symmetry; apply app_nil_r|constructor].
Qed.

Lemma main_setup_event e argv ev :
  is_setup_event ev -> In ev (snd (main e argv)) -> In ev (snd (establish e argv)).
Proof.
  intros Hev Hin. destruct (main_trace_of_establish e argv) as (t2 & Heq & Ht2).
  rewrite Heq in Hin. apply in_app_or in Hin as [Hin|Hin]; [exact Hin|].
  exfalso. exact (in_forall_not _ _ Ht2 Hin Hev).
Qed.

Lemma main_contract_establish e argv :
  Forall send_contract (snd (main e argv)) ->
  Forall send_contract (snd (establish e argv)).
Proof.
  intros Hc. destruct (main_trace_of_establish e argv) as (t2 & Heq & _).
  rewrite Heq in Hc. apply Forall_app in Hc. tauto.
Qed.

Lemma main_establish_exit e argv :
  fst (establish e argv) = Exit EXIT_FAILURE ->
  main e argv = (Exit EXIT_FAILURE, snd (establish e argv)).
Proof.
  unfold main. destruct (establish e argv) as [o t]. cbn [fst snd].
  intros ->. reflexivity.
Qed.

(** A trace that ends with the given events. *)
Lemma ends_with_here {A} (s : list A) : exists pre, s = pre ++ s.
Proof. exists []. reflexivity. Qed.

Lemma ends_with_cons {A} (x : A) (l s : list A) :
  (exists pre, l = pre ++ s) -> exists pre, x :: l = pre ++ s.
Proof. intros [pre ->]. exists (x :: pre). reflexivity. Qed.

Lemma ends_with_app {A} (l1 l2 s : list A) :
  (exists pre, l2 = pre ++ s) -> exists pre, l1 ++ l2 = pre ++ s.
Proof. intros [pre ->]. exists (l1 ++ pre). apply app_assoc. Qed.

Ltac ends_with :=
  cbn [app]; rewrite <- ?app_assoc; cbn [app];
  repeat first [ apply ends_with_here
               | apply ends_with_cons
               | apply ends_with_app ].

Lemma in_sends_not_socket t r :
  Forall is_send t -> In (EvSocket r) t -> False.
Proof. intros H Hin. rewrite List.Forall_forall in H. exact (H _ Hin). Qed.

(** Which [socket] call [Hin] speaks of. *)
Ltac which_socket Hin :=
  repeat match goal with
         | H : In _ (_ ++ _) |- _ => apply in_app_or in H
         | H : In _ (_ :: _) |- _ => destruct H as [H|H]
         | H : In _ [] |- _ => destruct H
         | H : _ \/ _ |- _ => destruct H as [H|H]
         | H : EvConnect _ _ _ = EvSocket _ |- _ => discriminate H
         | H : EvStderr _ = EvSocket _ |- _ => discriminate H
         | H : In (EvSocket _) ?t, H' : Forall is_send ?t |- _ =>
             exfalso; exact (in_sends_not_socket _ _ H' H)
         | H : EvSocket _ = EvSocket _ |- _ => injection H as <-
         end;
  try lia.

(** The ports connected so far, in a trace of the set-up phase. *)
Ltac ports_so_far Hev1 Hev2 Hev3 :=
  cbn [connect_ports app channel_index];
  try change (upto 0) with (@nil Z); try change (upto 1) with [0];
  try change (upto 2) with [0; 1]; try change (upto 3) with [0; 1; 2];
  try change (upto 4) with [0; 1; 2; 3];
  rewrite ?connect_ports_app;
  rewrite ?(connect_ports_sends _ Hev1), ?(connect_ports_sends _ Hev2),
    ?(connect_ports_sends _ Hev3);
  cbn [map connect_ports app]; rewrite ?Z.add_0_r; reflexivity.

Lemma establish_socket_failure (e : env) (argv : list bytes) (r : Z) :
  In (EvSocket r) (snd (establish e argv)) ->
  r < 0 ->
  exists c base,
    fst (establish e argv) = Exit EXIT_FAILURE /\
    (exists pre, snd (establish e argv) = pre ++ [EvSocket r; EvStderr MsgSocket]) /\
    r = env_socket e c /\
    connect_ports (snd (establish e argv))
    = map (fun k => to_uint16 (base + k)) (upto (channel_index c)).
Proof.
  intros Hin Hr.
  destruct (establish e argv) as [o t] eqn:Hrun. cbn [fst snd] in *.
  unfold establish in Hrun.
  destruct (parse_args_cases (Z.of_nat (length argv)) argv)
    as [[[[na nv] base] Hp]|(tp & Hp & Htp)]; rewrite Hp in *.
  2: { cbn [bind] in Hrun. injection Hrun as <- <-. exfalso.
       destruct (parse_args_exit_trace _ _ _ _ Hp) as [_ [->| ->]];
         which_socket Hin; discriminate. }
  apply bind_return_eq in Hrun as (t' & Hrun & ->). cbn [app] in *.
  destruct (prepare_data (env_cwd e) (env_calloc e) na nv) as [[rd amnt]|] eqn:Hprep.
  2: { injection Hrun as <- <-. destruct Hin. }
  guard_stage Hrun Hamnt; [exfalso; which_socket Hin|].
  connect_stage Hrun Hs0.
  { which_socket Hin. exists Control, base. split; [reflexivity|].
    split; [ends_with|]. split; reflexivity. }
  guard_stage Hrun Hc0; [exfalso; which_socket Hin|].
  send_stage Hrun r1 ts1 Hev1 Hres1 Hoth1; try solve [exfalso; which_socket Hin].
  guard_stage Hrun Hr1; [exfalso; which_socket Hin|].
  send_stage Hrun r2 ts2 Hev2 Hres2 Hoth2; try solve [exfalso; which_socket Hin].
  guard_stage Hrun Hr2; [exfalso; which_socket Hin|].
  send_stage Hrun r3 ts3 Hev3 Hres3 Hoth3; try solve [exfalso; which_socket Hin].
  guard_stage Hrun Hr3; [exfalso; which_socket Hin|].
  connect_stage Hrun Hs1.
  { which_socket Hin. exists Stdout, base. split; [reflexivity|].
    split; [ends_with|]. split; [reflexivity|]. ports_so_far Hev1 Hev2 Hev3. }
  guard_stage Hrun Hc1; [exfalso; which_socket Hin|].
  connect_stage Hrun Hs2.
  { which_socket Hin. exists Stderr, base. split; [reflexivity|].
    split; [ends_with|]. split; [reflexivity|]. ports_so_far Hev1 Hev2 Hev3. }
  guard_stage Hrun Hc2; [exfalso; which_socket Hin|].
  connect_stage Hrun Hs3.
  { which_socket Hin. exists Stdin, base. split; [reflexivity|].
    split; [ends_with|]. split; [reflexivity|]. ports_so_far Hev1 Hev2 Hev3. }
  guard_stage Hrun Hc3; [exfalso; which_socket Hin|].
  injection Hrun as <- <-. exfalso. which_socket Hin.
Qed.

(** X12: a [socket] call that fails is fatal on the spot: in every run of
    [main], a failed [socket] is followed by its message and nothing else,
    the process exits with a failure status, and the connections made
    before it are those of the channels that precede the failing one, in
    order, on the base port and its successors. *)
Theorem socket_failure_fatal (e : env) (argv : list bytes) (r : Z) :
  In (EvSocket r) (snd (main e argv)) ->
  r < 0 ->
  exists c base,
    fst (main e argv) = Exit EXIT_FAILURE /\
    (exists pre, snd (main e argv) = pre ++ [EvSocket r; EvStderr MsgSocket]) /\
    r = env_socket e c /\
    connect_ports (snd (main e argv))
    = map (fun k => to_uint16 (base + k)) (upto (channel_index c)).
Proof.
  intros Hin Hr. apply main_setup_event in Hin; [|exact I].
  destruct (establish_socket_failure e argv r Hin Hr)
    as (c & base & Hfst & Hend & Hc & Hports).
  exists c, base. rewrite (main_establish_exit e argv Hfst). cbn [fst snd].
  repeat split; assumption.
Qed.

Lemma socket_failure_fatal_witness :
  let e := with_socket example_env (fun c => match c with Stderr => -1 | c => 3 + channel_index c end) in
  fst (main e example_argv) = Exit EXIT_FAILURE /\
  connect_ports (snd (main e example_argv)) = [4000; 4001].
Proof.
  intros e.
  assert (Hin : In (EvSocket (-1)) (snd (main e example_argv))) by (simpl; tauto).
  assert (Hr : -1 < 0) by lia.
  destruct (socket_failure_fatal e example_argv (-1) Hin Hr)
    as (c & base & Hfst & _ & _ & _).
  split; [exact Hfst|reflexivity].
Defined.

(** A [send] that fails is the last call of [send_all], which then
    returns -1. *)
Lemma send_loop_failed answers : forall conn buf p len s off,
  In (EvSend s off (-1)) (snd (send_loop conn buf p len answers)) ->
  fst (send_loop conn buf p len answers) = Return (-1) /\
  (exists pre, snd (send_loop conn buf p len answers) = pre ++ [EvSend s off (-1)]) /\
  s = conn.
Proof.
  induction answers as [|r answers IH]; intros conn buf p len s off;
    cbn [send_loop].
  - destruct (len =? 0); intros [].
  - destruct (len =? 0); [intros []|]. rewrite bind_emit. cbn [fst snd].
    destruct (Z.eqb_spec r (-1)) as [->|Hr].
    + cbn [ret fst snd]. intros [H|[]]. injection H as <- <-.
      split; [reflexivity|]. split; [exists []; reflexivity|reflexivity].
    + intros [H|H]; [injection H as _ _ H; contradiction|].
      destruct (IH _ _ _ _ _ _ H) as (Hfst & (pre & Hpre) & Hs).
      split; [exact Hfst|]. split; [|exact Hs].
      exists (EvSend conn (offered buf p len) r :: pre). rewrite Hpre. reflexivity.
Qed.

Lemma send_all_failed conn buf len answers s off :
  In (EvSend s off (-1)) (snd (send_all conn buf len answers)) ->
  fst (send_all conn buf len answers) = Return (-1) /\
  (exists pre, snd (send_all conn buf len answers) = pre ++ [EvSend s off (-1)]) /\
  s = conn.
Proof.
  unfold send_all. destruct (conn <? 0); [intros []|]. apply send_loop_failed.
Qed.

Ltac send_stage_failed Hrun rv ts Hev Hfail :=
  match type of Hrun with
  | bind (send_all ?c ?b ?l ?a) _ = _ =>
      pose proof (send_all_events c b l a) as Hev;
      pose proof (send_all_failed c b l a) as Hfail;
      let Hm := fresh "Hm" in
      destruct (send_all c b l a) as [? ?]; cbn [fst snd] in Hev, Hfail;
      apply bind_inv in Hrun
        as [(rv & ts & ? & Hm & Hrun & ->)
           |[(? & Hm & ->)|[(Hm & ->)|(Hm & ->)]]];
      injection Hm as -> ->
  end.

(** Which [send] call [Hin] speaks of. *)
Ltac which_send Hin :=
  repeat match goal with
         | H : In _ (_ ++ _) |- _ => apply in_app_or in H
         | H : In _ (_ :: _) |- _ => destruct H as [H|H]
         | H : In _ [] |- _ => destruct H
         | H : _ \/ _ |- _ => destruct H as [H|H]
         | H : EvConnect _ _ _ = EvSend _ _ _ |- _ => discriminate H
         | H : EvStderr _ = EvSend _ _ _ |- _ => discriminate H
         | H : EvSocket _ = EvSend _ _ _ |- _ => discriminate H
         | H : In (EvSend ?s ?off (-1)) ?t,
           H' : forall s off, In (EvSend s off (-1)) ?t -> _ |- _ =>
             let Hret := fresh "Hret" in
             let pre := fresh "pre" in
             let Hpre := fresh "Hpre" in
             let Hs := fresh "Hs" in
             destruct (H' _ _ H) as (Hret & (pre & Hpre) & Hs); clear H H';
             first [discriminate Hret | injection Hret as Hret; subst]
         end;
  try lia.

Ltac send_leaf f :=
  exists f; split; [reflexivity|]; split; [ends_with|]; split; [reflexivity|];
  split; [assumption|];
  repeat match goal with
         | H : Forall is_send (_ ++ _) |- _ => apply Forall_app in H as [? ?]
         end;
  cbn [connect_ports app]; rewrite ?connect_ports_app;
  repeat match goal with
         | H : Forall is_send ?t |- context [connect_ports ?t] =>
             rewrite (connect_ports_sends t H)
         end;
  cbn [connect_ports app]; reflexivity.

Lemma establish_send_failure (e : env) (argv : list bytes) (s : Z) (off : bytes) :
  In (EvSend s off (-1)) (snd (establish e argv)) ->
  exists f,
    fst (establish e argv) = Exit EXIT_FAILURE /\
    (exists pre, snd (establish e argv)
                 = pre ++ [EvSend s off (-1); EvStderr (MsgSend f)]) /\
    s = env_socket e Control /\
    0 <= env_socket e Control /\
    length (connect_ports (snd (establish e argv))) = 1%nat.
Proof.
  intros Hin.
  destruct (establish e argv) as [o t] eqn:Hrun. cbn [fst snd] in *.
  unfold establish in Hrun.
  destruct (parse_args_cases (Z.of_nat (length argv)) argv)
    as [[[[na nv] base] Hp]|(tp & Hp & Htp)]; rewrite Hp in *.
  2: { cbn [bind] in Hrun. injection Hrun as <- <-. exfalso.
       destruct (parse_args_exit_trace _ _ _ _ Hp) as [_ [->| ->]];
         which_send Hin; discriminate. }
  apply bind_return_eq in Hrun as (t' & Hrun & ->). cbn [app] in *.
  destruct (prepare_data (env_cwd e) (env_calloc e) na nv) as [[rd amnt]|] eqn:Hprep.
  2: { injection Hrun as <- <-. destruct Hin. }
  guard_stage Hrun Hamnt; [exfalso; which_send Hin|].
  connect_stage Hrun Hs0; [exfalso; which_send Hin|].
  guard_stage Hrun Hc0; [exfalso; which_send Hin|].
  send_stage_failed Hrun r1 ts1 Hev1 Hfail1; try solve [exfalso; which_send Hin].
  guard_stage Hrun Hr1; [which_send Hin; send_leaf FArgc|].
  send_stage_failed Hrun r2 ts2 Hev2 Hfail2; try solve [exfalso; which_send Hin].
  guard_stage Hrun Hr2; [which_send Hin; send_leaf FAmtBytes|].
  send_stage_failed Hrun r3 ts3 Hev3 Hfail3; try solve [exfalso; which_send Hin].
  guard_stage Hrun Hr3; [which_send Hin; send_leaf FCwdArgv|].
  connect_stage Hrun Hs1; [exfalso; which_send Hin|].
  guard_stage Hrun Hc1; [exfalso; which_send Hin|].
  connect_stage Hrun Hs2; [exfalso; which_send Hin|].
  guard_stage Hrun Hc2; [exfalso; which_send Hin|].
  connect_stage Hrun Hs3; [exfalso; which_send Hin|].
  guard_stage Hrun Hc3; [exfalso; which_send Hin|].
  injection Hrun as <- <-. exfalso. which_send Hin.
Qed.

(** X11: a [send] that fails while the request is going out is fatal: in
    every run of [main], a [send] that returned -1 is followed by the
    message of the part being sent and nothing else, and the process exits
    with a failure status; it happened on the control socket, and no I/O
    connection has been attempted: the control connection is the only
    one. *)
Theorem send_failure_fatal (e : env) (argv : list bytes) (s : Z) (off : bytes) :
  In (EvSend s off (-1)) (snd (main e argv)) ->
  exists f,
    fst (main e argv) = Exit EXIT_FAILURE /\
    (exists pre, snd (main e argv)
                 = pre ++ [EvSend s off (-1); EvStderr (MsgSend f)]) /\
    s = env_socket e Control /\
    0 <= env_socket e Control /\
    length (connect_ports (snd (main e argv))) = 1%nat.
Proof.
  intros Hin. apply main_setup_event in Hin; [|exact I].
  destruct (establish_send_failure e argv s off Hin)
    as (f & Hfst & Hend & Hs & Hs0 & Hports).
  exists f. rewrite (main_establish_exit e argv Hfst). cbn [fst snd].
  repeat split; assumption.
Qed.

Lemma send_failure_fatal_witness :
  let e := with_send example_env
             (fun f => match f with FAmtBytes => [3; -1] | _ => [4] end) in
  main e example_argv
  = (Exit EXIT_FAILURE,
     [EvSocket 3; EvConnect 3 4000 0; EvSend 3 [0; 0; 0; 2] 4;
      EvSend 3 [0; 0; 0; 16] 3; EvSend 3 [16] (-1);
      EvStderr (MsgSend FAmtBytes)]).
Proof.
  intros e.
  assert (Hin : In (EvSend 3 [16] (-1)) (snd (main e example_argv)))
    by (simpl; tauto).
  destruct (send_failure_fatal e example_argv 3 [16] Hin) as (f & Hfst & _).
  reflexivity.
Defined.

Lemma establish_return (e : env) (argv : list bytes) (s : sockets) (t : list event) :
  establish e argv = (Return s, t) ->
  Forall send_contract t ->
  exists na nv base rd amnt,
    parse_args (Z.of_nat (length argv)) argv = (Return (na, nv, base), []) /\
    prepare_data (env_cwd e) (env_calloc e) na nv = Some (rd, amnt) /\
    s = {| sock := env_socket e Control; sock_stdout := env_socket e Stdout;
           sock_stderr := env_socket e Stderr; sock_stdin := env_socket e Stdin |} /\
    (forall c, 0 <= env_socket e c /\ 0 <= env_connect e c) /\
    connect_ports t = map (fun k => to_uint16 (base + k)) (upto 4) /\
    transmitted (env_socket e Control) t = request rd amnt.
Proof.
  intros Hrun Hc.
  remember (Return s) as o eqn:Ho.
  unfold establish in Hrun.
  destruct (parse_args_cases (Z.of_nat (length argv)) argv)
    as [[[[na nv] base] Hp]|(tp & Hp & Htp)]; rewrite Hp in *.
  2: { cbn [bind] in Hrun. injection Hrun as <- <-. discriminate Ho. }
  apply bind_return_eq in Hrun as (t' & Hrun & ->). cbn [app] in *.
  destruct (prepare_data (env_cwd e) (env_calloc e) na nv) as [[rd amnt]|] eqn:Hprep.
  2: { injection Hrun as <- <-. discriminate Ho. }
  destruct (prepare_data_sizes _ _ _ _ _ _ Hprep) as [Hargc Hsizes].
  guard_stage Hrun Hamnt; [discriminate Ho|].
  destruct Hsizes as [->|(Hrange & Hamt & Hbuf)]; [lia|].
  connect_stage Hrun Hs0; [discriminate Ho|].
  guard_stage Hrun Hc0; [discriminate Ho|].
  send_stage Hrun r1 ts1 Hev1 Hres1 Hoth1; try discriminate Ho.
  assert (Hc1 : Forall send_contract ts1) by contract_of Hc.
  guard_stage Hrun Hr1; [discriminate Ho|].
  sent_all Hres1 Hc1 Hr1.
  send_stage Hrun r2 ts2 Hev2 Hres2 Hoth2; try discriminate Ho.
  assert (Hc2 : Forall send_contract ts2) by contract_of Hc.
  guard_stage Hrun Hr2; [discriminate Ho|].
  sent_all Hres2 Hc2 Hr2.
  send_stage Hrun r3 ts3 Hev3 Hres3 Hoth3; try discriminate Ho.
  assert (Hc3 : Forall send_contract ts3) by contract_of Hc.
  guard_stage Hrun Hr3; [discriminate Ho|].
  sent_all Hres3 Hc3 Hr3.
  connect_stage Hrun Hs1; [discriminate Ho|].
  guard_stage Hrun Hc1'; [discriminate Ho|].
  connect_stage Hrun Hs2; [discriminate Ho|].
  guard_stage Hrun Hc2'; [discriminate Ho|].
  connect_stage Hrun Hs3; [discriminate Ho|].
  guard_stage Hrun Hc3'; [discriminate Ho|].
  injection Hrun as <- <-. injection Ho as ->.
  exists na, nv, base, rd, amnt.
  split; [reflexivity|]. split; [exact Hprep|]. split; [reflexivity|].
  split; [intros []; split; assumption|].
  split.
  - ports_so_far Hev1 Hev2 Hev3.
  - cbn [transmitted app]. rewrite !transmitted_app, Hres1, Hres2, Hres3.
    cbn [transmitted]. rewrite app_nil_r. unfold request.
    rewrite !take_all_bytes by assumption. reflexivity.
Qed.

(** X13: whenever [main] returns, the set-up went all the way: the command
    line was accepted and marshalled, every [socket] and [connect]
    succeeded, the four connections were made in the order control,
    stdout, stderr, stdin on the base port and its three successors (as
    [uint16_t]), and what went out on the control socket is exactly the
    request: the 4 bytes of the argument count, the 4 bytes of the payload
    length, then the payload. *)
Theorem main_return_setup (e : env) (argv : list bytes) (code : Z) (t : list event) :
  main e argv = (Return code, t) ->
  Forall send_contract t ->
  exists na nv base rd amnt,
    parse_args (Z.of_nat (length argv)) argv = (Return (na, nv, base), []) /\
    prepare_data (env_cwd e) (env_calloc e) na nv = Some (rd, amnt) /\
    (forall c, 0 <= env_socket e c /\ 0 <= env_connect e c) /\
    connect_ports t = map (fun k => to_uint16 (base + k)) (upto 4) /\
    transmitted (env_socket e Control) t = request rd amnt.
Proof.
  intros Hmain Hc.
  destruct (main_of_establish e argv)
    as [(s & t1 & o2 & t2 & Hest & Hm & Ht2)
       |(t1 & [(_ & Hm)|[(_ & Hm)|[(_ & Hm)|(st & _ & Hest)]]])];
    try (rewrite Hm in Hmain; discriminate Hmain).
  - rewrite Hm in Hmain. injection Hmain as -> <-.
    apply Forall_app in Hc as [Hc1 _].
    destruct (establish_return e argv s t1 Hest Hc1)
      as (na & nv & base & rd & amnt & Hp & Hprep & _ & Hok & Hports & Htx).
    exists na, nv, base, rd, amnt.
    rewrite connect_ports_app, transmitted_app.
    rewrite (no_setup_connect_ports _ Ht2), (no_setup_transmitted _ _ Ht2), !app_nil_r.
    repeat split; try assumption; apply Hok.
  - unfold main in Hmain. rewrite Hest in Hmain. discriminate Hmain.
Qed.

Lemma main_return_setup_witness :
  connect_ports (snd (main example_env example_argv)) = [4000; 4001; 4002; 4003] /\
  transmitted 3 (snd (main example_env example_argv))
  = [0; 0; 0; 2] ++ [0; 0; 0; 16]
      ++ str "/tmp" ++ [0] ++ str "echo" ++ [0] ++ str "hello" ++ [0].
Proof.
  assert (Hm : main example_env example_argv
               = (Return 7, snd (main example_env example_argv))) by reflexivity.
  assert (Hc : Forall send_contract (snd (main example_env example_argv)))
    by (repeat constructor; simpl; lia).
  destruct (main_return_setup example_env example_argv 7 _ Hm Hc)
    as (na & nv & base & rd & amnt & _ & _ & _ & _ & _).
  split; reflexivity.
Defined.
(** ** The relay *)

Lemma relay_trace_app s t1 t2 :
  relay_trace s t1 -> relay_trace s t2 -> relay_trace s (t1 ++ t2).
Proof.
  induction 1; intros H2; cbn [app]; [exact H2|..];
    econstructor; eauto.
Qed.

Lemma closes_app t1 t2 : closes (t1 ++ t2) = closes t1 ++ closes t2.
Proof.
  induction t1 as [|ev t1 IH]; [reflexivity|].
  destruct ev; cbn [app closes]; rewrite IH; reflexivity.
Qed.

Lemma geb_ltb (a : Z) : (a >=? 0) = negb (a <? 0).
Proof. rewrite Z.geb_leb, Z.leb_antisym. reflexivity. Qed.

Lemma tracked_three s fds :
  tracked s fds ->
  exists p0 p1 p2,
    fds = [p0; p1; p2] /\
    stored_or_retired (fd p0) (sock_stdout s) /\
    stored_or_retired (fd p1) (sock_stderr s) /\
    stored_or_retired (fd p2) STDIN_FILENO.
Proof.
  unfold tracked. intros H.
  destruct fds as [|p0 [|p1 [|p2 [|p3 fds]]]]; cbn [map] in H;
    repeat match goal with
           | H : Forall2 _ _ _ |- _ => inversion H; clear H; subst
           end.
  exists p0, p1, p2. tauto.
Qed.

(** Reduce the monadic glue and the tests on constants in [H]. *)
Ltac turn_glue H :=
  cbn [bind ret emit fst snd app entry nth list_insert insert
       fd events revents set_fd set_revents negb andb orb] in H;
  change (-1 <? 0) with true in H; change (0 <? 0) with false in H;
  change (Z.land 0 POLLIN) with 0 in H;
  change (0 =? 0) with true in H; change (1 =? 0) with false in H;
  cbn [negb andb orb] in H.

Ltac turn_cases H :=
  turn_glue H;
  repeat match type of H with
         | context [if ?b then _ else _] => destruct b eqn:?; turn_glue H
         end.

(** One turn of the loop, after [poll] has returned with success. *)
Lemma relay_body_turn s p0 p1 p2 rv0 rv1 rv2 r o t :
  stored_or_retired (fd p0) (sock_stdout s) ->
  stored_or_retired (fd p1) (sock_stderr s) ->
  stored_or_retired (fd p2) STDIN_FILENO ->
  relay_body (sock_stdin s) [polled p0 rv0; polled p1 rv1; polled p2 rv2] r = (o, t) ->
  exists brk fds',
    o = Return (brk, fds') /\
    tracked s fds' /\
    relay_trace s t /\
    closes t ++ owed s fds' ≡ₚ owed s [p0; p1; p2].
Proof.
  destruct p0 as [f0 e0 v0], p1 as [f1 e1 v1], p2 as [f2 e2 v2].
  unfold stored_or_retired at 1 2 3. cbn [fd]. intros H0 H1 H2 Hrun.
  unfold owed. rewrite !geb_ltb. cbn [entry nth fd].
  unfold relay_body, polled, handle_poll_event, truthy in Hrun.
  destruct (negb (events_error _ 3 =? 0)).
  { injection Hrun as <- <-. eexists _, _. split; [reflexivity|].
    split; [|split; [constructor|]].
    - unfold tracked. cbn [map fd set_revents].
      do 3 (constructor; [assumption|]). constructor.
    - unfold owed. rewrite !geb_ltb. cbn [entry nth fd set_revents closes app].
      reflexivity. }
  cbn [entry nth fd events revents set_fd set_revents] in Hrun.
  destruct H0 as [->| ->], H1 as [->| ->], H2 as [->| ->];
    unfold STDIN_FILENO in *;
    change (-1 <? 0) with true in *; change (0 <? 0) with false in *.
  all: destruct (sock_stdout s <? 0) eqn:E0; destruct (sock_stderr s <? 0) eqn:E1.
  all: turn_cases Hrun.
  all: injection Hrun as <- <-.
  all: eexists _, _; split; [reflexivity|].
  all: unfold owed, tracked; rewrite ?geb_ltb;
    cbn [entry nth fd map set_fd set_revents closes app].
  all: rewrite ?E0, ?E1.
  all: change (-1 <? 0) with true; change (0 <? 0) with false; cbn [negb app].
  all: split;
    [do 3 (constructor; [first [left; reflexivity|right; reflexivity]|]); constructor|].
  all: split;
    [ repeat first
        [ apply relay_done
        | eapply relay_transfer;
          [ first [left; reflexivity|right; left; reflexivity
                  |right; right; left; reflexivity]
          | apply Z.leb_gt; assumption |]
        | eapply relay_retire;
          [ first [left; reflexivity|right; left; reflexivity
                  |right; right; left; reflexivity]
          | apply Z.leb_le; assumption |] ]
    | first [ reflexivity | apply perm_swap
            | apply (Permutation_cons_append [_; _]) ] ].
Qed.

(** The loop from a tracked array: the shape of its trace, and what it
    closes against what is left to close. *)
Lemma relay_loop_inv s rounds : forall fds o t,
  tracked s fds ->
  relay_loop (sock_stdin s) fds rounds = (o, t) ->
  relay_trace s t /\
  exists rest,
    closes t ++ rest ≡ₚ owed s fds /\
    (o = Blocked \/
     exists fds', o = Return fds' /\ tracked s fds' /\ rest = owed s fds').
Proof.
  induction rounds as [|r rounds IH]; intros fds o t Htr Hrun.
  - injection Hrun as <- <-. split; [constructor|].
    exists (owed s fds). split; [reflexivity|left; reflexivity].
  - pose proof Htr as Htr0.
    apply tracked_three in Htr as (p0 & p1 & p2 & -> & H0 & H1 & H2).
    cbn [relay_loop] in Hrun.
    destruct (Z.eq_dec (poll_ret r) (-1)) as [Hp|Hp].
    + unfold poll in Hrun. rewrite bind_emit in Hrun. cbn [fst snd ret] in Hrun.
      rewrite Hp in Hrun. cbn [bind Z.eqb ret app] in Hrun.
      injection Hrun as <- <-. split.
      * apply relay_wait; [exact Htr0|constructor].
      * exists (owed s [p0; p1; p2]). split; [reflexivity|].
        right. eexists. split; [reflexivity|]. split; [exact Htr0|reflexivity].
    + rewrite poll_three in Hrun by exact Hp. cbn [bind] in Hrun.
      destruct (Z.eqb_spec (poll_ret r) (-1)); [contradiction|].
      destruct (relay_body _ _ r) as [ob tb] eqn:Hb.
      apply relay_body_turn in Hb as (brk & fds' & -> & Htr' & Htrace & Hperm);
        try assumption.
      destruct brk.
      * cbn [bind ret] in Hrun. injection Hrun as <- <-. split.
        -- apply relay_wait; [exact Htr0|]. rewrite app_nil_r. exact Htrace.
        -- exists (owed s fds'). cbn [app closes]. rewrite app_nil_r.
           split; [exact Hperm|].
           right. eexists. split; [reflexivity|]. split; [exact Htr'|reflexivity].
      * cbn [bind] in Hrun.
        destruct (relay_loop (sock_stdin s) fds' rounds) as [o' t'] eqn:Hl.
        injection Hrun as <- <-.
        destruct (IH _ _ _ Htr' Hl) as (Htl & rest & Hrest & Hend).
        split.
        -- apply relay_wait; [exact Htr0|].
           apply relay_trace_app; assumption.
        -- exists rest. split; [|exact Hend].
           cbn [app closes]. rewrite closes_app, <- app_assoc, Hrest. exact Hperm.
Qed.
(** ** What [main] closes *)

Lemma parse_args_setup argc argv :
  Forall is_setup_event (snd (parse_args argc argv)).
Proof.
  unfold parse_args, usage.
  repeat match goal with
         | |- context [if ?b then _ else _] => destruct b
         | |- context [let '(_, _) := ?p in _] => destruct p
         end;
    repeat constructor.
Qed.

Lemma do_connect_setup port sa ca :
  Forall is_setup_event (snd (do_connect port sa ca)).
Proof.
  destruct (do_connect_cases port sa ca) as [[_ ->]|[_ ->]]; repeat constructor.
Qed.

Lemma send_all_setup conn buf len answers :
  Forall is_setup_event (snd (send_all conn buf len answers)).
Proof.
  eapply List.Forall_impl; [|apply send_all_events].
  intros [] H; try destruct H; exact I.
Qed.

Lemma guard_setup (b : bool) (msg : message) :
  Forall is_setup_event (snd (if b then die msg else ret tt)).
Proof. destruct b; repeat constructor. Qed.

(** The set-up phase makes no call but those of setting up. *)
Lemma establish_setup_events e argv :
  Forall is_setup_event (snd (establish e argv)).
Proof.
  unfold establish.
  apply bind_events; [apply parse_args_setup|]. intros [[na nv] port].
  destruct (prepare_data _ _ na nv) as [[rd amnt]|]; [|constructor].
  repeat first
    [ apply bind_events;
      [ first [ apply guard_setup | apply do_connect_setup | apply send_all_setup ] |];
      intros
    | match goal with |- context [let '(_, _) := ?p in _] => destruct p end ].
  constructor.
Qed.

Lemma setup_closes t : Forall is_setup_event t -> closes t = [].
Proof.
  induction 1 as [|ev t Hev _ IH]; [reflexivity|].
  destruct ev; cbn in *; tauto.
Qed.

(** The sockets the set-up phase hands to the loop. *)
Lemma establish_sockets (e : env) (argv : list bytes) (s : sockets) (t : list event) :
  establish e argv = (Return s, t) ->
  s = {| sock := env_socket e Control; sock_stdout := env_socket e Stdout;
         sock_stderr := env_socket e Stderr; sock_stdin := env_socket e Stdin |} /\
  (forall c, 0 <= env_socket e c).
Proof.
  intros Hrun.
  remember (Return s) as o eqn:Ho.
  unfold establish in Hrun.
  destruct (parse_args_cases (Z.of_nat (length argv)) argv)
    as [[[[na nv] base] Hp]|(tp & Hp & Htp)]; rewrite Hp in *.
  2: { cbn [bind] in Hrun. injection Hrun as <- <-. discriminate Ho. }
  apply bind_return_eq in Hrun as (t' & Hrun & ->). cbn [app] in *.
  destruct (prepare_data (env_cwd e) (env_calloc e) na nv) as [[rd amnt]|] eqn:Hprep.
  2: { injection Hrun as <- <-. discriminate Ho. }
  guard_stage Hrun Hamnt; [discriminate Ho|].
  connect_stage Hrun Hs0; [discriminate Ho|].
  guard_stage Hrun Hc0; [discriminate Ho|].
  send_stage Hrun r1 ts1 Hev1 Hres1 Hoth1; try discriminate Ho.
  guard_stage Hrun Hr1; [discriminate Ho|].
  send_stage Hrun r2 ts2 Hev2 Hres2 Hoth2; try discriminate Ho.
  guard_stage Hrun Hr2; [discriminate Ho|].
  send_stage Hrun r3 ts3 Hev3 Hres3 Hoth3; try discriminate Ho.
  guard_stage Hrun Hr3; [discriminate Ho|].
  connect_stage Hrun Hs1; [discriminate Ho|].
  guard_stage Hrun Hc1'; [discriminate Ho|].
  connect_stage Hrun Hs2; [discriminate Ho|].
  guard_stage Hrun Hc2'; [discriminate Ho|].
  connect_stage Hrun Hs3; [discriminate Ho|].
  guard_stage Hrun Hc3'; [discriminate Ho|].
  injection Hrun as <- <-. injection Ho as ->.
  split; [reflexivity|]. intros []; assumption.
Qed.

Lemma read_status_closes e s fds :
  closes (snd (read_status e s fds)) = sock s :: owed s fds /\
  exists code, fst (read_status e s fds) = Return code.
Proof.
  unfold read_status, owed. cbv zeta. rewrite !bind_emit. cbn [snd fst closes].
  destruct (fd (entry fds 0) >=? 0), (fd (entry fds 1) >=? 0),
    (fd (entry fds 2) >=? 0); cbn; (split; [reflexivity|eexists; reflexivity]).
Qed.

Lemma tracked_initial s : tracked s (initial_fds s).
Proof.
  unfold tracked, initial_fds. cbn [map fd].
  do 3 (constructor; [left; reflexivity|]). constructor.
Qed.

(** What a run of [main] closes, against the four sockets. *)
Lemma main_closes (e : env) (argv : list bytes) :
  exists rest,
    closes (snd (main e argv)) ++ rest ≡ₚ env_sockets e /\
    (forall code, fst (main e argv) = Return code -> rest = []).
Proof.
  unfold main.
  pose proof (establish_setup_events e argv) as Hsetup.
  destruct (establish e argv) as [[s|st| |] t1] eqn:Hest; cbn [snd] in Hsetup;
    cbn [bind];
    try (exists (env_sockets e); cbn [fst snd];
         rewrite (setup_closes _ Hsetup); split; [reflexivity|discriminate]).
  destruct (establish_sockets _ _ _ _ Hest) as [Hs Hpos].
  destruct (relay_loop (sock_stdin s) (initial_fds s) (env_rounds e))
    as [o2 t2] eqn:Hloop.
  destruct (relay_loop_inv s _ _ _ _ (tracked_initial s) Hloop)
    as (_ & rest & Hrest & Hend).
  assert (Howed : sock s :: owed s (initial_fds s) = env_sockets e).
  { unfold owed, initial_fds, env_sockets. cbn [entry nth fd map].
    rewrite Hs. cbn [sock sock_stdout sock_stderr sock_stdin].
    destruct (Z.geb_spec (env_socket e Stdout) 0);
      [|pose proof (Hpos Stdout); lia].
    destruct (Z.geb_spec (env_socket e Stderr) 0);
      [|pose proof (Hpos Stderr); lia].
    reflexivity. }
  destruct Hend as [->|(fds' & -> & _ & ->)]; cbn [bind].
  - exists (sock s :: rest). cbn [fst snd]. split; [|discriminate].
    rewrite closes_app, (setup_closes _ Hsetup). cbn [app].
    rewrite <- Permutation_middle, Hrest, Howed. reflexivity.
  - destruct (read_status_closes e s fds') as [Hcl [code Hcode]].
    destruct (read_status e s fds') as [o3 t3]. cbn [fst snd] in *.
    exists []. split; [|reflexivity].
    rewrite app_nil_r, !closes_app, (setup_closes _ Hsetup), Hcl. cbn [app].
    rewrite <- Permutation_middle, Hrest, Howed. reflexivity.
Qed.

(** X16: when [main] returns it has closed each of its four sockets
    exactly once and no other descriptor: the I/O sockets either in the
    loop, when their side reached end-of-file or failed, or after it; the
    control socket after the final [recv]. *)
Theorem main_closes_each_socket_once (e : env) (argv : list bytes) (code : Z) :
  fst (main e argv) = Return code ->
  closes (snd (main e argv)) ≡ₚ env_sockets e.
Proof.
  intros Hret. destruct (main_closes e argv) as (rest & Hperm & Hrest).
  rewrite (Hrest code Hret), app_nil_r in Hperm. exact Hperm.
Qed.

Lemma main_closes_each_socket_once_witness :
  closes (snd (main example_env example_argv)) ≡ₚ [3; 4; 5; 6].
Proof.
  apply (main_closes_each_socket_once example_env example_argv 7).
  reflexivity.
Defined.

(** X17: [main] never closes a descriptor twice, however it ends: with
    four distinct sockets, the descriptors it closes are distinct and are
    among those sockets.  In particular a socket closed in the loop is not
    closed again after it. *)
Theorem main_never_closes_twice (e : env) (argv : list bytes) :
  NoDup (env_sockets e) ->
  NoDup (closes (snd (main e argv))) /\
  closes (snd (main e argv)) ⊆ env_sockets e.
Proof.
  intros Hnd. destruct (main_closes e argv) as (rest & Hperm & _).
  rewrite <- Hperm in Hnd. apply NoDup_app in Hnd as (Hnd & _ & _).
  split; [exact Hnd|].
  intros x Hx. rewrite <- Hperm. apply elem_of_app. left. exact Hx.
Qed.

Lemma main_never_closes_twice_witness :
  NoDup (closes (snd (main (with_rounds example_env
                             [turn [0; 0; POLLIN] [0; 0; 0];
                              turn [0; POLLIN; 0] [0; 0; 0]])
                           example_argv))).
Proof.
  apply main_never_closes_twice.
  apply NoDup_ListNoDup. repeat constructor; simpl; lia.
Defined.
(** ** [events_error] and the turns of the loop *)

Lemma land_conditions (ev : Z) :
  truthy (Z.land ev POLLHUP) || truthy (Z.land ev POLLERR)
    || truthy (Z.land ev POLLNVAL)
  = negb (Z.land ev POLL_CONDITIONS =? 0).
Proof.
  unfold POLL_CONDITIONS, truthy. rewrite !Z.land_lor_distr_r.
  destruct (Z.eqb_spec (Z.land ev POLLHUP) 0) as [H1|H1],
           (Z.eqb_spec (Z.land ev POLLERR) 0) as [H2|H2],
           (Z.eqb_spec (Z.land ev POLLNVAL) 0) as [H3|H3];
    cbn [negb orb]; symmetry;
    first [ apply negb_false_iff, Z.eqb_eq; rewrite !Z.lor_eq_0_iff; tauto
          | apply negb_true_iff, Z.eqb_neq; rewrite !Z.lor_eq_0_iff; tauto ].
Qed.

(** X18: [events_error(p, evs)] answers 1 when one of the first [evs]
    entries has POLLHUP, POLLERR or POLLNVAL among its requested [events],
    and 0 otherwise; no other value. *)
Theorem events_error_spec (p : list pollfd) (evs : Z) :
  (events_error p evs = 1 /\ Exists flagged (take (Z.to_nat evs) p)) \/
  (events_error p evs = 0 /\
   Forall (fun pf => ~ flagged pf) (take (Z.to_nat evs) p)).
Proof.
  unfold events_error. generalize (Z.to_nat evs) as n. intros n. revert p.
  induction n as [|n IH]; intros p.
  - right. split; [destruct p; reflexivity|rewrite take_0; constructor].
  - destruct p as [|pf p]; [right; split; [reflexivity|constructor]|].
    cbn [events_error_loop take]. cbv zeta. rewrite land_conditions.
    destruct (Z.eqb_spec (Z.land (events pf) POLL_CONDITIONS) 0) as [Hz|Hnz];
      cbn [negb].
    + destruct (IH p) as [[-> Hex]|[-> Hall]].
      * left. split; [reflexivity|apply Exists_cons_tl; exact Hex].
      * right. split; [reflexivity|]. constructor; [|exact Hall].
        unfold flagged. intros H. exact (H Hz).
    + left. split; [reflexivity|]. apply Exists_cons_hd. exact Hnz.
Qed.

(** X19: the answer of [events_error] is a function of the requested
    [events] alone: two arrays that agree on the [events] of their first
    [evs] entries get the same answer, whatever their descriptors and
    whatever [poll] reported in [revents]. *)
Theorem events_error_ignores_revents (p q : list pollfd) (evs : Z) :
  map events (take (Z.to_nat evs) p) = map events (take (Z.to_nat evs) q) ->
  events_error p evs = events_error q evs.
Proof.
  unfold events_error. generalize (Z.to_nat evs) as n. intros n. revert p q.
  induction n as [|n IH]; intros p q Heq; [destruct p, q; reflexivity|].
  destruct p as [|pf p], q as [|qf q]; try discriminate Heq; [reflexivity|].
  cbn [take map] in Heq. injection Heq as Hev Heq.
  cbn [events_error_loop]. cbv zeta. rewrite Hev, (IH p q Heq). reflexivity.
Qed.

Lemma events_error_ignores_revents_witness :
  events_error [ {| fd := 4; events := POLLIN; revents := POLLHUP |};
                 {| fd := 5; events := POLLIN; revents := POLLERR |};
                 {| fd := 0; events := POLLIN; revents := POLLNVAL |} ] 3
  = events_error (initial_fds example_sockets) 3.
Proof. apply events_error_ignores_revents. reflexivity. Defined.

(** One turn in which the two remote sources are idle and local stdin is
    ready. *)
Lemma stdin_turn (sock_stdin : Z) (p0 p1 p2 : pollfd) (r : round)
    (rounds : list round) :
  events p0 = POLLIN -> events p1 = POLLIN -> events p2 = POLLIN ->
  poll_ret r <> -1 ->
  let q0 := polled p0 (nth 0 (poll_revents r) 0) in
  let q1 := polled p1 (nth 1 (poll_revents r) 0) in
  let q2 := polled p2 (nth 2 (poll_revents r) 0) in
  let n := nth 2 (read_ret r) 0 in
  let retired := [EvPoll [fd p0; fd p1; fd p2] (poll_ret r);
                  EvRead (fd p2) BUFF_SIZE n;
                  EvShutdown sock_stdin; EvClose sock_stdin] in
  Z.land (revents q0) POLLIN = 0 ->
  Z.land (revents q1) POLLIN = 0 ->
  Z.land (revents q2) POLLIN <> 0 ->
  (n = 0 ->
   relay_loop sock_stdin [p0; p1; p2] (r :: rounds)
   = let '(o, t) := relay_loop sock_stdin [q0; q1; set_fd q2 (-1)] rounds in
     (o, retired ++ t)) /\
  (n < 0 ->
   relay_loop sock_stdin [p0; p1; p2] (r :: rounds)
   = (Return [q0; q1; set_fd q2 (-1)], retired)).
Proof.
  intros He0 He1 He2 Hret q0 q1 q2 n retired Hi0 Hi1 Hin.
  assert (Herr : events_error [q0; q1; q2] 3 = 0).
  { apply events_error_pollin. repeat constructor; assumption. }
  assert (Hidle : forall v, v = 0 -> truthy v = false) by (intros v ->; reflexivity).
  assert (Hready : truthy (Z.land (revents q2) POLLIN) = true).
  { unfold truthy. destruct (Z.eqb_spec (Z.land (revents q2) POLLIN) 0);
      [contradiction|reflexivity]. }
  split; intros Hn.
  all: cbn [relay_loop]; rewrite poll_three by assumption; fold q0 q1 q2;
    cbn [bind]; destruct (Z.eqb_spec (poll_ret r) (-1)); [contradiction|];
    unfold relay_body; rewrite Herr; cbn [truthy Z.eqb negb entry nth];
    rewrite (Hidle _ Hi0); cbn [bind ret app entry nth];
    rewrite (Hidle _ Hi1); cbn [bind ret app entry nth];
    rewrite Hready; unfold handle_poll_event; rewrite bind_emit; fold n.
  - rewrite Hn. cbn [Z.leb Z.compare truthy Z.eqb negb].
    rewrite !bind_emit. cbn [bind ret fst snd app Z.ltb Z.compare andb negb
                             truthy Z.eqb list_insert insert].
    destruct (relay_loop _ _ rounds) as [o t]. subst retired. rewrite Hn.
    reflexivity.
  - destruct (Z.leb_spec n 0); [|lia].
    rewrite !bind_emit. destruct (Z.eqb_spec n 0); [lia|]. reflexivity.
Qed.

(** X15: end-of-file on local stdin does not end the relay, a read error
    on it does.  In any turn of a run of [main] in which the remote
    sources are idle and stdin is ready: [read] returning 0 shuts down and
    closes the stdin socket, retires the entry (so that [poll] ignores it
    from then on) and the loop goes on with the turns to come; [read]
    returning less than 0 does the same and leaves the loop. *)
Theorem stdin_eof_keeps_relay (s : sockets) (fds : list pollfd) (r : round)
    (rounds : list round) :
  loop_state s fds ->
  poll_ret r <> -1 ->
  exists p0 p1 p2,
    fds = [p0; p1; p2] /\
    let q0 := polled p0 (nth 0 (poll_revents r) 0) in
    let q1 := polled p1 (nth 1 (poll_revents r) 0) in
    let q2 := polled p2 (nth 2 (poll_revents r) 0) in
    let n := nth 2 (read_ret r) 0 in
    let retired := [EvPoll [fd p0; fd p1; fd p2] (poll_ret r);
                    EvRead (fd p2) BUFF_SIZE n;
                    EvShutdown (sock_stdin s); EvClose (sock_stdin s)] in
    Z.land (revents q0) POLLIN = 0 ->
    Z.land (revents q1) POLLIN = 0 ->
    Z.land (revents q2) POLLIN <> 0 ->
    (n = 0 ->
     relay_loop (sock_stdin s) fds (r :: rounds)
     = let '(o, t) :=
         relay_loop (sock_stdin s) [q0; q1; set_fd q2 (-1)] rounds in
       (o, retired ++ t)) /\
    (n < 0 ->
     relay_loop (sock_stdin s) fds (r :: rounds)
     = (Return [q0; q1; set_fd q2 (-1)], retired)).
Proof.
  intros Hst Hret.
  destruct (loop_state_events s fds Hst) as (p0 & p1 & p2 & -> & He0 & He1 & He2).
  exists p0, p1, p2. split; [reflexivity|].
  apply stdin_turn; assumption.
Qed.

Lemma stdin_eof_keeps_relay_witness :
  relay_loop 6 (initial_fds example_sockets)
    [turn [0; 0; POLLIN] [0; 0; 0]; turn [0; POLLIN; POLLIN] [0; 7; 9]]
  = (Blocked,
     [EvPoll [4; 5; 0] 1; EvRead 0 1024 0; EvShutdown 6; EvClose 6;
      EvPoll [4; 5; -1] 1; EvRead 5 1024 7; EvWrite 2 7 7]).
Proof.
  destruct (stdin_eof_keeps_relay example_sockets (initial_fds example_sockets)
              (turn [0; 0; POLLIN] [0; 0; 0])
              [turn [0; POLLIN; POLLIN] [0; 7; 9]])
    as (p0 & p1 & p2 & Hfds & Hturn).
  - apply loop_start.
  - cbn. lia.
  - injection Hfds as <- <- <-.
    destruct Hturn as [Heof _]; [reflexivity|reflexivity|discriminate|].
    refine (eq_trans (Heof eq_refl) _). reflexivity.
Defined.

(** X14: the calls of the relay loop, as [main] starts it, follow one
    pattern whatever the environment answers: a [poll] on the three
    entries, each holding the descriptor [main] stored or -1; a [read] of
    1024 bytes that returned a positive count, followed at once by the
    [write] of exactly that count along the same path (remote stdout to
    fd 1, remote stderr to fd 2, fd 0 to the stdin socket); or a [read]
    that returned 0 or less, followed at once by the shutdown and the
    close of the socket of that path.  Nothing else is called. *)
Theorem relay_loop_shape (s : sockets) (rounds : list round) :
  relay_trace s (snd (relay_loop (sock_stdin s) (initial_fds s) rounds)).
Proof.
  destruct (relay_loop (sock_stdin s) (initial_fds s) rounds) as [o t] eqn:Hrun.
  exact (proj1 (relay_loop_inv s _ _ _ _ (tracked_initial s) Hrun)).
Qed.
(** ** A write that falls short *)

Ltac which_write :=
  repeat match goal with
         | H : In _ (_ :: _) |- _ => destruct H as [H|H]
         | H : In _ [] |- _ => destruct H
         | H : EvRead _ _ _ = EvWrite _ _ _ |- _ => discriminate H
         | H : EvShutdown _ = EvWrite _ _ _ |- _ => discriminate H
         | H : EvClose _ = EvWrite _ _ _ |- _ => discriminate H
         | H : EvWrite _ _ _ = EvWrite _ _ _ |- _ => injection H as <- <- <-
         | H : negb (?w =? ?n) = false, H' : ?w <> ?n |- _ =>
             apply negb_false_iff, Z.eqb_eq in H; contradiction
         end.

(** In one turn, a write that returns something else than its count is
    the last call, and the loop is left. *)
Lemma relay_body_short_write sock_stdin q0 q1 q2 r o t :
  relay_body sock_stdin [q0; q1; q2] r = (o, t) ->
  exists brk u0 u1 u2,
    o = Return (brk, [u0; u1; u2]) /\
    forall dst n w,
      In (EvWrite dst n w) t -> w <> n ->
      brk = true /\ exists pre, t = pre ++ [EvWrite dst n w].
Proof.
  intros Hrun. unfold relay_body, handle_poll_event in Hrun.
  turn_cases Hrun.
  all: injection Hrun as <- <-.
  all: eexists _, _, _, _; split; [reflexivity|].
  all: intros dst n w Hin Hw; which_write.
  all: split; [reflexivity|ends_with].
Qed.

Lemma relay_loop_short_write sock_stdin rounds : forall p0 p1 p2 dst n w,
  In (EvWrite dst n w) (snd (relay_loop sock_stdin [p0; p1; p2] rounds)) ->
  w <> n ->
  exists fds pre,
    relay_loop sock_stdin [p0; p1; p2] rounds
    = (Return fds, pre ++ [EvWrite dst n w]).
Proof.
  induction rounds as [|r rounds IH]; intros p0 p1 p2 dst n w Hin Hw;
    [destruct Hin|].
  cbn [relay_loop] in *.
  destruct (Z.eq_dec (poll_ret r) (-1)) as [Hp|Hp].
  { unfold poll in Hin. rewrite bind_emit in Hin. cbn [fst snd ret] in Hin.
    rewrite Hp in Hin. cbn in Hin. destruct Hin as [Hin|[]]. discriminate Hin. }
  rewrite poll_three in * by exact Hp. cbn [bind] in *.
  destruct (Z.eqb_spec (poll_ret r) (-1)); [contradiction|].
  destruct (relay_body _ _ r) as [ob tb] eqn:Hb.
  apply relay_body_short_write in Hb as (brk & u0 & u1 & u2 & -> & Hturn).
  destruct brk; cbn [bind ret snd app] in *.
  - rewrite app_nil_r in *. destruct Hin as [Hin|Hin]; [discriminate Hin|].
    destruct (Hturn _ _ _ Hin Hw) as (_ & pre & ->).
    eexists _, (_ :: pre). reflexivity.
  - destruct (relay_loop sock_stdin [u0; u1; u2] rounds) as [o' t'] eqn:Hl.
    cbn [snd] in Hin. destruct Hin as [Hin|Hin]; [discriminate Hin|].
    apply in_app_or in Hin as [Hin|Hin].
    + destruct (Hturn _ _ _ Hin Hw) as (Hbrk & _). discriminate Hbrk.
    + specialize (IH u0 u1 u2 dst n w). rewrite Hl in IH. cbn [snd] in IH.
      destruct (IH Hin Hw) as (fds & pre & Heq). injection Heq as -> ->.
      eexists _, (_ :: tb ++ pre). cbn [app]. rewrite <- app_assoc. reflexivity.
Qed.

(** X22: a [write] that returns anything but the count it was given (an
    error or a short write) ends the relay at once: it is the last call
    of the loop, which is left by [break]; no descriptor is shut down or
    closed for it and nothing is printed. *)
Theorem short_write_ends_relay (s : sockets) (rounds : list round) (dst n w : Z) :
  In (EvWrite dst n w) (snd (relay_loop (sock_stdin s) (initial_fds s) rounds)) ->
  w <> n ->
  exists fds pre,
    relay_loop (sock_stdin s) (initial_fds s) rounds
    = (Return fds, pre ++ [EvWrite dst n w]).
Proof. apply relay_loop_short_write. Qed.

Lemma short_write_ends_relay_witness :
  let rounds := [ {| poll_ret := 1; poll_revents := [POLLIN; 0; 0];
                     read_ret := [5; 0; 0]; write_ret := [3; 0; 0] |};
                  turn [0; POLLIN; 0] [0; 7; 0] ] in
  exists fds pre,
    relay_loop 6 (initial_fds example_sockets) rounds
    = (Return fds, pre ++ [EvWrite 1 5 3]).
Proof.
  intros rounds.
  apply (short_write_ends_relay example_sockets rounds 1 5 3).
  - simpl. tauto.
  - lia.
Defined.
(** ** After the set-up *)

Lemma sends_quiet t : Forall is_send t -> Forall (fun ev => ~ is_message ev) t.
Proof.
  apply List.Forall_impl. intros [] H; cbn in *; tauto.
Qed.

(** A set-up phase that succeeded printed nothing. *)
Lemma establish_return_quiet (e : env) (argv : list bytes) (s : sockets)
    (t : list event) :
  establish e argv = (Return s, t) ->
  Forall (fun ev => ~ is_message ev) t.
Proof.
  intros Hrun.
  remember (Return s) as o eqn:Ho.
  unfold establish in Hrun.
  destruct (parse_args_cases (Z.of_nat (length argv)) argv)
    as [[[[na nv] base] Hp]|(tp & Hp & Htp)]; rewrite Hp in *.
  2: { cbn [bind] in Hrun. injection Hrun as <- <-. discriminate Ho. }
  apply bind_return_eq in Hrun as (t' & Hrun & ->). cbn [app] in *.
  destruct (prepare_data (env_cwd e) (env_calloc e) na nv) as [[rd amnt]|] eqn:Hprep.
  2: { injection Hrun as <- <-. discriminate Ho. }
  guard_stage Hrun Hamnt; [discriminate Ho|].
  connect_stage Hrun Hs0; [discriminate Ho|].
  guard_stage Hrun Hc0; [discriminate Ho|].
  send_stage Hrun r1 ts1 Hev1 Hres1 Hoth1; try discriminate Ho.
  guard_stage Hrun Hr1; [discriminate Ho|].
  send_stage Hrun r2 ts2 Hev2 Hres2 Hoth2; try discriminate Ho.
  guard_stage Hrun Hr2; [discriminate Ho|].
  send_stage Hrun r3 ts3 Hev3 Hres3 Hoth3; try discriminate Ho.
  guard_stage Hrun Hr3; [discriminate Ho|].
  connect_stage Hrun Hs1; [discriminate Ho|].
  guard_stage Hrun Hc1'; [discriminate Ho|].
  connect_stage Hrun Hs2; [discriminate Ho|].
  guard_stage Hrun Hc2'; [discriminate Ho|].
  connect_stage Hrun Hs3; [discriminate Ho|].
  guard_stage Hrun Hc3'; [discriminate Ho|].
  injection Hrun as <- <-.
  apply sends_quiet in Hev1, Hev2, Hev3.
  cbn [app]. rewrite ?Forall_cons, ?Forall_app, ?Forall_cons.
  repeat split; try assumption; try (cbn; tauto); constructor.
Qed.

Lemma in_setup_not_poll t fds r :
  Forall is_setup_event t -> In (EvPoll fds r) t -> False.
Proof. intros H Hin. rewrite List.Forall_forall in H. exact (H _ Hin). Qed.

Lemma no_setup_quiet t :
  Forall (fun ev => ~ is_setup_event ev) t -> Forall (fun ev => ~ is_message ev) t.
Proof.
  apply List.Forall_impl. intros [] H; cbn in *; tauto.
Qed.

(** X23: failures are reported during the set-up only.  A run of [main]
    that has called [poll] has printed nothing and prints nothing, and it
    cannot end in [exit]: it either waits for ever in [poll] or returns
    the status, whatever [read], [write] and [recv] answer. *)
Theorem relay_started_quiet (e : env) (argv : list bytes) (fds : list Z) (r : Z) :
  In (EvPoll fds r) (snd (main e argv)) ->
  (fst (main e argv) = Blocked \/ fst (main e argv) = Return (status_of e)) /\
  Forall (fun ev => ~ is_message ev) (snd (main e argv)).
Proof.
  intros Hin.
  pose proof (establish_setup_events e argv) as Hsetup.
  pose proof (main_tail_no_setup e) as Htail.
  unfold main in *.
  destruct (establish e argv) as [[s|st| |] t1] eqn:Hest; cbn [snd bind] in *;
    try (exfalso; exact (in_setup_not_poll _ _ _ Hsetup Hin)).
  specialize (Htail s).
  pose proof (establish_return_quiet _ _ _ _ Hest) as Hquiet.
  destruct (relay_loop (sock_stdin s) (initial_fds s) (env_rounds e))
    as [o2 t2] eqn:Hloop.
  destruct (relay_loop_inv s _ _ _ _ (tracked_initial s) Hloop)
    as (_ & rest & _ & Hend).
  destruct Hend as [->|(fds' & -> & _ & _)]; cbn [bind fst snd] in *.
  - split; [left; reflexivity|].
    apply Forall_app. split; [exact Hquiet|apply no_setup_quiet; exact Htail].
  - destruct (read_status_returns e s fds') as [t3 Hrs].
    rewrite Hrs in *. cbn [fst snd] in *.
    split; [right; reflexivity|].
    apply Forall_app. split; [exact Hquiet|apply no_setup_quiet; exact Htail].
Qed.

Lemma relay_started_quiet_witness :
  fst (main example_env example_argv) = Return 7 /\
  Forall (fun ev => ~ is_message ev) (snd (main example_env example_argv)).
Proof.
  destruct (relay_started_quiet example_env example_argv [4; 5; 0] 1)
    as [[Hout|Hout] Hquiet].
  - simpl. tauto.
  - discriminate Hout.
  - split; [exact Hout|exact Hquiet].
Defined.
(** ** The patcher over any sequence of calls *)

Section Trampoline.
Import Aarch64.

Lemma fill_literal_sixteen p hook :
  length p = 16%nat ->
  fill_literal p hook = take 8 p ++ map (u_addr_val hook) (seq 0 8).
Proof.
  intros Hlen.
  do 17 (destruct p as [|? p]; try discriminate Hlen).
  reflexivity.
Qed.

(** The template keeps its size and its two instructions, and the backup
    its size, whatever was called before. *)
Lemma reachable_template s :
  reachable s ->
  length (patch s) = 16%nat /\ take 8 (patch s) = trampoline_code /\
  length (bck_start s) = 16%nat.
Proof.
  induction 1 as [m|hook s start _ (Hlen & Hcode & Hbck)|s _ IH].
  - repeat split; reflexivity.
  - cbn [arch_patch_start fst patch bck_start].
    rewrite fill_literal_length, memcpy_from_length.
    split; [exact Hlen|]. split; [|reflexivity].
    rewrite fill_literal_sixteen by exact Hlen.
    rewrite take_app_le by (rewrite length_take; lia).
    rewrite take_take. exact Hcode.
  - exact IH.
Qed.

Lemma memcpy_round m addr src n :
  length src = n -> memcpy_from (memcpy_to m addr src n) addr n = src.
Proof.
  intros Hlen. unfold memcpy_from, memcpy_to.
  apply nth_ext with (d := 0) (d' := 0);
    [rewrite length_map, length_seq; lia|].
  intros i Hi. rewrite length_map, length_seq in Hi.
  rewrite (nth_indep _ 0 ((fun i => if (addr <=? addr + Z.of_nat i)
                                       && (addr + Z.of_nat i <? addr + Z.of_nat n)
                                    then nth (Z.to_nat (addr + Z.of_nat i - addr)) src 0
                                    else m (addr + Z.of_nat i)) 0%nat))
    by (rewrite length_map, length_seq; exact Hi).
  rewrite (map_nth (fun i => if (addr <=? addr + Z.of_nat i)
                                && (addr + Z.of_nat i <? addr + Z.of_nat n)
                             then nth (Z.to_nat (addr + Z.of_nat i - addr)) src 0
                             else m (addr + Z.of_nat i))), seq_nth by exact Hi.
  replace ((addr <=? addr + Z.of_nat (0 + i))
           && (addr + Z.of_nat (0 + i) <? addr + Z.of_nat n)) with true
    by (symmetry; apply andb_true_iff; split;
        [apply Z.leb_le|apply Z.ltb_lt]; lia).
  f_equal. lia.
Qed.

Lemma le_value_digits a n : forall k,
  le_value (map (fun i => (a / 2 ^ (8 * Z.of_nat i)) mod 2 ^ 8) (seq k n))
  = (a / 2 ^ (8 * Z.of_nat k)) mod 2 ^ (8 * Z.of_nat n).
Proof.
  induction n as [|n IH]; intros k.
  - cbn [seq map le_value fold_right]. rewrite Z.mul_0_r, Z.pow_0_r, Z.mod_1_r.
    reflexivity.
  - cbn [seq map]. change (le_value (?b :: ?l)) with (b + 256 * le_value l).
    rewrite IH.
    replace (8 * Z.of_nat (S n)) with (8 + 8 * Z.of_nat n) by lia.
    rewrite Z.pow_add_r by lia.
    rewrite Z.rem_mul_r by (try apply Z.pow_pos_nonneg; lia).
    replace (8 * Z.of_nat (S k)) with (8 * Z.of_nat k + 8) by lia.
    rewrite Z.pow_add_r, <- Z.div_div by (try apply Z.pow_pos_nonneg; lia).
    reflexivity.
Qed.

Lemma literal_value hook :
  le_value (map (u_addr_val hook) (seq 0 8)) = hook mod 2 ^ 64.
Proof.
  rewrite (map_ext (u_addr_val hook)
             (fun i => (hook / 2 ^ (8 * Z.of_nat i)) mod 2 ^ 8)).
  - rewrite le_value_digits. cbn [Z.of_nat Z.mul]. rewrite Z.pow_0_r, Z.div_1_r.
    reflexivity.
  - intros i. unfold u_addr_val, to_uint8. rewrite Z.shiftr_div_pow2 by lia.
    reflexivity.
Qed.

(** X20: after [arch_patch_start], from any state the patcher can be in,
    the 16 bytes at [start] are the two instructions of the trampoline
    followed by an 8-byte literal whose little-endian value is the address
    of the hook (modulo 2^64): earlier calls leave nothing behind in the
    template. *)
Theorem trampoline_contents (hook : Z) (s : state) (start : Z) :
  reachable s ->
  exists literal,
    memcpy_from (mem (fst (arch_patch_start hook s start))) start PATCH_SIZE
    = trampoline_code ++ literal /\
    length literal = 8%nat /\
    Forall is_byte literal /\
    le_value literal = hook mod 2 ^ 64.
Proof.
  intros Hs. destruct (reachable_template s Hs) as (Hlen & Hcode & _).
  exists (map (u_addr_val hook) (seq 0 8)).
  split; [|split; [reflexivity|split; [|apply literal_value]]].
  - cbn [arch_patch_start fst mem].
    rewrite memcpy_round by (rewrite fill_literal_length; exact Hlen).
    rewrite fill_literal_sixteen by exact Hlen. rewrite Hcode. reflexivity.
  - apply List.Forall_forall. intros b Hb. apply in_map_iff in Hb as (i & <- & _).
    unfold u_addr_val, to_uint8, is_byte.
    apply Z.mod_pos_bound. lia.
Qed.

Lemma trampoline_contents_witness :
  let s1 := fst (arch_patch_start 0x1122334455667788 (initial (fun _ => 0xAA)) 4096) in
  let s2 := fst (arch_patch_start 0x0000aaaabbbb1234 (fst (arch_restore_start s1)) 8192) in
  memcpy_from (mem s2) 8192 PATCH_SIZE
  = [0x41; 0x00; 0x00; 0x58; 0x20; 0x00; 0x3f; 0xd6;
     0x34; 0x12; 0xbb; 0xbb; 0xaa; 0xaa; 0x00; 0x00].
Proof.
  intros s1 s2.
  destruct (trampoline_contents 0x0000aaaabbbb1234 (fst (arch_restore_start s1)) 8192)
    as (literal & Hregion & _).
  - apply reach_restore, reach_patch, reach_initial.
  - reflexivity.
Defined.

(** X21: the patcher writes nowhere but in the 16 bytes it is pointed at:
    [arch_patch_start] leaves every byte outside the region at [start] as
    it was, and [arch_restore_start] every byte outside the region at the
    recorded address. *)
Theorem patcher_writes_in_region (hook : Z) (s : state) (start a : Z) :
  (outside start a -> mem (fst (arch_patch_start hook s start)) a = mem s a) /\
  (outside (arch_addr_start s) a -> mem (fst (arch_restore_start s)) a = mem s a).
Proof.
  unfold outside. split; intros Hout;
    cbn [arch_patch_start arch_restore_start fst mem]; unfold memcpy_to.
  - destruct (Z.leb_spec start a), (Z.ltb_spec a (start + Z.of_nat PATCH_SIZE));
      cbn [andb]; try reflexivity; lia.
  - destruct (Z.leb_spec (arch_addr_start s) a),
      (Z.ltb_spec a (arch_addr_start s + Z.of_nat PATCH_SIZE));
      cbn [andb]; try reflexivity; lia.
Qed.

Lemma patcher_writes_in_region_witness :
  mem (fst (arch_patch_start 0x1234 (initial (fun a => a mod 256)) 4096)) 4112
  = 4112 mod 256.
Proof.
  apply (proj1 (patcher_writes_in_region 0x1234 (initial (fun a => a mod 256))
                  4096 4112)).
  right. vm_compute. discriminate.
Defined.

End Trampoline.
